(** * pyhm: Metropolis-Hastings step method, sampling loop and ancestry resolver

    A shallow embedding of [pyhm/BuiltinStepMethods.py], [pyhm/Utils.py]
    and [pyhm/InstantiationDecorators.py].

    Modelling conventions.
    - Finite Python floats are idealised as exact rationals [Q]; numeric
      comparison ([==], [<=], [>]) is comparison of rationals ([Qeq],
      [Qle], [Qlt]); rounding is outside the model.  (An acceptance
      fraction [k/float( n )] and a two-digit constant compare as floats
      exactly as they do as rationals as long as [n] is below 10^13.)
      The loops run on finite log-probabilities; [IEEE.decide] is the
      acceptance rule on all floats, the infinities and NaN included.
    - The value of a variable is a Python float, which [+=] replaces; values
      that are numpy arrays, which [+=] changes in place, are outside the
      model.
    - In the loops [nsteps], [ntune_iterlim] and [tune_interval] are natural
      numbers; [pre_tune_py] and [sample_py] take them as a caller passes
      them: Python ints of either sign, and [None] where the signature has
      it.
    - A [dict] whose iteration order matters is an association list in
      [keys()] order; a [dict] that is only looked up and updated is a
      [gmap string _], next to the list of its keys in [keys()] order.
    - [numpy] arrays made by [np.zeros( n )] and written by index are lists
      of length [n] updated with [<[k:=x]>].
    - The process-wide random generator is an explicit state of an arbitrary
      type [RNG], threaded through every draw; [np.exp], [np.sqrt], the
      proposal distribution and the joint log-probability of the model are
      parameters.
    - A raised exception is the [Raise] branch of [result]; [print] is left
      out, except where it reads a variable that was never assigned. *)

From Stdlib Require Import QArith Lqa DecimalString Ascii.
From stdpp Require Import gmap strings list fin_maps sorting.

Local Open Scope Q_scope.

(** ** Exceptions and results *)

Inductive exn : Type :=
| StandardError (msg : string)
| ValueError (msg : string)
| KeyError (key : string)
| ZeroDivisionError.

Inductive result (A : Type) : Type :=
| Ok (a : A)
| Raise (e : exn).
Arguments Ok {A} a.
Arguments Raise {A} e.

Definition bind {A B : Type} (r : result A) (f : A -> result B) : result B :=
  match r with
  | Ok a => f a
  | Raise e => Raise e
  end.

Notation "'do' x <- r ; k" := (bind r (fun x => k))
  (at level 10, x pattern, r at level 100, k at level 200).

(** A [for] loop whose body may raise. *)
Fixpoint for_each {A St : Type} (body : A -> St -> result St) (xs : list A)
    (s : St) : result St :=
  match xs with
  | [] => Ok s
  | x :: xs' => do s' <- body x s; for_each body xs' s'
  end.

(** One turn of a [while] loop: fall through to the next turn, [break], or
    raise. *)
Inductive outcome (St : Type) : Type :=
| Continue (s : St)
| Break (s : St)
| Raised (e : exn).
Arguments Continue {St} s.
Arguments Break {St} s.
Arguments Raised {St} e.

(** [while i < bound: body], for a body that adds one to [i] on every turn
    that falls through: [turns] is [bound - i], the number of turns the
    condition still allows.  With no turn left the loop ends normally. *)
Fixpoint while_loop {St : Type} (body : St -> outcome St) (turns : nat) (s : St)
  : result St :=
  match turns with
  | O => Ok s
  | S turns' =>
      match body s with
      | Continue s' => while_loop body turns' s'
      | Break s' => Ok s'
      | Raised e => Raise e
      end
  end.

(** [reaches body k s s']: starting at loop head [s], the loop is at loop
    head [s'] after [k] turns, none of which left the loop. *)
Inductive reaches {St : Type} (body : St -> outcome St)
  : nat -> St -> St -> Prop :=
| reaches_here s : reaches body 0 s s
| reaches_turn k s s1 s' :
    body s = Continue s1 ->
    reaches body k s1 s' ->
    reaches body (S k) s s'.

(** The loop head after [k] turns, when none of them leaves the loop:
    [reaches] as a function. *)
Fixpoint run_turns {St : Type} (body : St -> outcome St) (k : nat) (s : St)
  : option St :=
  match k with
  | O => Some s
  | S k' =>
      match body s with
      | Continue s1 => run_turns body k' s1
      | Break _ | Raised _ => None
      end
  end.

(** ** Numbers *)

Definition Qlt_bool (x y : Q) : bool := negb (Qle_bool y x).

(** [float( n )] of a non-negative integer. *)
Definition float_of_nat (n : nat) : Q := inject_Z (Z.of_nat n).

(** [str( n )] / ['{0}'.format( n )] of a non-negative integer. *)
Definition str_of_nat (n : nat) : string :=
  NilZero.string_of_uint (Nat.to_uint n).

Definition newline : string := String "010"%char EmptyString.

(** [np.sum] of an integer array. *)
Definition np_sum (a : list nat) : nat := foldr Nat.add 0%nat a.

(** [d[key]] on a dict that holds [key]: the values of the free variables
    and the copies [pre_tune] and [sample] make of them hold every key of
    [keys()]. *)
Definition getitem (d : gmap string Q) (key : string) : Q :=
  default 0 (d !! key).

(** ** The Metropolis-Hastings step method ([BuiltinStepMethods.py]) *)

Section StepMethod.

(** State of [np.random]. *)
Variable RNG : Type.
(** [self.proposal_distribution( mu, sigma )]. *)
Variable proposal_distribution : Q -> Q -> RNG -> Q * RNG.
(** [np.random.random()]. *)
Variable np_random : RNG -> Q * RNG.
(** [np.exp]. *)
Variable np_exp : Q -> Q.

(** [MetropolisHastings.decide]. *)
Definition decide (current_logp new_logp : Q) (g : RNG) : bool * RNG :=
  let beta := new_logp - current_logp in
  if Qlt_bool 0 beta then (true, g)
  else
    let alpha := np_exp beta in
    let '(z, g') := np_random g in
    if Qle_bool z alpha then (true, g') else (false, g').

(** [mcmc.logp()]: the joint log-probability at the current values of the
    free variables (observed values are fixed). *)
Variable logp : gmap string Q -> Q.
(** [np.sqrt]. *)
Variable np_sqrt : Q -> Q.

(** [for key in keys: dst[key] = src[key]]. *)
Definition assign_all (keys : list string) (src dst : gmap string Q)
  : gmap string Q :=
  foldl (fun d key => <[key := getitem src key]> d) dst keys.

(** What [pre_tune] and [sample] mutate. *)
Record tuner : Type := Tuner {
  values : gmap string Q;          (* unobs_stochs[key].value *)
  step_sizes : gmap string Q;      (* self.step_sizes *)
  current_values : gmap string Q;
  rng : RNG
}.

(** [MetropolisHastings.propose]. *)
Definition propose_one (ss : gmap string Q) (key : string)
    (vg : gmap string Q * RNG) : result (gmap string Q * RNG) :=
  match ss !! key with
  | None => Raise (KeyError key)
  | Some sigma =>
      let '(d, g) := proposal_distribution 0 sigma (snd vg) in
      Ok (<[key := getitem (fst vg) key + d]> (fst vg), g)
  end.

Definition propose (ss : gmap string Q) (keys : list string)
    (vals : gmap string Q) (g : RNG) : result (gmap string Q * RNG) :=
  for_each (propose_one ss) keys (vals, g).

(** *** [pre_tune], phase A: one parameter at a time *)

Definition nconsecutive : nat := 5.

Definition err_str (m : nat) : string :=
  ("Aborting tuning - exceeded " +:+ str_of_nat m +:+ " steps")
    +:+ (newline +:+ "...consider reducing tune_interval").

(** Lines 158-181: the new step size after an interval with acceptance
    fraction [accfrac_j]. *)
Definition adjust_step_size (accfrac_j step : Q) : Q :=
  if Qle_bool accfrac_j 0.01 then step / 5.0
  else if Qlt_bool 0.01 accfrac_j && Qle_bool accfrac_j 0.05 then step / 2.0
  else if Qlt_bool 0.05 accfrac_j && Qle_bool accfrac_j 0.10 then step / 1.5
  else if Qlt_bool 0.10 accfrac_j && Qle_bool accfrac_j 0.15 then step / 1.2
  else if Qlt_bool 0.15 accfrac_j && Qlt_bool accfrac_j 0.2 then step / 1.1
  else if Qlt_bool 0.20 accfrac_j && Qlt_bool accfrac_j 0.25 then step / 1.01
  else if Qlt_bool 0.35 accfrac_j && Qle_bool accfrac_j 0.40 then step * 1.01
  else if Qlt_bool 0.40 accfrac_j && Qle_bool accfrac_j 0.45 then step * 1.1
  else if Qlt_bool 0.45 accfrac_j && Qle_bool accfrac_j 0.50 then step * 1.2
  else if Qlt_bool 0.50 accfrac_j && Qle_bool accfrac_j 0.55 then step * 1.5
  else if Qlt_bool 0.55 accfrac_j && Qle_bool accfrac_j 0.60 then step * 2.0
  else if Qlt_bool 0.60 accfrac_j then step * 5.0
  else step.

(** Line 186. *)
Definition successA (accfrac_j : Q) : bool :=
  Qle_bool 0.2 accfrac_j && Qle_bool accfrac_j 0.40.

(** The variables of the phase A [while] loop.  [a_accepted] is
    [tuning_chains[key_j]['accepted']]; the ['values'] and ['logp'] arrays
    of [tuning_chains] are written and never read, and left out. *)
Record loopA : Type := LoopA {
  a_i : nat;
  a_nsuccess : nat;
  a_accfrac : Q;
  a_accepted : list nat;
  a_state : tuner
}.

Section PreTune.

Variables m n : nat.                   (* ntune_iterlim, tune_interval *)
Variable keys : list string.           (* unobs_stochs.keys() *)
Variable orig_stoch_values : gmap string Q.

(** Line 110: [self.step_sizes[key_j] *= 0.3]. *)
Definition converged (key_j : string) (step_size_j : Q) (l : loopA)
  : loopA :=
  LoopA (a_i l) (a_nsuccess l) (a_accfrac l) (a_accepted l)
    (Tuner (values (a_state l))
           (<[key_j := step_size_j * 0.3]> (step_sizes (a_state l)))
           (current_values (a_state l)) (rng (a_state l))).

(** Lines 105-200: one turn of the phase A loop for [key_j]. *)
Definition phaseA_turn (key_j : string) (l : loopA) : outcome loopA :=
  let t := a_state l in
  match step_sizes t !! key_j with
  | None => Raised (KeyError key_j)
  | Some step_size_j =>
      if (nconsecutive <=? a_nsuccess l)%nat then
        Break (converged key_j step_size_j l)
      else if (a_i l =? m)%nat then Raised (StandardError (err_str m))
      else
        match n with
        | O => Raised ZeroDivisionError
        | S _ =>
            let k := (a_i l mod n)%nat in
            let i := S (a_i l) in
            let current_logp := logp (values t) in
            let vals0 :=
              if (k =? 0)%nat then assign_all keys orig_stoch_values (values t)
              else values t in
            let '(d, g) := proposal_distribution 0 step_size_j (rng t) in
            let vals1 := <[key_j := getitem vals0 key_j + d]> vals0 in
            let new_logp := logp vals1 in
            let '(dec, g') := decide current_logp new_logp g in
            let accepted := <[k := if dec then 1%nat else 0%nat]> (a_accepted l) in
            let vals2 :=
              if dec then vals1
              else <[key_j := getitem (current_values t) key_j]> vals1 in
            let cur :=
              if dec then <[key_j := getitem vals1 key_j]> (current_values t)
              else current_values t in
            if (k =? n - 1)%nat then
              let accfrac_j := float_of_nat (np_sum accepted) / float_of_nat n in
              Continue
                (LoopA i
                   (if successA accfrac_j then S (a_nsuccess l) else O)
                   accfrac_j accepted
                   (Tuner vals2
                      (<[key_j := adjust_step_size accfrac_j step_size_j]>
                         (step_sizes t))
                      cur g'))
            else
              Continue
                (LoopA i (a_nsuccess l) (a_accfrac l) accepted
                   (Tuner vals2 (step_sizes t) cur g'))
        end
  end.

(** Lines 96-102: the loop variables when parameter [key_j] is taken up. *)
Definition initA (t : tuner) : loopA :=
  LoopA 0 0 0 (replicate n 0%nat) t.

(** Lines 94-200 for one [j]: [while i<m+1] from [i = 0]. *)
Definition tune_parameter (key_j : string) (t : tuner) : result tuner :=
  do l <- while_loop (phaseA_turn key_j) (m + 1) (initA t);
  Ok (a_state l).

(** [for j in range( npars ): key_j = keys[j]] *)
Definition phaseA_order : list string :=
  omap (fun j => keys !! j) (seq 0 (length keys)).

Definition phaseA (t : tuner) : result tuner :=
  for_each tune_parameter phaseA_order t.

(** *** [pre_tune], phase B: all parameters together *)

(** Line 263. *)
Definition successB (accfrac : Q) : bool :=
  Qle_bool 0.2 accfrac && Qle_bool accfrac 0.35.

(** Lines 268-287: [rescale_factor] after an interval that was not a
    success. *)
Definition rescale_table (accfrac rescale_factor : Q) : Q :=
  if Qle_bool accfrac 0.01 then 1 / 2.0
  else if Qlt_bool 0.01 accfrac && Qle_bool accfrac 0.05 then 1 / 1.5
  else if Qlt_bool 0.05 accfrac && Qle_bool accfrac 0.10 then 1 / 1.2
  else if Qlt_bool 0.10 accfrac && Qle_bool accfrac 0.15 then 1 / 1.1
  else if Qlt_bool 0.15 accfrac && Qlt_bool accfrac 0.2 then 1 / 1.01
  else if Qlt_bool 0.35 accfrac && Qle_bool accfrac 0.45 then 1.01
  else if Qlt_bool 0.45 accfrac && Qle_bool accfrac 0.50 then 1.1
  else if Qlt_bool 0.50 accfrac && Qle_bool accfrac 0.55 then 1.2
  else if Qlt_bool 0.55 accfrac && Qle_bool accfrac 0.60 then 1.5
  else if Qlt_bool 0.60 accfrac then 2
  else rescale_factor.

Record loopB : Type := LoopB {
  b_i : nat;
  b_nsuccess : nat;
  b_rescale_factor : Q;
  b_tuning_chain : list nat;
  b_current_logp : Q;
  b_state : tuner
}.

(** Lines 237-244, the body of [for key in keys] at position [k] of the
    interval; the state is [(self.step_sizes, values, rng)]. *)
Definition perturb_key (k : nat) (rescale_factor : Q) (key : string)
    (s : gmap string Q * gmap string Q * RNG)
  : result (gmap string Q * gmap string Q * RNG) :=
  let '(ss, vals, g) := s in
  match ss !! key with
  | None => Raise (KeyError key)
  | Some sz =>
      let sz' := if (k =? 0)%nat then sz * rescale_factor else sz in
      let ss' := if (k =? 0)%nat then <[key := sz']> ss else ss in
      let '(d, g') := proposal_distribution 0 sz' g in
      Ok (ss', <[key := getitem vals key + d]> vals, g')
  end.

(** Lines 213-292: one turn of the phase B loop. *)
Definition phaseB_turn (l : loopB) : outcome loopB :=
  let t := b_state l in
  if (nconsecutive <=? b_nsuccess l)%nat then Break l
  else if (b_i l =? m)%nat then Raised (StandardError (err_str m))
  else
    match n with
    | O => Raised ZeroDivisionError
    | S _ =>
        let k := (b_i l mod n)%nat in
        let i := S (b_i l) in
        let vals0 :=
          if (k =? 0)%nat then assign_all keys orig_stoch_values (values t)
          else values t in
        match for_each (perturb_key k (b_rescale_factor l)) keys
                (step_sizes t, vals0, rng t) with
        | Raise e => Raised e
        | Ok (ss, vals1, g) =>
            let new_logp := logp vals1 in
            let '(dec, g') := decide (b_current_logp l) new_logp g in
            let chain := <[k := if dec then 1%nat else 0%nat]> (b_tuning_chain l) in
            let current_logp := if dec then new_logp else b_current_logp l in
            let cur :=
              if dec then assign_all keys vals1 (current_values t)
              else current_values t in
            let vals2 :=
              if dec then vals1 else assign_all keys (current_values t) vals1 in
            let t' := Tuner vals2 ss cur g' in
            if (k =? n - 1)%nat then
              let accfrac := float_of_nat (np_sum chain) / float_of_nat n in
              if successB accfrac then
                Continue (LoopB i (S (b_nsuccess l)) 1.0 chain current_logp t')
              else
                Continue (LoopB i O (rescale_table accfrac (b_rescale_factor l))
                            chain current_logp t')
            else
              Continue (LoopB i (b_nsuccess l) (b_rescale_factor l) chain
                          current_logp t')
        end
    end.

(** Lines 204-208. *)
Definition initB (t : tuner) : loopB :=
  LoopB 0 0 (1.0 / np_sqrt (float_of_nat (length keys))) (replicate n 0%nat)
    (logp (values t)) t.

Definition phaseB (t : tuner) : result tuner :=
  do l <- while_loop phaseB_turn (m + 1) (initB t);
  Ok (b_state l).

End PreTune.

(** [MetropolisHastings.pre_tune].  [self.step_sizes] is never [None]
    ([__init__] replaces [None] by an empty dict), so lines 66-69 do
    nothing. *)
Definition pre_tune (m n : nat) (keys : list string)
    (vals ss : gmap string Q) (g : RNG) : result tuner :=
  let orig_stoch_values := assign_all keys vals ∅ in
  let t0 := Tuner vals ss (assign_all keys vals ∅) g in
  do t1 <- phaseA m n keys orig_stoch_values t0;
  phaseB m n keys orig_stoch_values t1.

(** ** The sampling loop ([Utils.sample]) *)

(** [sampler.chain[name][i] = x] *)
Definition setitem (name : string) (i : nat) (x : Q)
    (chain : gmap string (list Q)) : gmap string (list Q) :=
  alter (fun a => <[i := x]> a) name chain.

Record loopS : Type := LoopS {
  s_chain : gmap string (list Q);
  s_current_logp : Q;
  s_state : tuner
}.

(** Lines 72-84: step [i] of the main loop.  Line 75 reads back the flag
    line 74 has just stored. *)
Definition sample_step (keys : list string) (i : nat) (l : loopS)
  : result loopS :=
  let t := s_state l in
  do proposed <- propose (step_sizes t) keys (values t) (rng t);
  let '(vals1, g) := proposed in
  let new_logp := logp vals1 in
  let '(dec, g') := decide (s_current_logp l) new_logp g in
  let chain1 := setitem "accepted" i (if dec then 1 else 0) (s_chain l) in
  let current_logp := if dec then new_logp else s_current_logp l in
  let cur :=
    if dec then assign_all keys vals1 (current_values t) else current_values t in
  let vals2 :=
    if dec then vals1 else assign_all keys (current_values t) vals1 in
  let chain2 :=
    foldl (fun ch key => setitem key i (getitem vals2 key) ch) chain1 keys in
  let chain3 := setitem "logp" i current_logp chain2 in
  Ok (LoopS chain3 current_logp (Tuner vals2 (step_sizes t) cur g')).

(** Lines 33-40. *)
Definition init_chain (keys : list string) (nsteps : nat)
  : gmap string (list Q) :=
  foldl (fun ch key => <[key := replicate nsteps 0]> ch)
    (<["accepted" := replicate nsteps 0]>
       (<["logp" := replicate nsteps 0]> ∅))
    keys.

(** [sample].  [step_method] is [None] or a [MetropolisHastings] object,
    given by its [step_sizes]; [hasattr( step_method, 'pre_tune' )] is then
    true.  The progress bar is left out. *)
Definition sample (step_method : option (gmap string Q))
    (keys : list string) (vals : gmap string Q) (g : RNG) (nsteps : nat)
    (ntune_iterlim tune_interval : option nat)
  : result (gmap string (list Q) * tuner) :=
  match step_method with
  | None =>
      Raise (StandardError "Step method must be assigned before sampling can begin")
  | Some ss =>
      let chain := init_chain keys nsteps in
      let current_values := assign_all keys vals ∅ in
      let current_logp := logp vals in
      do t <-
        (match ntune_iterlim, tune_interval with
         | Some m, Some n =>
             (* ( ntune_iterlim!=None )*( tune_interval!=None ) *)
             match tune_interval with
             | None =>
                 Raise (ValueError "tune_interval must be set explicitly for pre-tuning")
             | Some _ => pre_tune m n keys vals ss g
             end
         | _, _ => Ok (Tuner vals ss current_values g)
         end);
      do l <-
        for_each (sample_step keys) (seq 0 nsteps)
          (LoopS chain current_logp
             (Tuner (values t) (step_sizes t) current_values (rng t)));
      Ok (s_chain l, s_state l)
  end.

End StepMethod.

(** ** Reading a chain *)

(** [chain[name][i]] *)
Definition recorded (chain : gmap string (list Q)) (name : string) (i : nat)
  : option Q :=
  chain !! name ≫= (fun a => a !! i).

(** What step [i] is compared with: the value the variable had when [sample]
    was called for [i = 0], the value recorded at [i - 1] otherwise. *)
Definition previous (chain : gmap string (list Q)) (vals : gmap string Q)
    (key : string) (i : nat) : option Q :=
  match i with
  | O => Some (getitem vals key)
  | S j => recorded chain key j
  end.

(** ** The ancestry resolver ([Utils.trace_ancestries]) *)

(** What a [parents] dict can hold: a [Stoch] (it has the [is_stochastic]
    attribute and a [parents] dict of its own) or any other object.  A dict
    is an association list in [keys()] order.  The resolver never compares
    objects by identity, so a variable that is the parent of several others
    is written out once under each. *)
#[warnings="-register-all"]
Inductive pyobj : Type :=
| Other (c : Q)
| Stoch (name : string) (parents : list (string * pyobj)).

Definition is_stochastic (o : pyobj) : bool :=
  match o with
  | Stoch _ _ => true
  | Other _ => false
  end.

Definition parents_of (o : pyobj) : list (string * pyobj) :=
  match o with
  | Stoch _ ps => ps
  | Other _ => []
  end.

(** [d[k] = v] *)
Fixpoint dict_set {V : Type} (d : list (string * V)) (k : string) (v : V)
  : list (string * V) :=
  match d with
  | [] => [(k, v)]
  | (k', v') :: d' =>
      if String.eqb k' k then (k', v) :: d' else (k', v') :: dict_set d' k v
  end.

(** Lines 217-229: the body of [for parent_key in parent_keys], on
    [(stoch_checks, grandparents)]. *)
Definition scan_parent (acc : list bool * list (string * pyobj))
    (entry : string * pyobj) : list bool * list (string * pyobj) :=
  let parent := snd entry in
  let parent_stoch := is_stochastic parent in
  (fst acc ++ [parent_stoch],
   if parent_stoch then
     foldl (fun gp e => dict_set gp (fst e) (snd e)) (snd acc) (parents_of parent)
   else snd acc).

Definition scan_level (current_parents : list (string * pyobj))
  : list bool * list (string * pyobj) :=
  foldl scan_parent ([], []) current_parents.

(** Lines 211-235: [while reached_base==False].  [None]: the loop was given
    too few turns. *)
Fixpoint trace_loop (fuel : nat) (counter : nat)
    (current_parents : list (string * pyobj)) : option (result nat) :=
  match fuel with
  | O => None
  | S fuel' =>
      let '(stoch_checks, grandparents) := scan_level current_parents in
      let counter' := S counter in
      match stoch_checks with
      | [] => Some (Raise (ValueError "max() arg is an empty sequence"))
      | _ :: _ =>
          if negb (existsb id stoch_checks)       (* max( stoch_checks )==False *)
          then Some (Ok counter')
          else trace_loop fuel' counter' grandparents
      end
  end.

(** [trace_ancestries]: the dict it installs as [model._ancestries]. *)
Fixpoint trace_ancestries (fuel : nat) (free : list (string * pyobj))
    (ancestries : gmap string nat) : option (result (gmap string nat)) :=
  match free with
  | [] => Some (Ok ancestries)
  | (stoch_key, stoch) :: free' =>
      match trace_loop fuel 0%nat (parents_of stoch) with
      | None => None
      | Some (Raise e) => Some (Raise e)
      | Some (Ok counter) =>
          trace_ancestries fuel free' (<[stoch_key := counter]> ancestries)
      end
  end.

(** The number of generations on the longest lineage of stochastic
    ancestors, the variable itself included: what the docstring of
    [trace_ancestries] promises. *)
Fixpoint generations (o : pyobj) : nat :=
  match o with
  | Other _ => 0%nat
  | Stoch _ ps =>
      S ((fix over (ps : list (string * pyobj)) : nat :=
            match ps with
            | [] => 0%nat
            | (_, p) :: ps' => Nat.max (generations p) (over ps')
            end) ps)
  end.

(** The longest lineage among the objects of a [parents] dict. *)
Fixpoint level_generations (ps : list (string * pyobj)) : nat :=
  match ps with
  | [] => 0%nat
  | (_, p) :: ps' => Nat.max (generations p) (level_generations ps')
  end.

(** ** Random draws from the prior ([Utils.random_draw_from_Model]) *)

(** [np.argsort] on integers: the positions of [a], ordered by the value
    they hold.  Positions that hold the same value are left in their order;
    numpy does not promise an order for them. *)
Fixpoint insert_ix (a : list nat) (i : nat) (ixs : list nat) : list nat :=
  match ixs with
  | [] => [i]
  | j :: ixs' =>
      if (a !!! i <? a !!! j)%nat then i :: j :: ixs'
      else j :: insert_ix a i ixs'
  end.

Definition argsort (a : list nat) : list nat :=
  foldl (fun ixs i => insert_ix a i ixs) [] (seq 0 (length a)).

(** [keys[ixs]] *)
Definition take_ixs (keys : list string) (ixs : list nat) : list string :=
  omap (fun i => keys !! i) ixs.

Section RandomDraw.

Variable RNG : Type.
(** [unobs_stochs[key].random()]: a draw from the prior of [key] at the
    current values. *)
Variable stoch_random : string -> gmap string Q -> RNG -> Q * RNG.

(** Lines 101-103. *)
Fixpoint collect_ancestries (ancestries : gmap string nat)
    (keys : list string) : result (list nat) :=
  match keys with
  | [] => Ok []
  | key :: keys' =>
      match ancestries !! key with
      | None => Raise (KeyError key)
      | Some a => do rest <- collect_ancestries ancestries keys'; Ok (a :: rest)
      end
  end.

Definition draw (key : string) (s : gmap string Q * RNG)
  : result (gmap string Q * RNG) :=
  let '(x, g) := stoch_random key (fst s) (snd s) in
  Ok (<[key := x]> (fst s), g).

Definition random_draw_from_Model (keys : list string)
    (ancestries : gmap string nat) (vals : gmap string Q) (g : RNG)
  : result (gmap string Q * RNG) :=
  do a <- collect_ancestries ancestries keys;
  for_each draw (take_ixs keys (argsort a)) (vals, g).

End RandomDraw.

Arguments decide {RNG} np_random np_exp current_logp new_logp g.
Arguments Tuner {RNG} values step_sizes current_values rng.
Arguments values {RNG} t.
Arguments step_sizes {RNG} t.
Arguments current_values {RNG} t.
Arguments rng {RNG} t.
Arguments LoopA {RNG} a_i a_nsuccess a_accfrac a_accepted a_state.
Arguments a_i {RNG} l.
Arguments a_nsuccess {RNG} l.
Arguments a_accfrac {RNG} l.
Arguments a_accepted {RNG} l.
Arguments a_state {RNG} l.
Arguments LoopB {RNG} b_i b_nsuccess b_rescale_factor b_tuning_chain b_current_logp b_state.
Arguments b_i {RNG} l.
Arguments b_nsuccess {RNG} l.
Arguments b_rescale_factor {RNG} l.
Arguments b_tuning_chain {RNG} l.
Arguments b_current_logp {RNG} l.
Arguments b_state {RNG} l.
Arguments LoopS {RNG} s_chain s_current_logp s_state.
Arguments s_chain {RNG} l.
Arguments s_current_logp {RNG} l.
Arguments s_state {RNG} l.
Arguments initA {RNG} n t.
Arguments converged {RNG} key_j step_size_j l.
Arguments initB {RNG} logp np_sqrt n keys t.

(** The ancestry depths of the variables of [order], in that order. *)
Definition depths_in_order (ancestries : gmap string nat) (order : list string)
  : list nat :=
  omap (fun key => ancestries !! key) order.

(** ** The step-size table of the specification

    The table of section 4.2 of the specification, row by row, in the
    specification's words: the multiplier documented for acceptance fraction
    [a], when a row covers [a].  It is compared with [adjust_step_size], the
    table the code applies. *)
Definition spec_table_multiplier (a : Q) : option Q :=
  if Qle_bool a 0.01 then Some (1 / 5.0)
  else if Qlt_bool 0.01 a && Qle_bool a 0.05 then Some (1 / 2.0)
  else if Qlt_bool 0.05 a && Qle_bool a 0.10 then Some (1 / 1.5)
  else if Qlt_bool 0.10 a && Qle_bool a 0.15 then Some (1 / 1.2)
  else if Qlt_bool 0.15 a && Qlt_bool a 0.20 then Some (1 / 1.1)
  else if Qlt_bool 0.20 a && Qlt_bool a 0.25 then Some (1 / 1.01)
  else if Qle_bool 0.25 a && Qle_bool a 0.35 then Some 1
  else if Qlt_bool 0.35 a && Qle_bool a 0.40 then Some 1.01
  else if Qlt_bool 0.40 a && Qle_bool a 0.45 then Some 1.1
  else if Qlt_bool 0.45 a && Qle_bool a 0.50 then Some 1.2
  else if Qlt_bool 0.50 a && Qle_bool a 0.55 then Some 1.5
  else if Qlt_bool 0.55 a && Qle_bool a 0.60 then Some 2.0
  else if Qlt_bool 0.60 a then Some 5.0
  else None.

(** At acceptance fraction [a] the code applies a multiplier the table
    documents for [a]. *)
Definition selects_documented_multiplier (a : Q) : Prop :=
  exists f, spec_table_multiplier a = Some f /\
            forall step, adjust_step_size a step == step * f.

(** ** A small model to run the code on

    One free variable [x] with log-probability [-x^2/2].  The random
    generator is a tape of numbers: a Gaussian draw is [mu + sigma * u] and a
    uniform draw is [u] for the next [u] on the tape. *)
Module Demo.

Definition tape_normal (mu sigma : Q) (g : list Q) : Q * list Q :=
  (mu + sigma * hd 0 g, tl g).

Definition tape_random (g : list Q) : Q * list Q := (hd 0 g, tl g).

(** A stand-in for [np.exp] on [beta <= 0]: 1 at 0, falling towards 0. *)
Definition exp_approx (b : Q) : Q := 1 / (1 - b + b * b / 2).

(** A stand-in for [np.sqrt], exact on 0 and 1. *)
Definition sqrt_poly (x : Q) : Q := (x + x) / (1 + x).

Definition logp_x (vals : gmap string Q) : Q :=
  - (1#2) * (getitem vals "x" * getitem vals "x").

Definition sample_x :=
  sample (list Q) tape_normal tape_random exp_approx logp_x sqrt_poly.

Definition pre_tune_x :=
  pre_tune (list Q) tape_normal tape_random exp_approx logp_x sqrt_poly.

(** The spec's chain [A -> B -> C]; [A] has constant parents only. *)
Definition A : pyobj := Stoch "A" [("lower", Other 0); ("upper", Other 1)].
Definition B : pyobj := Stoch "B" [("mu", A); ("sigma", Other 1)].
Definition C : pyobj := Stoch "C" [("mu", B); ("sigma", Other 1)].

(** [keys()] of [{'A': A, 'B': B, 'C': C}] as CPython 2.7 lists them. *)
Definition free_ABC : list (string * pyobj) := [("A", A); ("C", C); ("B", B)].

(** Two parents that both name one of their own parents [mu]. *)
Definition D : pyobj := Stoch "D" [("x", Other 0)].
Definition P : pyobj := Stoch "P" [("mu", D)].
Definition R : pyobj := Stoch "R" [("mu", Other 0)].
Definition T : pyobj := Stoch "T" [("a", P); ("b", R)].

(** A free variable without parents, and a child of it. *)
Definition E : pyobj := Stoch "E" [].
Definition F : pyobj := Stoch "F" [("mu", E); ("sigma", Other 1)].

(** A standard normal [x] with step size 1, started at 0. *)
Definition keys_x : list string := ["x"].
Definition vals_x : gmap string Q := {["x" := 0]}.
Definition steps_x : gmap string Q := {["x" := 1]}.

(** An interval of five turns on the tape: a step of one step size that is
    accepted, then four steps of ten step sizes that are rejected. *)
Definition interval_tape : list Q :=
  [1; 0; 10; 0.99; 10; 0.99; 10; 0.99; 10; 0.99].

Definition tape_25 : list Q :=
  interval_tape ++ interval_tape ++ interval_tape ++ interval_tape
    ++ interval_tape.

Definition tuner_x (g : list Q) : tuner (list Q) :=
  Tuner vals_x steps_x vals_x g.

Definition turnA_x (m n : nat) :=
  phaseA_turn (list Q) tape_normal tape_random exp_approx logp_x m n
    keys_x vals_x "x".

Definition tuneA_x (m n : nat) :=
  tune_parameter (list Q) tape_normal tape_random exp_approx logp_x m n
    keys_x vals_x.

Definition turnB_x (m n : nat) :=
  phaseB_turn (list Q) tape_normal tape_random exp_approx logp_x m n
    keys_x vals_x.

(** [random()] of every variable: the next number on the tape. *)
Definition prior_draw (key : string) (vals : gmap string Q) (g : list Q)
  : Q * list Q :=
  (hd 0 g, tl g).

End Demo.

(** ** The acceptance rule on all floats

    A log-probability is a float: finite, infinite ([-inf] is what a prior
    returns outside its support) or NaN.  The finite ones are rationals as
    before, and arithmetic on them is exact: rounding and overflow are not
    modelled.  On the others subtraction, comparison and [np.exp] are those
    of IEEE 754, which Python and numpy follow. *)
Module IEEE.

Inductive float : Type :=
| Finite (q : Q)
| PosInf
| NegInf
| NaN.

(** [a - b] *)
Definition sub (a b : float) : float :=
  match a, b with
  | NaN, _ | _, NaN => NaN
  | Finite x, Finite y => Finite (x - y)
  | Finite _, PosInf => NegInf
  | Finite _, NegInf => PosInf
  | PosInf, PosInf => NaN          (* inf - inf *)
  | PosInf, _ => PosInf
  | NegInf, NegInf => NaN          (* -inf - -inf *)
  | NegInf, _ => NegInf
  end.

(** [a > b]: false as soon as one side is NaN. *)
Definition gt (a b : float) : bool :=
  match a, b with
  | NaN, _ | _, NaN => false
  | Finite x, Finite y => Qlt_bool y x
  | PosInf, PosInf => false
  | PosInf, _ => true
  | Finite _, NegInf => true
  | _, _ => false
  end.

(** [a <= b]: false as soon as one side is NaN. *)
Definition le (a b : float) : bool :=
  match a, b with
  | NaN, _ | _, NaN => false
  | Finite x, Finite y => Qle_bool x y
  | NegInf, _ => true
  | _, PosInf => true
  | _, _ => false
  end.

(** [a == b]: an infinity equals itself, NaN equals nothing. *)
Definition eq (a b : float) : bool :=
  match a, b with
  | Finite x, Finite y => Qeq_bool x y
  | PosInf, PosInf => true
  | NegInf, NegInf => true
  | _, _ => false
  end.

(** [np.exp], given on the finite floats by [np_exp]. *)
Definition exp (np_exp : Q -> Q) (a : float) : float :=
  match a with
  | Finite x => Finite (np_exp x)
  | PosInf => PosInf
  | NegInf => Finite 0
  | NaN => NaN
  end.

(** [MetropolisHastings.decide]; [np.random.random()] returns a finite
    float. *)
Definition decide {RNG : Type} (np_random : RNG -> Q * RNG) (np_exp : Q -> Q)
    (current_logp new_logp : float) (g : RNG) : bool * RNG :=
  let beta := sub new_logp current_logp in
  if gt beta (Finite 0) then (true, g)
  else
    let alpha := exp np_exp beta in
    let '(z, g') := np_random g in
    if le (Finite z) alpha then (true, g') else (false, g').

End IEEE.

(** ** The main loop of [sample], step by step *)

(** The log-probability step [i] starts from: that of the values [sample]
    was called with for [i = 0], the entry of the series [logp] at [i - 1]
    otherwise. *)
Definition previous_logp (chain : gmap string (list Q)) (logp_0 : Q) (i : nat)
  : option Q :=
  match i with
  | O => Some logp_0
  | S j => recorded chain "logp" j
  end.

(** Two states of the model that hold the same numbers: entry by entry
    the values are equal as floats ([==]). *)
Definition same_values (v w : gmap string Q) : Prop :=
  forall name, option_Forall2 Qeq (v !! name) (w !! name).

Section SampleSteps.

Variable RNG : Type.
Variable proposal_distribution : Q -> Q -> RNG -> Q * RNG.
Variable np_random : RNG -> Q * RNG.
Variable np_exp : Q -> Q.
Variable logp : gmap string Q -> Q.
Variable np_sqrt : Q -> Q.

(** Lines 33-62 of [sample], for a step method with step sizes [ss]: the
    state the main loop starts in. *)
Definition sample_start (ss : gmap string Q) (keys : list string)
    (vals : gmap string Q) (g : RNG) (nsteps : nat)
    (ntune_iterlim tune_interval : option nat) : result (loopS RNG) :=
  let chain := init_chain keys nsteps in
  let current_values := assign_all keys vals ∅ in
  let current_logp := logp vals in
  do t <-
    (match ntune_iterlim, tune_interval with
     | Some m, Some n =>
         pre_tune RNG proposal_distribution np_random np_exp logp np_sqrt
           m n keys vals ss g
     | _, _ => Ok (Tuner vals ss current_values g)
     end);
  Ok (LoopS chain current_logp
        (Tuner (values t) (step_sizes t) current_values (rng t))).

(** Lines 33-84 up to step [i] of the main loop: the state step [i]
    begins in. *)
Definition sample_head (ss : gmap string Q) (keys : list string)
    (vals : gmap string Q) (g : RNG) (nsteps : nat)
    (ntune_iterlim tune_interval : option nat) (i : nat)
  : result (loopS RNG) :=
  do l0 <- sample_start ss keys vals g nsteps ntune_iterlim tune_interval;
  for_each (sample_step RNG proposal_distribution np_random np_exp logp keys)
    (seq 0 i) l0.

End SampleSteps.

(** ** [pre_tune] and [sample] on the arguments a caller passes

    [nsteps], [ntune_iterlim] and [tune_interval] are Python ints of either
    sign; [tune_interval] is [None] unless it is passed, and so is
    [ntune_iterlim] in [sample].  [np.zeros( n )] raises [ValueError] for a
    negative [n], makes an array without axes for [n = None] (numpy as
    Python 2 has it) and an array of length [n] otherwise: memory has no
    end. *)

(** Exceptions of the interpreter that [exn] does not have: reading a
    local variable that was never assigned, and an operator applied to
    [None]. *)
Inductive exn_arg : Type :=
| UnboundLocalError (name : string)
| TypeError_NoneType (op : string).

Definition negative_dimensions : exn :=
  ValueError "negative dimensions are not allowed".

Section PythonArguments.

Variable RNG : Type.
Variable proposal_distribution : Q -> Q -> RNG -> Q * RNG.
Variable np_random : RNG -> Q * RNG.
Variable np_exp : Q -> Q.
Variable logp : gmap string Q -> Q.
Variable np_sqrt : Q -> Q.

(** [MetropolisHastings.pre_tune] with [m = ntune_iterlim] and
    [n = tune_interval] as they are passed.
    - A negative [n]: the first [np.zeros( n )], at line 85 or - without
      free variables - at line 207, raises.
    - A negative [m]: [i<m+1] is false at [i = 0], no [while] loop takes a
      turn and nothing raises until line 294 reads [accfrac], which only a
      turn of the second loop assigns (line 262).
    - [n = None] and [m >= 0]: the first turn of the first loop that runs -
      the one of [keys[0]], or the second loop when there is no free
      variable - looks up the step size (line 105), raises at [i==m] when
      [m = 0] (lines 114-117, 219-222) and comes to [i%n] otherwise (lines
      121, 226).
    - Otherwise [m] and [n] are natural numbers. *)
Definition pre_tune_py (ntune_iterlim : Z) (tune_interval : option Z)
    (keys : list string) (vals ss : gmap string Q) (g : RNG)
  : exn_arg + result (tuner RNG) :=
  let m := ntune_iterlim in
  match tune_interval with
  | Some n =>
      if (n <? 0)%Z then inr (Raise negative_dimensions)
      else if (m <? 0)%Z then inl (UnboundLocalError "accfrac")
      else
        inr (pre_tune RNG proposal_distribution np_random np_exp logp np_sqrt
               (Z.to_nat m) (Z.to_nat n) keys vals ss g)
  | None =>
      if (m <? 0)%Z then inl (UnboundLocalError "accfrac")
      else
        match keys with
        | key_j :: _ =>
            match ss !! key_j with
            | None => inr (Raise (KeyError key_j))
            | Some _ =>
                if (m =? 0)%Z then inr (Raise (StandardError (err_str 0)))
                else inl (TypeError_NoneType "%")
            end
        | [] =>
            if (m =? 0)%Z then inr (Raise (StandardError (err_str 0)))
            else inl (TypeError_NoneType "%")
        end
  end.

(** [Utils.sample] with [nsteps], [ntune_iterlim] and [tune_interval] as
    they are passed: [sample] line by line, with [np.zeros( nsteps )] of
    line 34 and the call of line 58 on Python ints. *)
Definition sample_py (step_method : option (gmap string Q))
    (keys : list string) (vals : gmap string Q) (g : RNG) (nsteps : Z)
    (ntune_iterlim tune_interval : option Z)
  : exn_arg + result (gmap string (list Q) * tuner RNG) :=
  match step_method with
  | None =>
      inr (Raise (StandardError "Step method must be assigned before sampling can begin"))
  | Some ss =>
      if (nsteps <? 0)%Z then inr (Raise negative_dimensions)
      else
        let chain := init_chain keys (Z.to_nat nsteps) in
        let current_values := assign_all keys vals ∅ in
        let current_logp := logp vals in
        let tuned :=
          match ntune_iterlim, tune_interval with
          | Some m, Some n => pre_tune_py m (Some n) keys vals ss g
          | _, _ => inr (Ok (Tuner vals ss current_values g))
          end in
        match tuned with
        | inl e => inl e
        | inr tuned =>
            inr (do t <- tuned;
                 do l <-
                   for_each
                     (sample_step RNG proposal_distribution np_random np_exp
                        logp keys)
                     (seq 0 (Z.to_nat nsteps))
                     (LoopS chain current_logp
                        (Tuner (values t) (step_sizes t) current_values (rng t)));
                 Ok (s_chain l, s_state l))
        end
  end.

End PythonArguments.

(** ** Constructing the step method ([MetropolisHastings.__init__],
    [Utils.assign_step_method]) *)

Section Init.

Variable RNG : Type.
(** [Utils.gaussian_random_draw( mu, sigma )], that is
    [np.random.normal( mu, sigma )]. *)
Variable gaussian_random_draw : Q -> Q -> RNG -> Q * RNG.
Variable np_random : RNG -> Q * RNG.
Variable np_exp : Q -> Q.
Variable logp : gmap string Q -> Q.
Variable np_sqrt : Q -> Q.

(** The attributes of a [MetropolisHastings] object. *)
Record MetropolisHastings : Type := {
  self_proposal_distribution : Q -> Q -> RNG -> Q * RNG;
  self_step_sizes : gmap string Q
}.

(** [MetropolisHastings.__init__]; both arguments default to [None]. *)
Definition MetropolisHastings_init
    (proposal_distribution : option (Q -> Q -> RNG -> Q * RNG))
    (step_sizes : option (gmap string Q)) : MetropolisHastings :=
  {| self_proposal_distribution :=
       match proposal_distribution with
       | None => gaussian_random_draw
       | Some p => p
       end;
     self_step_sizes :=
       match step_sizes with
       | None => ∅
       | Some ss => ss
       end |}.

(** [assign_step_method( mcmc, MetropolisHastings, **kwargs )]: the new
    value of [mcmc.step_method]; a keyword that is not passed is [None]. *)
Definition assign_step_method
    (proposal_distribution : option (Q -> Q -> RNG -> Q * RNG))
    (step_sizes : option (gmap string Q)) : option MetropolisHastings :=
  Some (MetropolisHastings_init proposal_distribution step_sizes).

(** [Utils.sample] on a sampler whose attribute [step_method] is [None] or
    an object made by [__init__]. *)
Definition sample_with (step_method : option MetropolisHastings)
    (keys : list string) (vals : gmap string Q) (g : RNG) (nsteps : nat)
    (ntune_iterlim tune_interval : option nat)
  : result (gmap string (list Q) * tuner RNG) :=
  match step_method with
  | None =>
      sample RNG gaussian_random_draw np_random np_exp logp np_sqrt
        None keys vals g nsteps ntune_iterlim tune_interval
  | Some self =>
      sample RNG (self_proposal_distribution self) np_random np_exp logp np_sqrt
        (Some (self_step_sizes self)) keys vals g nsteps
        ntune_iterlim tune_interval
  end.

End Init.

Arguments self_proposal_distribution {RNG} m.
Arguments self_step_sizes {RNG} m.

(** ** Models the ancestry resolver is exact on *)

(** Every variable on a level of the walk, and on the levels above it, has
    a non-empty [parents] dict. *)
Inductive with_parents : list (string * pyobj) -> Prop :=
| with_parents_level ps :
    ps <> [] ->
    (forall k name pps, (k, Stoch name pps) ∈ ps -> with_parents pps) ->
    with_parents ps.

(** A single lineage: a [parents] dict (its keys are distinct) that holds
    constants only, or constants and one stochastic variable whose own
    [parents] are a single lineage again. *)
Inductive single_lineage : list (string * pyobj) -> Prop :=
| single_lineage_base ps :
    ps <> [] ->
    NoDup ps.*1 ->
    Forall (fun e => is_stochastic e.2 = false) ps ->
    single_lineage ps
| single_lineage_step pre k name pps post :
    NoDup (pre ++ (k, Stoch name pps) :: post).*1 ->
    Forall (fun e => is_stochastic e.2 = false) pre ->
    Forall (fun e => is_stochastic e.2 = false) post ->
    single_lineage pps ->
    single_lineage (pre ++ (k, Stoch name pps) :: post).

(** ** Dicts and the order of their keys

    The functions below take whole dicts and loop over [d.keys()].  A dict
    is a [gmap]; [d.keys()] lists every key of [d] once, in an order that
    CPython fixes and the model leaves open. *)
Class KeyOrder : Type :=
  dict_keys : forall V : Type, gmap string V -> list string.
Arguments dict_keys {KeyOrder V} d.

Definition key_order_laws `{KeyOrder} : Prop :=
  forall (V : Type) (d : gmap string V),
    NoDup (dict_keys d) /\ forall k, k ∈ dict_keys d <-> is_Some (d !! k).

(** One such order: the one [gmap] lists its keys in. *)
Definition map_order : KeyOrder := fun V d => (map_to_list d).*1.

(** [(key, d[key])] for [key] in [d.keys()]. *)
Definition dict_items `{KeyOrder} {V : Type} (d : gmap string V)
  : list (string * V) :=
  omap (fun key => pair key <$> d !! key) (dict_keys d).

(** ** Attributes from a dict ([Utils.update_attributes]) *)

(** [setattr( object, k, v )]: the object afterwards, or [None] when it
    raises.  An object is the dict of what [hasattr] finds on it; [setattr]
    stores the attribute, or raises and leaves the object as it was - an
    object with [__slots__], or with a [__setattr__] of its own - and
    [refused k v] tells which. *)
Definition setattr {V : Type} (refused : string -> V -> bool)
    (object : gmap string V) (k : string) (v : V) : option (gmap string V) :=
  if refused k v then None else Some (<[k := v]> object).

(** [update_attributes( object, dictionary )]: the attributes of [object]
    afterwards. *)
Definition update_attributes `{KeyOrder} {V : Type}
    (refused : string -> V -> bool) (object dictionary : gmap string V)
  : gmap string V :=
  foldl (fun obj e =>
           match obj !! e.1 with          (* hasattr( object, k ) *)
           | Some _ => obj
           | None =>
               match setattr refused obj e.1 e.2 with
               | Some obj' => obj'
               | None => obj              (* except: pass *)
               end
           end)
    object (dict_items dictionary).

(** ** Sorting the objects of a model ([Utils.identify_stochastics],
    [observed_stochastics], [unobserved_stochastics]) *)

(** What the functions of [Utils] read of a [Stoch]. *)
Record stoch : Type := {
  stoch_name : string;
  stoch_observed : bool;
  stoch_value : Q
}.

(** An object of a model: a [Stoch] ([is_stochastic] is [True]), or an
    object without the attribute [is_stochastic]. *)
Inductive model_obj : Type :=
| Obj_other (c : Q)
| Obj_stoch (s : stoch).

Definition identify_stochastics `{KeyOrder} (dictionary : gmap string model_obj)
  : gmap string stoch :=
  foldl (fun stochastics e =>
           match e.2 with
           | Obj_stoch s => <[e.1 := s]> stochastics
           | Obj_other _ => stochastics     (* except: continue *)
           end)
    ∅ (dict_items dictionary).

Definition observed_stochastics `{KeyOrder} (stochastics : gmap string model_obj)
  : gmap string stoch :=
  let true_stochastics := identify_stochastics stochastics in
  foldl (fun observed_stochastics e =>
           if stoch_observed e.2 then <[e.1 := e.2]> observed_stochastics
           else observed_stochastics)
    ∅ (dict_items true_stochastics).

Definition unobserved_stochastics `{KeyOrder}
    (stochastics : gmap string model_obj) : gmap string stoch :=
  let true_stochastics := identify_stochastics stochastics in
  foldl (fun unobserved_stochastics e =>
           if negb (stoch_observed e.2) then <[e.1 := e.2]> unobserved_stochastics
           else unobserved_stochastics)
    ∅ (dict_items true_stochastics).

(** ** Names of the variables ([Utils.check_model_stochastics_names]) *)

(** [np.unique] on an array of strings: its distinct elements, sorted. *)
Definition np_unique (names : list string) : list string :=
  merge_sort (fun x y => Is_true (String.leb x y)) (remove_dups names).

Definition check_model_stochastics_names `{KeyOrder}
    (stochastics : gmap string stoch) : result unit :=
  let nstoch := size stochastics in
  let names := (fun e => stoch_name e.2) <$> dict_items stochastics in
  let unique_names := np_unique names in
  if negb (nstoch =? length unique_names)%nat then
    Raise (ValueError "Model variables do not all have unique names")
  else Ok tt.

(** ** Combining chains ([Utils.combine_chains]) *)

(** [i%thin] on an integer array: numpy gives 0 for [thin = 0] (and
    warns). *)
Definition np_mod (i thin : nat) : nat :=
  match thin with
  | O => O
  | S _ => (i mod thin)%nat
  end.

(** [np.arange( n )%thin==0] *)
Definition thin_mask (n thin : nat) : list bool :=
  (fun i => (np_mod i thin =? 0)%nat) <$> seq 0 n.

(** [chain[ixs]] for a boolean array [ixs] as long as [chain]. *)
Fixpoint mask_select {A : Type} (ixs : list bool) (chain : list A) : list A :=
  match ixs, chain with
  | b :: ixs', x :: chain' =>
      if b then x :: mask_select ixs' chain' else mask_select ixs' chain'
  | _, _ => []
  end.

(** Lines 403-406 for one chain: a series is a one-dimensional array, as
    [sample] records them for scalar variables; [nburn] and [thin] are
    natural numbers. *)
Definition burn_and_thin (nburn thin : nat) (series : list Q) : list Q :=
  let chain := drop nburn series in
  let n := length chain in
  let ixs := thin_mask n thin in
  mask_select ixs chain.

(** Lines 401-406: the pieces of [combined[key]], one per chain. *)
Fixpoint combine_key (chain_list : list (gmap string (list Q)))
    (nburn thin : nat) (key : string) : result (list (list Q)) :=
  match chain_list with
  | [] => Ok []
  | chain_i :: chain_list' =>
      match chain_i !! key with
      | None => Raise (KeyError key)
      | Some series =>
          do pieces <- combine_key chain_list' nburn thin key;
          Ok (burn_and_thin nburn thin series :: pieces)
      end
  end.

(** Exceptions [exn] does not have: [chain_list[0]] on an empty list
    raises [IndexError], a call that leaves out a required argument raises
    [TypeError]. *)
Inductive exn_more : Type :=
| IndexError
| TypeError.

Definition combine_chains `{KeyOrder} (chain_list : list (gmap string (list Q)))
    (nburn thin : nat) : exn_more + result (gmap string (list Q)) :=
  match chain_list with
  | [] => inl IndexError
  | chain_0 :: _ =>
      let keys := dict_keys chain_0 in
      inr (for_each
             (fun key combined =>
                do pieces <- combine_key chain_list nburn thin key;
                Ok (<[key := concat pieces]> combined))   (* np.concatenate *)
             keys ∅)
  end.

(** ** The decorator [stochastic] ([InstantiationDecorators.py]) *)

Section Decorator.

(** The types of [logp] functions, of [random] functions, of the values
    that argument defaults hold, and of [dtype]. *)
Variables L R V D : Type.

(** What the decorator reads of the function it decorates: its
    [__name__]; the local variables [logp] and [random] of its frame when
    it returns ([None] when it defines none; the body defines functions and
    nothing else); and [args] and [defaults] of [inspect.getargspec],
    [defaults] already [[]] where [getargspec] gives [None].  An argument
    has a default exactly when it is among the last [len( defaults )]. *)
Record pyfunc : Type := {
  func_name : string;
  func_logp : option L;
  func_random : option R;
  func_args : list string;
  func_defaults : list V
}.

(** The dict [instantiate_stochastic] hands to [ModelObjs.Stoch]. *)
Record stoch_dictionary : Type := {
  dictionary_name : string;
  dictionary_observed : bool;
  dictionary_dtype : D;
  dictionary_logp : option L;
  dictionary_random : option R;
  dictionary_value : option V;
  dictionary_parents : gmap string V
}.

(** Lines 110-111: [for i in range( n ): parents[args[i]] = defaults[i]]. *)
Definition collect_defaults (args : list string) (defaults : list V) (n : nat)
  : gmap string V :=
  foldl (fun parents i =>
           match args !! i, defaults !! i with
           | Some arg, Some x => <[arg := x]> parents
           | _, _ => parents      (* out of reach: [i] is below both lengths *)
           end)
    ∅ (seq 0 n).

(** [stochastic( func, observed, dtype )], that is
    [instantiate_stochastic( func )]; [observed] is [True] or [False]. *)
Definition instantiate_stochastic (observed : bool) (dtype : D) (func : pyfunc)
  : exn_more + result stoch_dictionary :=
  (* line 75, [func()]: no argument is passed *)
  if (length (func_defaults func) <? length (func_args func))%nat then
    inl TypeError
  else
    match func_logp func with
    | None =>
        inr (Raise (ValueError
               ((newline +:+ "Stochastic ") +:+ func_name func
                  +:+ " logp not defined")))
    | Some _ =>
        (* ( dictionary['random']!=None )*( dictionary['observed']==True ) *)
        if (if func_random func is Some _ then true else false) && observed then
          inr (Raise (ValueError
                 ((newline +:+ "Can't have random function defined for Stochastic ")
                    +:+ func_name func
                    +:+ "because 'observed' is set to True")))
        else
          let args := func_args func in
          let defaults := func_defaults func in
          let value_included :=
            if bool_decide ("value" ∈ args) then 1%nat else 0%nat in
          let nparents := (length args - value_included)%nat in
          (* arg_deficit>0 *)
          if (length defaults <? nparents + value_included)%nat then
            inr (Raise (ValueError
                   ("Stochastic " +:+ func_name func
                      +:+ " value and/or parents not defined properly")))
          else
            let parents :=
              collect_defaults args defaults (nparents + value_included) in
            inr (Ok {| dictionary_name := func_name func;
                       dictionary_observed := observed;
                       dictionary_dtype := dtype;
                       dictionary_logp := func_logp func;
                       dictionary_random := func_random func;
                       dictionary_value := parents !! "value";
                       dictionary_parents := delete "value" parents |})
    end.

End Decorator.

Arguments func_name {L R V} p.
Arguments func_logp {L R V} p.
Arguments func_random {L R V} p.
Arguments func_args {L R V} p.
Arguments func_defaults {L R V} p.
Arguments dictionary_name {L R V D} s.
Arguments dictionary_observed {L R V D} s.
Arguments dictionary_dtype {L R V D} s.
Arguments dictionary_logp {L R V D} s.
Arguments dictionary_random {L R V D} s.
Arguments dictionary_value {L R V D} s.
Arguments dictionary_parents {L R V D} s.
Arguments instantiate_stochastic {L R V D} observed dtype func.

(** ** More small models to run the code on *)

Module Cases.

(** A tape on which [pre_tune] converges for [x] with intervals of five
    turns: five intervals of phase A, then five of phase B, each with one
    acceptance.  The first proposal of phase B goes uphill and uses no
    uniform draw. *)
Definition tape_tuning : list Q :=
  Demo.tape_25
    ++ [1; 10; 0.99; 10; 0.99; 10; 0.99; 10; 0.99]
    ++ Demo.interval_tape ++ Demo.interval_tape ++ Demo.interval_tape
    ++ Demo.interval_tape.

(** Three steps on [x]: accepted, rejected, accepted. *)
Definition tape_three : list Q := [1; 1#2; 3; 9#10; 0; 0].

(** Two chains of five samples of [x]. *)
Definition chain_a : gmap string (list Q) :=
  {[ "x" := [10; 11; 12; 13; 14]; "accepted" := [1; 0; 1; 0; 1] ]}.
Definition chain_b : gmap string (list Q) :=
  {[ "x" := [20; 21; 22; 23; 24]; "accepted" := [0; 0; 1; 0; 0] ]}.

(** A model with two variables called [x], one of them observed, and a
    constant. *)
Definition stoch_x : stoch :=
  {| stoch_name := "x"; stoch_observed := false; stoch_value := 0 |}.
Definition stoch_y : stoch :=
  {| stoch_name := "x"; stoch_observed := true; stoch_value := 1 |}.
Definition objects : gmap string model_obj :=
  {[ "x" := Obj_stoch stoch_x; "y" := Obj_stoch stoch_y; "c" := Obj_other 2 ]}.

End Cases.

(** * Properties *)

(** ** Numbers *)

Lemma Qlt_bool_iff (x y : Q) : Qlt_bool x y = true <-> x < y.
Proof.
  unfold Qlt_bool. rewrite negb_true_iff. split.
  - intros H. apply Qnot_le_lt. intros Hle.
    apply Qle_bool_iff in Hle. congruence.
  - intros H. destruct (Qle_bool y x) eqn:E; [|reflexivity].
    apply Qle_bool_iff in E. exfalso. exact (Qlt_not_le _ _ H E).
Qed.

Lemma Qlt_bool_false (x y : Q) : Qlt_bool x y = false <-> ~ x < y.
Proof.
  rewrite <- Qlt_bool_iff. destruct (Qlt_bool x y); split; congruence.
Qed.

Lemma Qle_bool_false (x y : Q) : Qle_bool x y = false <-> ~ x <= y.
Proof.
  rewrite <- Qle_bool_iff. destruct (Qle_bool x y); split; congruence.
Qed.

(** ** Loops *)

Section LoopFacts.

Context {St : Type} (body : St -> outcome St).

Lemma while_loop_break (k turns : nat) (s l l' : St) :
  reaches body k s l -> body l = Break l' -> (k < turns)%nat ->
  while_loop body turns s = Ok l'.
Proof.
  intros Hr. revert turns.
  induction Hr as [s|k s s1 s' Hs _ IH]; intros turns Hb Hk.
  - destruct turns; [lia|]. simpl. now rewrite Hb.
  - destruct turns; [lia|]. simpl. rewrite Hs. apply IH; [assumption|lia].
Qed.

Lemma while_loop_raise (k turns : nat) (s l : St) (e : exn) :
  reaches body k s l -> body l = Raised e -> (k < turns)%nat ->
  while_loop body turns s = Raise e.
Proof.
  intros Hr. revert turns.
  induction Hr as [s|k s s1 s' Hs _ IH]; intros turns Hb Hk.
  - destruct turns; [lia|]. simpl. now rewrite Hb.
  - destruct turns; [lia|]. simpl. rewrite Hs. apply IH; [assumption|lia].
Qed.

Lemma run_turns_reaches (k : nat) (s s' : St) :
  run_turns body k s = Some s' -> reaches body k s s'.
Proof.
  revert s. induction k as [|k IH]; intros s H; simpl in H.
  - inversion H; subst. constructor.
  - destruct (body s) as [s1|s1|e] eqn:E; try discriminate.
    econstructor; eauto.
Qed.

(** A loop that ends normally has left through [break], or has used all
    its turns. *)
Lemma while_loop_ok (turns : nat) (s s' : St) :
  while_loop body turns s = Ok s' ->
  (exists k l, (k < turns)%nat /\ reaches body k s l /\ body l = Break s') \/
  reaches body turns s s'.
Proof.
  revert s. induction turns as [|turns IH]; intros s H; simpl in H.
  - inversion H; subst. right. constructor.
  - destruct (body s) as [s1|s1|e] eqn:E; [| |discriminate H].
    + destruct (IH s1 H) as [(k & l & Hk & Hr & Hb)|Hr].
      * left. exists (S k), l. split; [lia|]. split; [|done].
        econstructor; eauto.
      * right. econstructor; eauto.
    + inversion H; subst. left. exists 0%nat, s. split; [lia|].
      split; [constructor | done].
Qed.

(** A property every turn keeps holds when the loop ends normally. *)
Lemma while_loop_invariant (Inv : St -> Prop) :
  (forall s s', Inv s -> body s = Continue s' -> Inv s') ->
  (forall s s', Inv s -> body s = Break s' -> Inv s') ->
  forall turns s s', Inv s -> while_loop body turns s = Ok s' -> Inv s'.
Proof.
  intros Hc Hb turns. induction turns as [|turns IH]; intros s s' Hs H.
  - simpl in H. now inversion H; subst.
  - simpl in H. destruct (body s) as [s1|s1|e] eqn:E.
    + eapply IH; [|exact H]. eauto.
    + inversion H; subst. eauto.
    + discriminate H.
Qed.

End LoopFacts.

Lemma for_each_invariant {A St : Type} (body : A -> St -> result St)
    (Inv : St -> Prop) :
  (forall x s s', Inv s -> body x s = Ok s' -> Inv s') ->
  forall xs s s', Inv s -> for_each body xs s = Ok s' -> Inv s'.
Proof.
  intros Hb xs. induction xs as [|x xs IH]; intros s s' Hs H; simpl in H.
  - now inversion H; subst.
  - destruct (body x s) as [s1|e] eqn:E; simpl in H; [|discriminate H].
    eapply IH; [|exact H]. eauto.
Qed.

Lemma for_each_app {A St : Type} (body : A -> St -> result St)
    (xs ys : list A) (s : St) :
  for_each body (xs ++ ys) s = do s' <- for_each body xs s; for_each body ys s'.
Proof.
  revert s. induction xs as [|x xs IH]; intros s; simpl; [reflexivity|].
  destruct (body x s); simpl; [apply IH | reflexivity].
Qed.

(** ** The acceptance rule *)

Section DecideFacts.

Context {RNG : Type} (np_random : RNG -> Q * RNG) (np_exp : Q -> Q).

Lemma decide_uphill (current_logp new_logp : Q) (g : RNG) :
  0 < new_logp - current_logp ->
  decide np_random np_exp current_logp new_logp g = (true, g).
Proof.
  intros H. unfold decide.
  apply Qlt_bool_iff in H. now rewrite H.
Qed.

Lemma decide_downhill (current_logp new_logp : Q) (g : RNG) :
  ~ 0 < new_logp - current_logp ->
  decide np_random np_exp current_logp new_logp g =
    (Qle_bool (fst (np_random g)) (np_exp (new_logp - current_logp)),
     snd (np_random g)).
Proof.
  intros H. unfold decide.
  apply Qlt_bool_false in H. rewrite H.
  destruct (np_random g) as [z g']. simpl.
  now destruct (Qle_bool z _).
Qed.

(** On finite log-probabilities [decide] accepts without drawing when
    [beta = new_logp - current_logp > 0]; otherwise it draws [z] and
    accepts exactly when [z <= exp( beta )].  With [exp( 0 ) = 1] and a
    draw [z < 1], equal finite log-probabilities are always accepted. *)
Lemma decide_finite (current_logp new_logp : Q) (g : RNG) :
  let beta := new_logp - current_logp in
  let z := fst (np_random g) in
  (0 < beta ->
     decide np_random np_exp current_logp new_logp g = (true, g)) /\
  (~ 0 < beta ->
     snd (decide np_random np_exp current_logp new_logp g) = snd (np_random g) /\
     (fst (decide np_random np_exp current_logp new_logp g) = true <->
        z <= np_exp beta)) /\
  (new_logp == current_logp ->
     (forall b, b == 0 -> np_exp b == 1) ->
     z < 1 ->
     fst (decide np_random np_exp current_logp new_logp g) = true).
Proof.
  intros beta z. split; [apply decide_uphill|]. split.
  - intros H. rewrite (decide_downhill _ _ _ H). simpl.
    split; [reflexivity|]. apply Qle_bool_iff.
  - intros Heq Hexp Hz.
    assert (Hb : beta == 0) by (unfold beta; rewrite Heq; ring).
    assert (Hn : ~ 0 < beta) by (rewrite Hb; apply Qlt_irrefl).
    rewrite (decide_downhill _ _ _ Hn). simpl.
    apply Qle_bool_iff. fold beta. rewrite (Hexp _ Hb).
    apply Qlt_le_weak. exact Hz.
Qed.

End DecideFacts.

Lemma exp_approx_0 (b : Q) : b == 0 -> Demo.exp_approx b == 1.
Proof. intros Hb. unfold Demo.exp_approx. rewrite Hb. reflexivity. Qed.

(** ** The acceptance rule on all floats *)

Section DecideFloatFacts.

Context {RNG : Type} (np_random : RNG -> Q * RNG) (np_exp : Q -> Q).

(** On finite log-probabilities the rule on floats is the rule on
    rationals. *)
Lemma decide_float_finite (x y : Q) (g : RNG) :
  IEEE.decide np_random np_exp (IEEE.Finite x) (IEEE.Finite y) g
  = decide np_random np_exp x y g.
Proof.
  unfold IEEE.decide, decide. cbn [IEEE.sub IEEE.gt IEEE.exp].
  destruct (Qlt_bool 0 (y - x)); [reflexivity|].
  destruct (np_random g) as [z g']. reflexivity.
Qed.

(** The difference of two equal infinities is NaN, and NaN fails both
    comparisons of [decide]. *)
Lemma decide_float_nan (current_logp new_logp : IEEE.float) (g : RNG) :
  IEEE.sub new_logp current_logp = IEEE.NaN ->
  IEEE.decide np_random np_exp current_logp new_logp g
  = (false, snd (np_random g)).
Proof.
  intros Hnan. unfold IEEE.decide. rewrite Hnan. cbn [IEEE.gt IEEE.exp].
  destruct (np_random g) as [z g']. reflexivity.
Qed.

(** The difference of a float and a smaller one is positive. *)
Lemma sub_positive (a b : IEEE.float) :
  IEEE.gt a b = true -> IEEE.gt (IEEE.sub a b) (IEEE.Finite 0) = true.
Proof.
  destruct a as [x| | |], b as [y| | |]; cbn [IEEE.gt IEEE.sub];
    try done.
  intros H. apply Qlt_bool_iff in H. apply Qlt_bool_iff. lra.
Qed.

(** C1, as the code has it.  On every pair of floats [decide] accepts
    without drawing when [beta = new_logp - current_logp > 0], as it is
    when [new_logp > current_logp]; otherwise it draws [z] and accepts
    exactly when [z <= exp( beta )].  On finite log-probabilities it is the
    rule on rationals.  With [exp( 0 ) = 1] and a draw [z < 1], equal
    finite log-probabilities are always accepted; equal infinite ones
    never are, whatever is drawn: [beta] is NaN. *)
Theorem decide_rule (current_logp new_logp : IEEE.float) (g : RNG) :
  let beta := IEEE.sub new_logp current_logp in
  let z := fst (np_random g) in
  (IEEE.gt beta (IEEE.Finite 0) = true ->
     IEEE.decide np_random np_exp current_logp new_logp g = (true, g)) /\
  (IEEE.gt new_logp current_logp = true ->
     IEEE.decide np_random np_exp current_logp new_logp g = (true, g)) /\
  (IEEE.gt beta (IEEE.Finite 0) = false ->
     IEEE.decide np_random np_exp current_logp new_logp g
     = (IEEE.le (IEEE.Finite z) (IEEE.exp np_exp beta), snd (np_random g))) /\
  (forall x y, current_logp = IEEE.Finite x -> new_logp = IEEE.Finite y ->
     (IEEE.gt beta (IEEE.Finite 0) = true <-> 0 < y - x) /\
     (IEEE.le (IEEE.Finite z) (IEEE.exp np_exp beta) = true
      <-> z <= np_exp (y - x)) /\
     IEEE.decide np_random np_exp current_logp new_logp g
     = decide np_random np_exp x y g) /\
  (IEEE.eq new_logp current_logp = true ->
     (exists x, current_logp = IEEE.Finite x) ->
     (forall b, b == 0 -> np_exp b == 1) ->
     z < 1 ->
     fst (IEEE.decide np_random np_exp current_logp new_logp g) = true) /\
  (IEEE.eq new_logp current_logp = true ->
     current_logp = IEEE.PosInf \/ current_logp = IEEE.NegInf ->
     IEEE.decide np_random np_exp current_logp new_logp g
     = (false, snd (np_random g))).
Proof.
  intros beta z. split; [|split; [|split; [|split; [|split]]]].
  - intros Hgt. unfold IEEE.decide. fold beta. by rewrite Hgt.
  - intros Hgt. apply sub_positive in Hgt. unfold IEEE.decide.
    by rewrite Hgt.
  - intros Hgt. unfold IEEE.decide. fold beta. rewrite Hgt. unfold z.
    destruct (np_random g) as [z' g']. cbn [fst snd].
    by destruct (IEEE.le _ _).
  - intros x y -> ->. unfold beta. cbn [IEEE.sub IEEE.gt IEEE.exp IEEE.le].
    split; [apply Qlt_bool_iff|]. split; [apply Qle_bool_iff|].
    apply decide_float_finite.
  - intros Heq [x ->] Hexp Hz.
    destruct new_logp as [y| | |]; cbn [IEEE.eq] in Heq; try discriminate Heq.
    apply Qeq_bool_iff in Heq. rewrite decide_float_finite.
    by apply (decide_finite np_random np_exp x y g).
  - intros Heq Hinf. apply decide_float_nan.
    destruct Hinf as [-> | ->];
      destruct new_logp; cbn [IEEE.eq] in Heq; try discriminate Heq;
      reflexivity.
Qed.

End DecideFloatFacts.

(** Equal finite log-probabilities and the draw [z = 0.9]. *)
Lemma decide_rule_witness :
  fst (Demo.tape_random [9#10]) < 1 /\
  fst (IEEE.decide Demo.tape_random Demo.exp_approx
         (IEEE.Finite (-(1#2))) (IEEE.Finite (-(1#2))) [9#10]) = true.
Proof.
  split; [reflexivity|].
  apply (decide_rule Demo.tape_random Demo.exp_approx
           (IEEE.Finite (-(1#2))) (IEEE.Finite (-(1#2))) [9#10]).
  - reflexivity.
  - by exists (-(1#2)).
  - exact exp_approx_0.
  - reflexivity.
Defined.

(** C1 as stated fails on a pair of log-probabilities: with both at
    [-inf] - a proposal that stays outside the support of a prior -
    [new_logp == current_logp] holds, [exp( 0 ) = 1] and [z < 1] hold, and
    [decide] rejects, because [beta = -inf - -inf] is NaN and neither
    [beta>0] nor [z<=exp( beta )] is true of NaN. *)
Lemma decide_rejects_equal_infinities :
  IEEE.eq IEEE.NegInf IEEE.NegInf = true /\
  IEEE.sub IEEE.NegInf IEEE.NegInf = IEEE.NaN /\
  (forall b, b == 0 -> Demo.exp_approx b == 1) /\
  fst (Demo.tape_random [0]) < 1 /\
  IEEE.decide Demo.tape_random Demo.exp_approx IEEE.NegInf IEEE.NegInf [0]
  = (false, []).
Proof.
  split; [reflexivity|]. split; [reflexivity|].
  split; [exact exp_approx_0|]. split; reflexivity.
Qed.

(** ** The step-size table at its boundaries *)

Lemma Qdiv_as_mult (step c : Q) : step / c == step * (1 / c).
Proof. unfold Qdiv. ring. Qed.

Ltac to_prop :=
  repeat match goal with
  | H : andb _ _ = true |- _ => apply andb_true_iff in H; destruct H
  | H : andb _ _ = false |- _ => apply andb_false_iff in H; destruct H
  | H : Qle_bool _ _ = true |- _ => apply Qle_bool_iff in H
  | H : Qle_bool _ _ = false |- _ => apply Qle_bool_false in H
  | H : Qlt_bool _ _ = true |- _ => apply Qlt_bool_iff in H
  | H : Qlt_bool _ _ = false |- _ => apply Qlt_bool_false in H
  end.

Ltac next_branch :=
  match goal with
  | |- context [if ?b then _ else _] => destruct b eqn:?
  end.

(** Wherever the table of the specification has a row, the code applies the
    multiplier of that row. *)
Lemma step_table_refines (a step f : Q) :
  spec_table_multiplier a = Some f -> adjust_step_size a step == step * f.
Proof.
  unfold spec_table_multiplier, adjust_step_size.
  repeat (next_branch; to_prop; try (exfalso; lra)).
  all: intros Hrow; inversion Hrow; subst; clear Hrow;
    first [apply Qdiv_as_mult | ring | reflexivity].
Qed.

(** The table has a row for every acceptance fraction but 0.2. *)
Lemma step_table_gap (a : Q) : spec_table_multiplier a = None <-> a == 0.2.
Proof.
  unfold spec_table_multiplier. split.
  - repeat (next_branch; to_prop;
            try (intros Hrow; discriminate Hrow); try (exfalso; lra)).
    all: intros _; lra.
  - intros Ha. repeat (next_branch; to_prop; try (exfalso; lra)). reflexivity.
Qed.

(** C4, as the code has it.  At the boundaries 0.01, 0.05, 0.10, 0.15,
    0.25, 0.35, 0.40, 0.45, 0.50, 0.55 and 0.60 the code applies the
    multiplier of the table row that includes the boundary.  No row of the
    table covers 0.20, and there the code leaves the step size as it is. *)
Theorem step_table_boundaries :
  Forall selects_documented_multiplier
    [0.01; 0.05; 0.10; 0.15; 0.25; 0.35; 0.40; 0.45; 0.50; 0.55; 0.60] /\
  spec_table_multiplier 0.20 = None /\
  (forall step, adjust_step_size 0.20 step = step).
Proof.
  split; [|split; [reflexivity|]].
  - repeat (constructor;
      [eexists; split; [vm_compute; reflexivity|]; intros step;
       unfold adjust_step_size; cbv - [Qdiv Qmult Qeq];
       first [apply Qdiv_as_mult | ring] |]).
    constructor.
  - intros step. unfold adjust_step_size. cbv - [Qdiv Qmult]. reflexivity.
Qed.

(** C4 as stated fails at 0.20: the table documents no multiplier for it,
    and the code applies neither of the neighbouring rows. *)
Lemma step_table_boundary_020 :
  ~ selects_documented_multiplier 0.20 /\
  adjust_step_size 0.20 1 == 1 /\
  ~ adjust_step_size 0.20 1 == 1 / 1.1 /\
  ~ adjust_step_size 0.20 1 == 1 / 1.01.
Proof.
  split; [|split; [reflexivity | split; intros H; vm_compute in H; discriminate H]].
  intros [f [Hf _]]. vm_compute in Hf. discriminate Hf.
Qed.

(** ** Phase A of [pre_tune] *)

Lemma successA_iff (a : Q) : successA a = true <-> 0.2 <= a /\ a <= 0.40.
Proof.
  unfold successA. rewrite andb_true_iff, !Qle_bool_iff. reflexivity.
Qed.

Lemma phaseA_order_keys (keys : list string) : phaseA_order keys = keys.
Proof.
  unfold phaseA_order.
  induction keys as [|key keys IH] using rev_ind; [reflexivity|].
  rewrite length_app. simpl length. rewrite Nat.add_1_r, seq_S, omap_app. simpl.
  rewrite lookup_app_r, Nat.sub_diag by lia. simpl. f_equal.
  rewrite <- IH at 2. apply list_omap_ext, Forall_Forall2_diag.
  apply Forall_forall. intros j Hj. apply elem_of_seq in Hj.
  rewrite lookup_app_l by lia. reflexivity.
Qed.

Section PhaseAFacts.

Context {RNG : Type}.
Context (proposal_distribution : Q -> Q -> RNG -> Q * RNG).
Context (np_random : RNG -> Q * RNG) (np_exp : Q -> Q).
Context (logp : gmap string Q -> Q).
Context (m n : nat) (keys : list string) (orig : gmap string Q).

Local Abbreviation turnA :=
  (phaseA_turn RNG proposal_distribution np_random np_exp logp m n keys orig).
Local Abbreviation tuneA :=
  (tune_parameter RNG proposal_distribution np_random np_exp logp m n keys orig).

Lemma phaseA_turn_break (key_j : string) (step_size_j : Q) (l : loopA RNG) :
  step_sizes (a_state l) !! key_j = Some step_size_j ->
  (5 <= a_nsuccess l)%nat ->
  turnA key_j l = Break (converged key_j step_size_j l).
Proof.
  intros Hss Hn. unfold phaseA_turn. rewrite Hss.
  apply Nat.leb_le in Hn. unfold nconsecutive. now rewrite Hn.
Qed.

Lemma phaseA_turn_raise (key_j : string) (l : loopA RNG) :
  is_Some (step_sizes (a_state l) !! key_j) ->
  (a_nsuccess l < 5)%nat -> a_i l = m ->
  turnA key_j l = Raised (StandardError (err_str m)).
Proof.
  intros [sz Hss] Hn Hi. unfold phaseA_turn. rewrite Hss.
  apply Nat.leb_gt in Hn. unfold nconsecutive. rewrite Hn.
  apply Nat.eqb_eq in Hi. now rewrite Hi.
Qed.

(** What a turn that falls through has done to the loop variables. *)
Lemma phaseA_turn_continue (key_j : string) (l l' : loopA RNG) :
  turnA key_j l = Continue l' ->
  a_i l' = S (a_i l) /\ a_i l <> m /\ (a_nsuccess l < 5)%nat /\
  (0 < n)%nat /\
  length (a_accepted l') = length (a_accepted l) /\
  (forall key, is_Some (step_sizes (a_state l) !! key) ->
               is_Some (step_sizes (a_state l') !! key)) /\
  (if (a_i l mod n =? n - 1)%nat then
     let accfrac_j := float_of_nat (np_sum (a_accepted l')) / float_of_nat n in
     a_accfrac l' = accfrac_j /\
     a_nsuccess l' = (if successA accfrac_j then S (a_nsuccess l) else O)
   else a_nsuccess l' = a_nsuccess l /\ a_accfrac l' = a_accfrac l /\
        step_sizes (a_state l') = step_sizes (a_state l)).
Proof.
  unfold phaseA_turn.
  destruct (step_sizes (a_state l) !! key_j) as [sz|] eqn:Hss; [|discriminate].
  destruct (nconsecutive <=? a_nsuccess l)%nat eqn:Hn; [discriminate|].
  destruct (a_i l =? m)%nat eqn:Hi; [discriminate|].
  destruct n as [|n']; [discriminate|].
  destruct (proposal_distribution 0 sz (rng (a_state l))) as [d g].
  destruct (decide np_random np_exp _ _ g) as [dec g'].
  apply Nat.leb_gt in Hn. apply Nat.eqb_neq in Hi. unfold nconsecutive in Hn.
  destruct (a_i l mod S n' =? S n' - 1)%nat eqn:Hk;
    intros H; inversion H; subst; clear H; simpl;
    (split; [reflexivity|]); (split; [assumption|]);
    (split; [assumption|]); (split; [lia|]);
    (split; [apply length_insert|]).
  - split; [|split; reflexivity].
    intros key Hkey. destruct (String.string_dec key_j key) as [->|Hne].
    + rewrite lookup_insert_eq. eauto.
    + now rewrite lookup_insert_ne.
  - split; [tauto|]. repeat split.
Qed.

(** A turn falls through unless the loop has converged, the budget is
    spent or the interval length is zero. *)
Lemma phaseA_turn_progress (key_j : string) (l : loopA RNG) :
  is_Some (step_sizes (a_state l) !! key_j) ->
  (a_nsuccess l < 5)%nat -> a_i l <> m -> (0 < n)%nat ->
  exists l', turnA key_j l = Continue l'.
Proof.
  intros [sz Hss] Hn Hi Hpos. unfold phaseA_turn. rewrite Hss.
  apply Nat.leb_gt in Hn. unfold nconsecutive. rewrite Hn.
  apply Nat.eqb_neq in Hi. rewrite Hi.
  destruct n as [|n']; [lia|].
  destruct (proposal_distribution 0 sz (rng (a_state l))) as [d g].
  destruct (decide np_random np_exp _ _ g) as [dec g'].
  destruct (a_i l mod S n' =? S n' - 1)%nat; eauto.
Qed.

Lemma reaches_phaseA (key_j : string) (k : nat) (l0 l : loopA RNG) :
  reaches (turnA key_j) k l0 l ->
  a_i l = (a_i l0 + k)%nat /\
  ((a_i l0 <= m)%nat -> (a_i l <= m)%nat) /\
  (forall key, is_Some (step_sizes (a_state l0) !! key) ->
               is_Some (step_sizes (a_state l) !! key)).
Proof.
  induction 1 as [s|k s s1 s' Hs _ IH].
  - split; [lia|]. split; auto.
  - apply phaseA_turn_continue in Hs.
    destruct Hs as (Hi & Hm & _ & _ & _ & Hdom & _).
    destruct IH as (IHi & IHm & IHdom).
    split; [lia|]. split; [intros; apply IHm; lia | auto].
Qed.

(** After five successes in a row the loop for [key_j] ends, with the step
    size of [key_j] scaled by 0.3. *)
Lemma tune_parameter_converges (key_j : string) (step_size_j : Q)
    (t : tuner RNG) (k : nat) (l : loopA RNG) :
  reaches (turnA key_j) k (initA n t) l ->
  step_sizes (a_state l) !! key_j = Some step_size_j ->
  (5 <= a_nsuccess l)%nat ->
  tuneA key_j t = Ok (a_state (converged key_j step_size_j l)).
Proof.
  intros Hr Hss Hn. unfold tune_parameter.
  destruct (reaches_phaseA _ _ _ _ Hr) as (Hi & Hm & _). simpl in Hi, Hm.
  rewrite (while_loop_break _ k (m + 1) _ l (converged key_j step_size_j l));
    [reflexivity | exact Hr | now apply phaseA_turn_break | lia].
Qed.

(** With the budget spent and fewer than five successes in a row the loop
    for [key_j] raises. *)
Lemma tune_parameter_exhausted (key_j : string) (t : tuner RNG) (k : nat)
    (l : loopA RNG) :
  is_Some (step_sizes t !! key_j) ->
  reaches (turnA key_j) k (initA n t) l ->
  a_i l = m -> (a_nsuccess l < 5)%nat ->
  tuneA key_j t = Raise (StandardError (err_str m)).
Proof.
  intros Hss Hr Hi Hn. unfold tune_parameter.
  destruct (reaches_phaseA _ _ _ _ Hr) as (Hk & _ & Hdom). simpl in Hk.
  rewrite (while_loop_raise _ k (m + 1) _ l (StandardError (err_str m)));
    [reflexivity | exact Hr | | lia].
  apply phaseA_turn_raise; auto.
Qed.

(** The loop for [key_j] ends normally only through line 109-111: after
    five successes in a row, with the step size scaled by 0.3. *)
Lemma tune_parameter_ok (key_j : string) (t t' : tuner RNG) :
  tuneA key_j t = Ok t' ->
  exists k l step_size_j,
    reaches (turnA key_j) k (initA n t) l /\
    step_sizes (a_state l) !! key_j = Some step_size_j /\
    (5 <= a_nsuccess l)%nat /\
    t' = a_state (converged key_j step_size_j l).
Proof.
  unfold tune_parameter. intros H.
  destruct (while_loop _ _ _) as [l'|e] eqn:Hw; [|discriminate H].
  simpl in H. inversion H; subst t'; clear H.
  apply while_loop_ok in Hw. destruct Hw as [(k & l & _ & Hr & Hb)|Hr].
  - exists k, l. unfold phaseA_turn in Hb.
    destruct (step_sizes (a_state l) !! key_j) as [sz|] eqn:Hss; [|discriminate].
    exists sz. destruct (nconsecutive <=? a_nsuccess l)%nat eqn:Hn.
    + apply Nat.leb_le in Hn. inversion Hb; subst l'. done.
    + destruct (a_i l =? m)%nat; [discriminate|].
      destruct n; [discriminate|].
      destruct (proposal_distribution _ _ _) as [d g0].
      destruct (decide _ _ _ _ _) as [dec g1].
      destruct (_ =? _)%nat; discriminate.
  - destruct (reaches_phaseA _ _ _ _ Hr) as (Hi & Hm & _).
    simpl in Hi, Hm. lia.
Qed.

(** C3.  In phase A a turn that ends an interval counts a success exactly
    when the acceptance fraction of the interval lies in [[0.2, 0.4]], and
    puts the counter back to 0 otherwise; turns inside an interval leave
    the counter alone.  A turn that finds 5 successes in a row multiplies
    the step size of the parameter by 0.3 and leaves the loop, and the next
    parameter is taken up from the state it leaves. *)
Theorem phaseA_success_rule (key_j : string) (step_size_j : Q)
    (l : loopA RNG) :
  step_sizes (a_state l) !! key_j = Some step_size_j ->
  ((a_nsuccess l < 5)%nat -> a_i l <> m -> (0 < n)%nat ->
     exists l', turnA key_j l = Continue l') /\
  (forall l', turnA key_j l = Continue l' ->
     (a_i l mod n = n - 1)%nat ->
     let accfrac_j :=
       float_of_nat (np_sum (a_accepted l')) / float_of_nat n in
     a_accfrac l' = accfrac_j /\
     (0.2 <= accfrac_j /\ accfrac_j <= 0.40 ->
        a_nsuccess l' = S (a_nsuccess l)) /\
     (~ (0.2 <= accfrac_j /\ accfrac_j <= 0.40) ->
        a_nsuccess l' = 0%nat)) /\
  (forall l', turnA key_j l = Continue l' ->
     (a_i l mod n <> n - 1)%nat -> a_nsuccess l' = a_nsuccess l) /\
  ((5 <= a_nsuccess l)%nat ->
     turnA key_j l = Break (converged key_j step_size_j l) /\
     step_sizes (a_state (converged key_j step_size_j l)) !! key_j
       = Some (step_size_j * 0.3) /\
     forall (t : tuner RNG) (k : nat) (rest : list string),
       reaches (turnA key_j) k (initA n t) l ->
       for_each tuneA (key_j :: rest) t
         = for_each tuneA rest (a_state (converged key_j step_size_j l))).
Proof.
  intros Hss. split; [|split; [|split]].
  - intros. apply phaseA_turn_progress; eauto.
  - intros l' Ht Hk accfrac_j.
    apply phaseA_turn_continue in Ht.
    destruct Ht as (_ & _ & _ & _ & _ & _ & Hend).
    apply Nat.eqb_eq in Hk. rewrite Hk in Hend.
    destruct Hend as [Hacc Hns]. fold accfrac_j in Hns.
    split; [exact Hacc|]. split; intros Hband.
    + apply successA_iff in Hband. now rewrite Hband in Hns.
    + destruct (successA accfrac_j) eqn:E; [|exact Hns].
      apply successA_iff in E. contradiction.
  - intros l' Ht Hk.
    apply phaseA_turn_continue in Ht.
    destruct Ht as (_ & _ & _ & _ & _ & _ & Hend).
    apply Nat.eqb_neq in Hk. rewrite Hk in Hend. tauto.
  - intros Hn. split; [now apply phaseA_turn_break|].
    split; [simpl; apply lookup_insert_eq|].
    intros t k rest Hr. simpl.
    now rewrite (tune_parameter_converges _ _ _ _ _ Hr Hss Hn).
Qed.

End PhaseAFacts.

(** ** Phase B of [pre_tune] *)

Lemma successB_iff (a : Q) : successB a = true <-> 0.2 <= a /\ a <= 0.35.
Proof.
  unfold successB. rewrite andb_true_iff, !Qle_bool_iff. reflexivity.
Qed.

Section PhaseBFacts.

Context {RNG : Type}.
Context (proposal_distribution : Q -> Q -> RNG -> Q * RNG).
Context (np_random : RNG -> Q * RNG) (np_exp : Q -> Q).
Context (logp : gmap string Q -> Q) (np_sqrt : Q -> Q).
Context (m n : nat) (keys : list string) (orig : gmap string Q).

Local Abbreviation perturb := (perturb_key RNG proposal_distribution).
Local Abbreviation turnB :=
  (phaseB_turn RNG proposal_distribution np_random np_exp logp m n keys orig).

(** At the start of an interval the [for] loop scales the step size of
    every key it visits, once. *)
Lemma perturb_start (rescale_factor : Q) (ks : list string)
    (ss vals : gmap string Q) (g : RNG) (ss' vals' : gmap string Q) (g' : RNG) :
  NoDup ks ->
  for_each (perturb 0%nat rescale_factor) ks (ss, vals, g) = Ok (ss', vals', g') ->
  forall key,
    (key ∈ ks -> ss' !! key = (fun sz => sz * rescale_factor) <$> ss !! key) /\
    (key ∉ ks -> ss' !! key = ss !! key).
Proof.
  intros Hnd. revert ss vals g.
  induction Hnd as [|k0 ks Hk0 Hnd IH]; intros ss vals g H key; simpl in H.
  - inversion H; subst. split; [intros Hin; inversion Hin | reflexivity].
  - destruct (ss !! k0) as [sz|] eqn:Hsz; [|discriminate H]. simpl in H.
    destruct (proposal_distribution 0 (sz * rescale_factor) g) as [d g1].
    simpl in H. specialize (IH _ _ _ H key). destruct IH as [IHin IHout].
    destruct (String.string_dec k0 key) as [->|Hne].
    + split.
      * intros _. rewrite (IHout Hk0), lookup_insert_eq, Hsz. reflexivity.
      * intros Hn. exfalso. apply Hn. left.
    + split.
      * intros Hin. apply elem_of_cons in Hin.
        destruct Hin as [->|Hin]; [congruence|].
        rewrite (IHin Hin). now rewrite lookup_insert_ne.
      * intros Hn. rewrite IHout; [now rewrite lookup_insert_ne|].
        intros Hin. apply Hn. now right.
Qed.

(** Inside an interval the [for] loop leaves the step sizes alone. *)
Lemma perturb_inside (k : nat) (rescale_factor : Q) (ks : list string)
    (ss vals : gmap string Q) (g : RNG) (ss' vals' : gmap string Q) (g' : RNG) :
  k <> 0%nat ->
  for_each (perturb k rescale_factor) ks (ss, vals, g) = Ok (ss', vals', g') ->
  ss' = ss.
Proof.
  intros Hk. apply Nat.eqb_neq in Hk. revert ss vals g.
  induction ks as [|k0 ks IH]; intros ss vals g H; simpl in H.
  - now inversion H.
  - destruct (ss !! k0) as [sz|] eqn:Hsz; [|discriminate H]. simpl in H.
    rewrite Hk in H.
    destruct (proposal_distribution 0 sz g) as [d g1]. simpl in H.
    exact (IH _ _ _ H).
Qed.

(** The [for] loop raises only for a key without a step size. *)
Lemma perturb_ok (k : nat) (rescale_factor : Q) (ks : list string)
    (ss vals : gmap string Q) (g : RNG) :
  (forall key, key ∈ ks -> is_Some (ss !! key)) ->
  exists s', for_each (perturb k rescale_factor) ks (ss, vals, g) = Ok s'.
Proof.
  revert ss vals g. induction ks as [|k0 ks IH]; intros ss vals g Hdom; simpl.
  - eauto.
  - destruct (Hdom k0) as [sz Hsz]; [left|]. rewrite Hsz. simpl.
    destruct (proposal_distribution 0 _ g) as [d g1]. simpl.
    apply IH. intros key Hin.
    destruct (k =? 0)%nat; [|apply Hdom; now right].
    destruct (String.string_dec k0 key) as [->|Hne].
    + rewrite lookup_insert_eq. eauto.
    + rewrite lookup_insert_ne by assumption. apply Hdom. now right.
Qed.

Lemma phaseB_turn_raise (l : loopB RNG) :
  (b_nsuccess l < 5)%nat -> b_i l = m ->
  turnB l = Raised (StandardError (err_str m)).
Proof.
  intros Hn Hi. unfold phaseB_turn.
  apply Nat.leb_gt in Hn. unfold nconsecutive. rewrite Hn.
  apply Nat.eqb_eq in Hi. now rewrite Hi.
Qed.

(** What a turn that falls through has done to the loop variables. *)
Lemma phaseB_turn_continue (l l' : loopB RNG) :
  turnB l = Continue l' ->
  b_i l' = S (b_i l) /\ b_i l <> m /\ (b_nsuccess l < 5)%nat /\ (0 < n)%nat /\
  (exists vals0 vals1 g,
     for_each (perturb (b_i l mod n)%nat (b_rescale_factor l)) keys
       (step_sizes (b_state l), vals0, rng (b_state l))
     = Ok (step_sizes (b_state l'), vals1, g)) /\
  (if (b_i l mod n =? n - 1)%nat then
     let accfrac := float_of_nat (np_sum (b_tuning_chain l')) / float_of_nat n in
     if successB accfrac then
       b_nsuccess l' = S (b_nsuccess l) /\ b_rescale_factor l' = 1.0
     else
       b_nsuccess l' = 0%nat /\
       b_rescale_factor l' = rescale_table accfrac (b_rescale_factor l)
   else b_nsuccess l' = b_nsuccess l /\
        b_rescale_factor l' = b_rescale_factor l).
Proof.
  unfold phaseB_turn.
  destruct (nconsecutive <=? b_nsuccess l)%nat eqn:Hn; [discriminate|].
  destruct (b_i l =? m)%nat eqn:Hi; [discriminate|].
  apply Nat.leb_gt in Hn. apply Nat.eqb_neq in Hi. unfold nconsecutive in Hn.
  destruct n as [|n']; [discriminate|].
  set (k := (b_i l mod S n')%nat). set (last := (S n' - 1)%nat).
  match goal with
  | |- context [for_each ?f keys (?a, ?v, ?b)] =>
      destruct (for_each f keys (a, v, b)) as [[[ss vals1] g]|e] eqn:Hp;
      [|discriminate]; set (vals0 := v) in *
  end.
  destruct (decide np_random np_exp _ _ g) as [dec g'].
  cbv zeta.
  destruct (k =? last)%nat eqn:Hk;
    [match goal with
     | |- context [successB ?a] => destruct (successB a) eqn:Hs
     end|];
    intros H; inversion H; subst l'; clear H;
    cbn [b_i b_nsuccess b_rescale_factor b_tuning_chain b_state
         step_sizes rng];
    (split; [reflexivity|]); (split; [assumption|]);
    (split; [assumption|]); (split; [lia|]);
    (split; [exists vals0, vals1, g; exact Hp|]);
    rewrite ?Hs; split; reflexivity.
Qed.

Lemma phaseB_turn_progress (l : loopB RNG) :
  (b_nsuccess l < 5)%nat -> b_i l <> m -> (0 < n)%nat ->
  (forall key, key ∈ keys -> is_Some (step_sizes (b_state l) !! key)) ->
  exists l', turnB l = Continue l'.
Proof.
  intros Hn Hi Hpos Hdom. unfold phaseB_turn.
  apply Nat.leb_gt in Hn. unfold nconsecutive. rewrite Hn.
  apply Nat.eqb_neq in Hi. rewrite Hi.
  destruct n as [|n']; [lia|].
  set (k := (b_i l mod S n')%nat). set (last := (S n' - 1)%nat).
  match goal with
  | |- context [for_each ?f keys (?a, ?v, ?b)] =>
      destruct (perturb_ok k (b_rescale_factor l) keys a v b Hdom)
        as [[[ss vals1] g] Hp]; rewrite Hp
  end.
  destruct (decide np_random np_exp _ _ g) as [dec g'].
  cbv zeta. destruct (k =? last)%nat; [|eauto].
  match goal with
  | |- context [successB ?a] => destruct (successB a)
  end; eauto.
Qed.

Lemma reaches_phaseB (k : nat) (l0 l : loopB RNG) :
  reaches turnB k l0 l ->
  b_i l = (b_i l0 + k)%nat /\ ((b_i l0 <= m)%nat -> (b_i l <= m)%nat).
Proof.
  induction 1 as [s|k s s1 s' Hs _ IH]; [split; [lia | done]|].
  apply phaseB_turn_continue in Hs. destruct Hs as (Hi & Hm & _).
  destruct IH as [IHi IHm]. split; [lia|]. intros. apply IHm. lia.
Qed.

(** Phase B ends normally only through line 215-216: after five successes
    in a row. *)
Lemma phaseB_ok (t t' : tuner RNG) :
  phaseB RNG proposal_distribution np_random np_exp logp np_sqrt m n keys orig t
  = Ok t' ->
  exists k l,
    reaches turnB k (initB logp np_sqrt n keys t) l /\
    (5 <= b_nsuccess l)%nat /\ t' = b_state l.
Proof.
  unfold phaseB. intros H.
  destruct (while_loop _ _ _) as [l'|e] eqn:Hw; [|discriminate H].
  simpl in H. inversion H; subst t'; clear H.
  apply while_loop_ok in Hw. destruct Hw as [(k & l & _ & Hr & Hb)|Hr].
  - exists k, l. split; [done|]. unfold phaseB_turn in Hb.
    destruct (nconsecutive <=? b_nsuccess l)%nat eqn:Hn.
    + apply Nat.leb_le in Hn. by inversion Hb; subst l'.
    + destruct (b_i l =? m)%nat; [discriminate|].
      destruct n; [discriminate|].
      destruct (for_each _ _ _) as [[[ss vals1] g0]|e]; [|discriminate].
      destruct (decide _ _ _ _ _) as [dec g1].
      cbv zeta in Hb. destruct (_ =? _)%nat; [|discriminate].
      destruct (successB _); discriminate.
  - destruct (reaches_phaseB _ _ _ Hr) as (Hi & Hm). simpl in Hi, Hm. lia.
Qed.

(** With the budget spent and fewer than five successes in a row phase B
    raises. *)
Lemma phaseB_exhausted (t : tuner RNG) (k : nat) (l : loopB RNG) :
  reaches turnB k (initB logp np_sqrt n keys t) l ->
  b_i l = m -> (b_nsuccess l < 5)%nat ->
  phaseB RNG proposal_distribution np_random np_exp logp np_sqrt m n keys orig t
  = Raise (StandardError (err_str m)).
Proof.
  intros Hr Hi Hn. unfold phaseB.
  destruct (reaches_phaseB _ _ _ Hr) as [Hk _]. simpl in Hk.
  rewrite (while_loop_raise _ k (m + 1) _ l (StandardError (err_str m)));
    [reflexivity | exact Hr | now apply phaseB_turn_raise | lia].
Qed.

(** C5.  Phase B starts with [rescale_factor = 1/sqrt( npars )].  The turn
    that opens an interval multiplies the step size of every free
    parameter by [rescale_factor]; the other turns leave the step sizes
    alone.  The turn that ends an interval counts a success exactly when
    the joint acceptance fraction lies in [[0.2, 0.35]], and a success
    sets [rescale_factor] to 1.0 whatever it was before. *)
Theorem phaseB_rescale_rule (t : tuner RNG) (l : loopB RNG) :
  b_rescale_factor (initB logp np_sqrt n keys t)
    = 1.0 / np_sqrt (float_of_nat (length keys)) /\
  ((b_nsuccess l < 5)%nat -> b_i l <> m -> (0 < n)%nat ->
     (forall key, key ∈ keys -> is_Some (step_sizes (b_state l) !! key)) ->
     exists l', turnB l = Continue l') /\
  (forall l', turnB l = Continue l' ->
     ((b_i l mod n = 0)%nat -> NoDup keys ->
        forall key, key ∈ keys ->
          step_sizes (b_state l') !! key
          = (fun sz => sz * b_rescale_factor l) <$> step_sizes (b_state l) !! key) /\
     ((b_i l mod n <> 0)%nat ->
        step_sizes (b_state l') = step_sizes (b_state l)) /\
     ((b_i l mod n = n - 1)%nat ->
        let accfrac :=
          float_of_nat (np_sum (b_tuning_chain l')) / float_of_nat n in
        (0.2 <= accfrac /\ accfrac <= 0.35 ->
           b_nsuccess l' = S (b_nsuccess l) /\ b_rescale_factor l' = 1.0) /\
        (~ (0.2 <= accfrac /\ accfrac <= 0.35) ->
           b_nsuccess l' = 0%nat /\
           b_rescale_factor l' = rescale_table accfrac (b_rescale_factor l)))).
Proof.
  split; [reflexivity|]. split; [apply phaseB_turn_progress|].
  intros l' Ht. apply phaseB_turn_continue in Ht.
  destruct Ht as (_ & _ & _ & _ & (vals0 & vals1 & g & Hp) & Hend).
  split; [|split].
  - intros Hk Hnd key Hin. rewrite Hk in Hp.
    exact (proj1 (perturb_start _ _ _ _ _ _ _ _ Hnd Hp key) Hin).
  - intros Hk. exact (perturb_inside _ _ _ _ _ _ _ _ _ Hk Hp).
  - intros Hk accfrac. apply Nat.eqb_eq in Hk. rewrite Hk in Hend.
    cbv zeta in Hend. fold accfrac in Hend. split; intros Hband.
    + apply successB_iff in Hband. now rewrite Hband in Hend.
    + destruct (successB accfrac) eqn:E; [|exact Hend].
      apply successB_iff in E. contradiction.
Qed.

End PhaseBFacts.

(** ** [pre_tune] as a whole *)

Section PreTuneFacts.

Context {RNG : Type}.
Context (proposal_distribution : Q -> Q -> RNG -> Q * RNG).
Context (np_random : RNG -> Q * RNG) (np_exp : Q -> Q).
Context (logp : gmap string Q -> Q) (np_sqrt : Q -> Q).
Context (m n : nat) (keys : list string).

Local Abbreviation turnA :=
  (phaseA_turn RNG proposal_distribution np_random np_exp logp m n keys).
Local Abbreviation tuneA :=
  (tune_parameter RNG proposal_distribution np_random np_exp logp m n keys).
Local Abbreviation turnB :=
  (phaseB_turn RNG proposal_distribution np_random np_exp logp m n keys).

(** Tuning a parameter never removes a step size. *)
Lemma tune_parameter_step_sizes (orig : gmap string Q) (key_j : string)
    (t t' : tuner RNG) (key : string) :
  tuneA orig key_j t = Ok t' ->
  is_Some (step_sizes t !! key) -> is_Some (step_sizes t' !! key).
Proof.
  unfold tune_parameter. intros H Hkey.
  destruct (while_loop _ _ _) as [l|e] eqn:Hw; [|discriminate H].
  simpl in H. inversion H; subst t'; clear H.
  revert Hw. generalize (initA n t) (eq_refl : step_sizes (a_state (initA n t)) = step_sizes t).
  intros l0 Hl0 Hw. rewrite <- Hl0 in Hkey. clear Hl0.
  revert Hkey Hw.
  apply (while_loop_invariant (turnA orig key_j)
           (fun l => is_Some (step_sizes (a_state l) !! key))).
  - intros s s' Hs Hc. apply phaseA_turn_continue in Hc.
    destruct Hc as (_ & _ & _ & _ & _ & Hdom & _). auto.
  - intros s s' Hs Hb. unfold phaseA_turn in Hb.
    destruct (step_sizes (a_state s) !! key_j) as [sz|] eqn:Hss; [|discriminate].
    destruct (nconsecutive <=? a_nsuccess s)%nat.
    + inversion Hb; subst s'. simpl.
      destruct (String.string_dec key_j key) as [->|Hne].
      * rewrite lookup_insert_eq. eauto.
      * now rewrite lookup_insert_ne.
    + destruct (a_i s =? m)%nat; [discriminate|].
      destruct n; [discriminate|].
      destruct (proposal_distribution _ _ _) as [d g0].
      destruct (decide _ _ _ _ _) as [dec g1].
      destruct (_ =? _)%nat; discriminate.
Qed.

(** C6.  When a phase of [pre_tune] has made all [ntune_iterlim] turns
    without five successes in a row - in phase A for some parameter, or in
    phase B - [pre_tune] raises: it returns no state, and the message
    names the limit and advises to reduce [tune_interval].  Every free
    parameter is taken to have a step size. *)
Theorem pre_tune_budget_exhausted (vals ss : gmap string Q) (g : RNG) :
  (forall key, key ∈ keys -> is_Some (ss !! key)) ->
  let orig := assign_all keys vals ∅ in
  let t0 := Tuner vals ss orig g in
  (exists pre key_j post t k l,
      keys = pre ++ key_j :: post /\
      for_each (tuneA orig) pre t0 = Ok t /\
      reaches (turnA orig key_j) k (initA n t) l /\
      a_i l = m /\ (a_nsuccess l < 5)%nat) \/
  (exists t1 k l,
      for_each (tuneA orig) keys t0 = Ok t1 /\
      reaches (turnB orig) k (initB logp np_sqrt n keys t1) l /\
      b_i l = m /\ (b_nsuccess l < 5)%nat) ->
  pre_tune RNG proposal_distribution np_random np_exp logp np_sqrt
    m n keys vals ss g
  = Raise (StandardError
             (("Aborting tuning - exceeded " +:+ str_of_nat m +:+ " steps")
                +:+ (newline +:+ "...consider reducing tune_interval"))).
Proof.
  intros Hdom orig t0 H. unfold pre_tune, phaseA.
  rewrite phaseA_order_keys. fold orig. fold t0.
  change (Tuner vals ss orig g) with t0.
  destruct H as [(pre & key_j & post & t & k & l & Hkeys & Hpre & Hr & Hi & Hn)
                |(t1 & k & l & HA & Hr & Hi & Hn)].
  - rewrite Hkeys at 2. rewrite for_each_app, Hpre. simpl.
    rewrite (tune_parameter_exhausted _ _ _ _ _ _ _ _ _ t k l);
      [reflexivity| |exact Hr|exact Hi|exact Hn].
    assert (Hk : is_Some (step_sizes t0 !! key_j)).
    { simpl. apply Hdom. rewrite Hkeys. apply elem_of_app. right. left. }
    revert Hk Hpre.
    apply (for_each_invariant (tuneA orig)
             (fun t => is_Some (step_sizes t !! key_j))).
    intros x s s' Hs Hx. eapply tune_parameter_step_sizes; eauto.
  - rewrite HA. simpl.
    exact (phaseB_exhausted _ _ _ _ _ _ _ _ _ _ k l Hr Hi Hn).
Qed.

End PreTuneFacts.

(** ** The sampling loop *)

Lemma assign_all_lookup (keys : list string) (src dst : gmap string Q)
    (key : string) :
  assign_all keys src dst !! key
  = if bool_decide (key ∈ keys) then Some (getitem src key) else dst !! key.
Proof.
  unfold assign_all. revert dst.
  induction keys as [|k ks IH]; intros dst; cbn [foldl].
  - case_bool_decide as H; [by apply elem_of_nil in H | done].
  - rewrite IH. destruct (bool_decide_reflect (key ∈ ks)) as [Hin|Hnin].
    + rewrite bool_decide_eq_true_2; [done | by right].
    + destruct (String.string_dec k key) as [->|Hne].
      * rewrite lookup_insert_eq, bool_decide_eq_true_2; [done | left].
      * rewrite lookup_insert_ne by done.
        rewrite bool_decide_eq_false_2; [done|].
        intros [?|?]%elem_of_cons; congruence.
Qed.

Lemma getitem_assign_all (keys : list string) (src dst : gmap string Q)
    (key : string) :
  key ∈ keys -> getitem (assign_all keys src dst) key = getitem src key.
Proof.
  intros Hin. unfold getitem at 1. rewrite assign_all_lookup.
  by rewrite bool_decide_eq_true_2.
Qed.

Lemma setitem_lookup (name name' : string) (i : nat) (x : Q)
    (chain : gmap string (list Q)) :
  setitem name i x chain !! name'
  = if bool_decide (name' = name) then (fun a => <[i := x]> a) <$> chain !! name'
    else chain !! name'.
Proof.
  unfold setitem. case_bool_decide.
  - subst. by rewrite lookup_alter_eq.
  - by rewrite lookup_alter_ne.
Qed.

(** Lines 82-83: [for key in keys: sampler.chain[key][i] = ...]. *)
Lemma record_all_lookup (f : string -> Q) (i : nat) (keys : list string)
    (chain : gmap string (list Q)) (name : string) :
  foldl (fun ch key => setitem key i (f key) ch) chain keys !! name
  = if bool_decide (name ∈ keys)
    then (fun a => <[i := f name]> a) <$> chain !! name
    else chain !! name.
Proof.
  revert chain. induction keys as [|k ks IH]; intros chain; cbn [foldl].
  - case_bool_decide as H; [by apply elem_of_nil in H | done].
  - rewrite IH, setitem_lookup.
    destruct (bool_decide_reflect (name ∈ ks)) as [Hin|Hnin].
    + rewrite (bool_decide_eq_true_2 (name ∈ k :: ks)) by (by right).
      case_bool_decide; [|done]. subst.
      destruct (chain !! k) as [a|]; simpl; [|done].
      by rewrite list_insert_insert_eq.
    + case_bool_decide as Hk.
      * subst. rewrite bool_decide_eq_true_2; [done | left].
      * rewrite bool_decide_eq_false_2; [done|].
        intros [?|?]%elem_of_cons; congruence.
Qed.

(** Lines 38-40: [for key in unobs_stochs_keys: sampler.chain[key] = ...]. *)
Lemma allocate_all_out (z : list Q) (ks : list string)
    (chain : gmap string (list Q)) (name : string) :
  name ∉ ks ->
  foldl (fun ch key => <[key := z]> ch) chain ks !! name = chain !! name.
Proof.
  revert chain. induction ks as [|k ks IH]; intros chain Hn; [done|].
  cbn [foldl]. rewrite IH.
  - rewrite lookup_insert_ne; [done|]. intros ->. apply Hn. left.
  - intros Hin. apply Hn. by right.
Qed.

Lemma allocate_all_in (z : list Q) (ks : list string)
    (chain : gmap string (list Q)) (name : string) :
  name ∈ ks ->
  foldl (fun ch key => <[key := z]> ch) chain ks !! name = Some z.
Proof.
  revert chain. induction ks as [|k ks IH]; intros chain Hin.
  - by apply elem_of_nil in Hin.
  - cbn [foldl]. destruct (bool_decide_reflect (name ∈ ks)) as [Hks|Hks].
    + by apply IH.
    + apply elem_of_cons in Hin. destruct Hin as [->|Hin]; [|contradiction].
      rewrite allocate_all_out by done. apply lookup_insert_eq.
Qed.

Section SampleFacts.

Context {RNG : Type}.
Context (proposal_distribution : Q -> Q -> RNG -> Q * RNG).
Context (np_random : RNG -> Q * RNG) (np_exp : Q -> Q).
Context (logp : gmap string Q -> Q) (np_sqrt : Q -> Q).
Context (keys : list string).
Context (Hlogp : "logp" ∉ keys) (Haccepted : "accepted" ∉ keys).

Local Abbreviation step :=
  (sample_step RNG proposal_distribution np_random np_exp logp keys).

(** What step [i] writes into the chain: position [i] of every series and
    nothing else; a rejected step records the values the step started
    from. *)
Lemma sample_step_records (i : nat) (l l' : loopS RNG) :
  step i l = Ok l' ->
  exists dec : bool,
    (forall name, length <$> s_chain l' !! name = length <$> s_chain l !! name) /\
    (forall name j, j <> i ->
       recorded (s_chain l') name j = recorded (s_chain l) name j) /\
    (forall a, s_chain l !! "accepted" = Some a -> (i < length a)%nat ->
       recorded (s_chain l') "accepted" i = Some (if dec then 1 else 0)) /\
    (forall key a, key ∈ keys -> s_chain l !! key = Some a -> (i < length a)%nat ->
       recorded (s_chain l') key i
       = Some (getitem (current_values (s_state l')) key)) /\
    (dec = false ->
       current_values (s_state l') = current_values (s_state l)).
Proof.
  unfold sample_step.
  destruct (propose _ _ _ _ _ _) as [[vals1 g]|e]; [|discriminate]. simpl.
  destruct (decide np_random np_exp _ _ g) as [dec g'].
  intros H. inversion H; subst l'; clear H. exists dec.
  cbn [s_chain s_state current_values].
  assert (Hchain : forall name,
    setitem "logp" i (if dec then logp vals1 else s_current_logp l)
      (foldl (fun ch key =>
                setitem key i
                  (getitem (if dec then vals1
                            else assign_all keys (current_values (s_state l)) vals1)
                     key) ch)
         (setitem "accepted" i (if dec then 1 else 0) (s_chain l)) keys) !! name
    = (fun a => <[i :=
         if bool_decide (name = "logp")
         then (if dec then logp vals1 else s_current_logp l)
         else if bool_decide (name ∈ keys)
         then getitem (if dec then vals1
                       else assign_all keys (current_values (s_state l)) vals1) name
         else if bool_decide (name = "accepted") then (if dec then 1 else 0)
         else default 0 (a !! i)]> a) <$> s_chain l !! name).
  { intros name. rewrite setitem_lookup, record_all_lookup, setitem_lookup.
    destruct (s_chain l !! name) as [a|]; simpl;
      repeat case_bool_decide; simpl; try done; f_equal;
      rewrite ?list_insert_insert_eq; try done.
    destruct (a !! i) as [x|] eqn:Hx; simpl.
    - by rewrite list_insert_id.
    - rewrite list_insert_ge; [done|]. by apply lookup_ge_None. }
  split; [|split; [|split; [|split]]].
  - intros name. rewrite Hchain.
    destruct (s_chain l !! name) as [a|]; simpl; [|done].
    by rewrite length_insert.
  - intros name j Hj. unfold recorded. rewrite Hchain.
    destruct (s_chain l !! name) as [a|]; simpl; [|done].
    by rewrite list_lookup_insert_ne.
  - intros a Ha Hi. unfold recorded. rewrite Hchain, Ha. simpl.
    rewrite list_lookup_insert_eq by done.
    repeat case_bool_decide; done || contradiction.
  - intros key a Hin Ha Hi. unfold recorded. rewrite Hchain, Ha. simpl.
    rewrite list_lookup_insert_eq by done.
    repeat case_bool_decide; subst; try contradiction.
    destruct dec; by rewrite getitem_assign_all.
  - by intros ->.
Qed.

(** The steps [a, a + len) of the main loop. *)
Lemma sample_loop_records (vals : gmap string Q) (nsteps len : nat) :
  forall (a : nat) (l l' : loopS RNG),
  for_each step (seq a len) l = Ok l' ->
  (a + len <= nsteps)%nat ->
  (forall name, name ∈ "logp" :: "accepted" :: keys ->
     exists series, s_chain l !! name = Some series /\ length series = nsteps) ->
  (forall key, key ∈ keys ->
     previous (s_chain l) vals key a
     = Some (getitem (current_values (s_state l)) key)) ->
  (forall name, length <$> s_chain l' !! name = length <$> s_chain l !! name) /\
  (forall name j, (j < a)%nat ->
     recorded (s_chain l') name j = recorded (s_chain l) name j) /\
  (forall j, (a <= j < a + len)%nat ->
     (recorded (s_chain l') "accepted" j = Some 0 \/
      recorded (s_chain l') "accepted" j = Some 1) /\
     (recorded (s_chain l') "accepted" j = Some 0 ->
      forall key, key ∈ keys ->
        recorded (s_chain l') key j = previous (s_chain l') vals key j)).
Proof.
  induction len as [|len IH]; intros a l l' Hrun Hlen Hshape Hprev.
  - simpl in Hrun. inversion Hrun; subst l'. repeat split; try done; lia.
  - simpl in Hrun. destruct (step a l) as [l1|e] eqn:Hstep; [|discriminate].
    simpl in Hrun.
    destruct (sample_step_records a l l1 Hstep)
      as (dec & F1 & F2 & F3 & F4 & F5).
    assert (Hshape1 : forall name, name ∈ "logp" :: "accepted" :: keys ->
      exists series, s_chain l1 !! name = Some series /\ length series = nsteps).
    { intros name Hname. destruct (Hshape name Hname) as (series & Hs & Hl).
      specialize (F1 name). rewrite Hs in F1.
      destruct (s_chain l1 !! name) as [series1|]; [|discriminate].
      exists series1. split; [done|]. simpl in F1. congruence. }
    assert (Hprev1 : forall key, key ∈ keys ->
      previous (s_chain l1) vals key (S a)
      = Some (getitem (current_values (s_state l1)) key)).
    { intros key Hkey. simpl.
      destruct (Hshape key) as (series & Hs & Hl); [by do 2 right|].
      apply (F4 key series Hkey Hs). lia. }
    destruct (IH (S a) l1 l' Hrun ltac:(lia) Hshape1 Hprev1) as (G1 & G2 & G3).
    split; [|split].
    + intros name. by rewrite G1, F1.
    + intros name j Hj. rewrite G2 by lia. apply F2. lia.
    + intros j Hj. destruct (Nat.eq_dec j a) as [->|Hne]; [|apply G3; lia].
      destruct (Hshape "accepted") as (acc & Hacc & Hacclen); [right; left|].
      assert (Hflag : recorded (s_chain l') "accepted" a
                      = Some (if dec then 1 else 0)).
      { rewrite G2 by lia. apply (F3 acc Hacc). lia. }
      rewrite Hflag. split; [destruct dec; auto|].
      intros Hzero key Hkey.
      assert (dec = false) as -> by (destruct dec; [discriminate Hzero | done]).
      destruct (Hshape key) as (series & Hs & Hl); [by do 2 right|].
      rewrite G2 by lia. rewrite (F4 key series Hkey Hs) by lia.
      rewrite F5 by done. rewrite <- (Hprev key Hkey).
      destruct a as [|b]; simpl; [done|].
      rewrite G2 by lia. rewrite F2 by lia. done.
Qed.

Lemma init_chain_lookup (nsteps : nat) (name : string) :
  name ∈ "logp" :: "accepted" :: keys ->
  init_chain keys nsteps !! name = Some (replicate nsteps 0).
Proof.
  unfold init_chain. intros Hname.
  destruct (bool_decide_reflect (name ∈ keys)) as [Hk|Hk];
    [by apply allocate_all_in|].
  rewrite allocate_all_out by done.
  apply elem_of_cons in Hname. destruct Hname as [->|Hname].
  - rewrite lookup_insert_ne by done. apply lookup_insert_eq.
  - apply elem_of_cons in Hname. destruct Hname as [->|Hname]; [|contradiction].
    apply lookup_insert_eq.
Qed.

(** When [sample] returns, every series of the chain - [logp], [accepted]
    and one per free variable - has length [nsteps]; every flag is 0 or 1;
    a step flagged 0 records for every free variable the value recorded one
    step before (for step 0: the value the variable had when [sample] was
    called); so a step whose record differs from the one before is flagged
    1.  No free variable is called [logp] or [accepted]. *)
Lemma sample_shape_and_rejections (step_method : option (gmap string Q))
    (vals : gmap string Q) (g : RNG) (nsteps : nat)
    (ntune_iterlim tune_interval : option nat)
    (chain : gmap string (list Q)) (t : tuner RNG) :
  sample RNG proposal_distribution np_random np_exp logp np_sqrt
    step_method keys vals g nsteps ntune_iterlim tune_interval = Ok (chain, t) ->
  (forall name, name ∈ "logp" :: "accepted" :: keys ->
     exists series, chain !! name = Some series /\ length series = nsteps) /\
  (forall i, (i < nsteps)%nat ->
     (recorded chain "accepted" i = Some 0 \/
      recorded chain "accepted" i = Some 1) /\
     (recorded chain "accepted" i = Some 0 ->
      forall key, key ∈ keys ->
        recorded chain key i = previous chain vals key i) /\
     ((exists key, key ∈ keys /\
                   recorded chain key i <> previous chain vals key i) ->
      recorded chain "accepted" i = Some 1)).
Proof.
  unfold sample. destruct step_method as [ss|]; [|discriminate].
  match goal with
  | |- bind ?tuning _ = _ -> _ =>
      destruct tuning as [t0|e]; [|discriminate]
  end.
  cbn [bind].
  destruct (for_each _ _ _) as [l'|e] eqn:Hrun; [|discriminate].
  cbn [bind]. intros H. inversion H; subst chain t; clear H.
  assert (Hshape : forall name, name ∈ "logp" :: "accepted" :: keys ->
    exists series, init_chain keys nsteps !! name = Some series /\
                   length series = nsteps).
  { intros name Hname. exists (replicate nsteps 0).
    split; [by apply init_chain_lookup | apply length_replicate]. }
  destruct (sample_loop_records vals nsteps nsteps 0 _ _ Hrun ltac:(lia))
    as (G1 & _ & G3).
  - exact Hshape.
  - intros key Hkey. cbn. by rewrite getitem_assign_all.
  - split.
    + intros name Hname. destruct (Hshape name Hname) as (series & Hs & Hl).
      specialize (G1 name). cbn [s_chain] in G1. rewrite Hs in G1.
      destruct (s_chain l' !! name) as [series1|]; [|discriminate].
      exists series1. split; [done|]. simpl in G1. congruence.
    + intros i Hi. destruct (G3 i ltac:(lia)) as [Hflag Hrej].
      split; [exact Hflag|]. split; [exact Hrej|].
      intros (key & Hkey & Hdiff).
      destruct Hflag as [Hzero|Hone]; [|exact Hone].
      exfalso. apply Hdiff. by apply Hrej.
Qed.

End SampleFacts.


(** ** Tuning requested without an interval length *)

(** C10 fails on the code.  With [ntune_iterlim] given and [tune_interval]
    left at [None] the guard of line 50 is false: [sample] goes on exactly as
    if no tuning had been asked for, and the [ValueError] of line 56 is out
    of reach. *)
Theorem sample_tune_interval_unset :
  (forall (RNG : Type) proposal_distribution np_random np_exp logp np_sqrt
          step_method keys vals (g : RNG) nsteps m,
     sample RNG proposal_distribution np_random np_exp logp np_sqrt
       step_method keys vals g nsteps (Some m) None
     = sample RNG proposal_distribution np_random np_exp logp np_sqrt
         step_method keys vals g nsteps None None) /\
  (exists chain t,
     Demo.sample_x (Some Demo.steps_x) Demo.keys_x Demo.vals_x
       [1; 1#2; -1; 1#2] 2 (Some 100%nat) None = Ok (chain, t) /\
     step_sizes t = Demo.steps_x).
Proof.
  split; [reflexivity|].
  eexists; eexists. split; vm_compute; reflexivity.
Qed.

(** ** The ancestry resolver *)

Lemma generations_Stoch (name : string) (ps : list (string * pyobj)) :
  generations (Stoch name ps) = S (level_generations ps).
Proof.
  reflexivity.
Qed.

Lemma level_generations_elem (ps : list (string * pyobj)) (k : string) (v : pyobj) :
  (k, v) ∈ ps -> (generations v <= level_generations ps)%nat.
Proof.
  induction ps as [|[k' p] ps IH]; intros Hin.
  - by apply elem_of_nil in Hin.
  - apply elem_of_cons in Hin. simpl. destruct Hin as [Heq|Hin].
    + inversion Heq; subst. lia.
    + specialize (IH Hin). lia.
Qed.

Lemma level_generations_below (ps : list (string * pyobj)) (b : nat) :
  (forall k v, (k, v) ∈ ps -> (generations v <= b)%nat) ->
  (level_generations ps <= b)%nat.
Proof.
  induction ps as [|[k' p] ps IH]; intros H; simpl; [lia|].
  apply Nat.max_lub.
  - apply (H k'). left.
  - apply IH. intros k v Hin. apply (H k). by right.
Qed.

(** What [d[k'] = v'] leaves in [d]. *)
Lemma dict_set_elem (d : list (string * pyobj)) (k k' : string) (v v' : pyobj) :
  (k, v) ∈ dict_set d k' v' -> (k, v) ∈ d \/ v = v'.
Proof.
  induction d as [|[k0 v0] d IH]; simpl; intros Hin.
  - apply list_elem_of_singleton in Hin. inversion Hin; subst. by right.
  - destruct (String.eqb k0 k').
    + apply elem_of_cons in Hin. destruct Hin as [Heq|Hin].
      * inversion Heq; subst. by right.
      * left. by right.
    + apply elem_of_cons in Hin. destruct Hin as [Heq|Hin].
      * left. rewrite Heq. left.
      * destruct (IH Hin) as [H|H]; [left; by right | by right].
Qed.

Lemma collect_parents_elem (gp ps : list (string * pyobj)) (k : string) (v : pyobj) :
  (k, v) ∈ foldl (fun gp e => dict_set gp e.1 e.2) gp ps ->
  (k, v) ∈ gp \/ exists k', (k', v) ∈ ps.
Proof.
  revert gp. induction ps as [|[k0 v0] ps IH]; intros gp Hin; cbn [foldl] in Hin.
  - by left.
  - destruct (IH _ Hin) as [H|[k' H]].
    + destruct (dict_set_elem _ _ _ _ _ H) as [H'| ->]; [by left|].
      right. exists k0. left.
    + right. exists k'. by right.
Qed.

(** One level of the walk: a flag per parent, and grandparents taken from
    the [parents] of the stochastic ones only. *)
Lemma scan_level_spec (ps : list (string * pyobj)) (acc : list bool * list (string * pyobj)) :
  (foldl scan_parent acc ps).1 = acc.1 ++ ((fun e => is_stochastic e.2) <$> ps) /\
  forall k v, (k, v) ∈ (foldl scan_parent acc ps).2 ->
    (k, v) ∈ acc.2 \/
    exists k' p k'', (k', p) ∈ ps /\ is_stochastic p = true /\ (k'', v) ∈ parents_of p.
Proof.
  revert acc. induction ps as [|[k0 p0] ps IH]; intros acc; cbn [foldl].
  - split; [by rewrite app_nil_r | by left].
  - destruct (IH (scan_parent acc (k0, p0))) as [IH1 IH2]. split.
    + rewrite IH1. simpl. by rewrite <- app_assoc.
    + intros k v Hin. destruct (IH2 k v Hin) as [H|(k' & p & k'' & H1 & H2 & H3)].
      * unfold scan_parent in H. simpl in H.
        destruct (is_stochastic p0) eqn:Hs; [|by left].
        destruct (collect_parents_elem _ _ _ _ H) as [H'|[k' H']]; [by left|].
        right. exists k0, p0, k'. split; [left|done].
      * right. exists k', p, k''. split; [by right|done].
Qed.

(** The [while] loop ends for every model, given more turns than the
    longest lineage has generations: with a [ValueError], or with a depth
    that is at least 1 and never more than the longest lineage. *)
Lemma trace_loop_total (fuel : nat) :
  forall (counter : nat) (ps : list (string * pyobj)),
  (level_generations ps < fuel)%nat ->
  exists r, trace_loop fuel counter ps = Some r /\
    forall d, r = Ok d -> (counter < d <= counter + 1 + level_generations ps)%nat.
Proof.
  induction fuel as [|fuel IH]; intros counter ps Hfuel; [lia|].
  simpl. destruct (scan_level ps) as [checks gps] eqn:Hscan.
  destruct (scan_level_spec ps ([], [])) as [Hchecks Hgps].
  unfold scan_level in Hscan. rewrite Hscan in Hchecks, Hgps. simpl in Hchecks, Hgps.
  destruct checks as [|c checks].
  - eexists. split; [done|]. intros d Hd. discriminate Hd.
  - destruct (existsb id (c :: checks)) eqn:Hex; simpl.
    + apply existsb_exists in Hex. destruct Hex as (b & Hb & Hid).
      unfold id in Hid. subst b. rewrite Hchecks in Hb.
      apply in_map_iff in Hb. destruct Hb as ([k0 p0] & Hs0 & Hin0). simpl in Hs0.
      apply list_elem_of_In in Hin0.
      assert (Hlt : (level_generations gps < level_generations ps)%nat).
      { pose proof (level_generations_elem _ _ _ Hin0) as H0.
        destruct p0 as [c0|n0 pps0]; [discriminate|].
        rewrite generations_Stoch in H0.
        apply Nat.le_lt_trans with (m := (level_generations ps - 1)%nat); [|lia].
        apply level_generations_below. intros k v Hin.
        destruct (Hgps k v Hin) as [H|(k' & p & k'' & H1 & H2 & H3)].
        - by apply elem_of_nil in H.
        - pose proof (level_generations_elem _ _ _ H1) as Hp.
          destruct p as [c1|n1 pps1]; [discriminate|].
          rewrite generations_Stoch in Hp. simpl in H3.
          pose proof (level_generations_elem _ _ _ H3). lia. }
      destruct (IH (S counter) gps ltac:(lia)) as (r & Hr & Hd).
      exists r. split; [done|]. intros d Hrd. specialize (Hd d Hrd). lia.
    + eexists. split; [done|]. intros d Hd. inversion Hd; subst. lia.
Qed.

(** A variable with parents, none of them stochastic, has depth 1. *)
Lemma trace_loop_base (fuel : nat) (ps : list (string * pyobj)) :
  ps <> [] ->
  (forall k p, (k, p) ∈ ps -> is_stochastic p = false) ->
  trace_loop (S fuel) 0 ps = Some (Ok 1%nat).
Proof.
  intros Hne Hconst. simpl.
  destruct (scan_level ps) as [checks gps] eqn:Hscan.
  destruct (scan_level_spec ps ([], [])) as [Hchecks _].
  unfold scan_level in Hscan. rewrite Hscan in Hchecks. simpl in Hchecks.
  subst checks. destruct ps as [|[k0 p0] ps]; [done|].
  cbn [fmap list_fmap].
  replace (existsb id _) with false; [done|].
  symmetry. apply not_true_is_false. intros Hex.
  apply existsb_exists in Hex. destruct Hex as (b & Hb & Hid).
  unfold id in Hid. subst b.
  change (In true ((fun e : string * pyobj => is_stochastic e.2)
                     <$> (k0, p0) :: ps)) in Hb.
  apply in_map_iff in Hb. destruct Hb as ([k p] & Hs & Hin). simpl in Hs.
  apply list_elem_of_In in Hin. rewrite (Hconst k p Hin) in Hs. discriminate.
Qed.

Lemma trace_ancestries_total (fuel : nat) (free : list (string * pyobj)) :
  forall ancestries : gmap string nat,
  (forall key stoch, (key, stoch) ∈ free ->
     (level_generations (parents_of stoch) < fuel)%nat) ->
  exists r, trace_ancestries fuel free ancestries = Some r.
Proof.
  induction free as [|[key stoch] free IH]; intros ancestries Hfuel; simpl.
  - eauto.
  - destruct (trace_loop_total fuel 0 (parents_of stoch)) as (r & Hr & _).
    { apply (Hfuel key). left. }
    rewrite Hr. destruct r as [d|e]; [|eauto].
    apply IH. intros k s Hin. apply (Hfuel k). by right.
Qed.

(** The chain of the specification: depths 1, 2 and 3. *)
Lemma trace_ancestries_chain :
  trace_ancestries 4 Demo.free_ABC ∅
  = Some (Ok (<["B" := 2%nat]> (<["C" := 3%nat]> (<["A" := 1%nat]> ∅)))).
Proof. vm_compute. reflexivity. Qed.

(** C7 fails on the code.  [T] has the parents [a = P] and [b = R]; [P] has
    the stochastic parent [mu = D], [R] the constant parent [mu = 0].  Both
    go into [grandparents] under the key [mu], the constant of [R] replaces
    [D], and the lineage [T <- P <- D] of 3 generations is counted as 2. *)
Theorem trace_ancestries_key_collision :
  trace_ancestries 4 [("T", Demo.T)] ∅ = Some (Ok {["T" := 2%nat]}) /\
  generations Demo.T = 3%nat.
Proof. split; vm_compute; reflexivity. Qed.

(** C8 fails on the code.  For a free variable with an empty [parents] dict
    [stoch_checks] stays empty and [max( stoch_checks )] raises, however many
    turns the loop is given; no depth is stored for any variable.  The same
    happens one level up, for a variable with such a parent. *)
Theorem trace_ancestries_no_parents (fuel : nat) :
  trace_ancestries (S fuel) [("E", Demo.E)] ∅
    = Some (Raise (ValueError "max() arg is an empty sequence")) /\
  trace_ancestries (S (S fuel)) [("F", Demo.F)] ∅
    = Some (Raise (ValueError "max() arg is an empty sequence")).
Proof. split; reflexivity. Qed.

(** ** The order of random draws and of tuning *)

Section ArgsortFacts.

Context (a : list nat).

Local Abbreviation by_value := (fun i j : nat => (a !!! i <= a !!! j)%nat).

Lemma insert_ix_perm (i : nat) (ixs : list nat) :
  insert_ix a i ixs ≡ₚ i :: ixs.
Proof.
  induction ixs as [|j ixs IH]; simpl; [done|].
  destruct (a !!! i <? a !!! j)%nat; [done|].
  rewrite IH. apply Permutation_swap.
Qed.

Lemma insert_ix_hd (i j : nat) (ixs : list nat) :
  by_value j i -> HdRel by_value j ixs -> HdRel by_value j (insert_ix a i ixs).
Proof.
  intros Hji Hhd. destruct ixs as [|k ixs]; simpl.
  - by constructor.
  - destruct (a !!! i <? a !!! k)%nat; constructor; [done|].
    by inversion Hhd.
Qed.

Lemma insert_ix_sorted (i : nat) (ixs : list nat) :
  Sorted by_value ixs -> Sorted by_value (insert_ix a i ixs).
Proof.
  induction 1 as [|j ixs Hs IH Hhd]; simpl.
  - by repeat constructor.
  - destruct (a !!! i <? a !!! j)%nat eqn:E.
    + apply Nat.ltb_lt in E. repeat constructor; [done..|lia].
    + apply Nat.ltb_ge in E. constructor; [done|]. by apply insert_ix_hd.
Qed.

Lemma insert_all_sorted (l acc : list nat) :
  Sorted by_value acc ->
  Sorted by_value (foldl (fun ixs i => insert_ix a i ixs) acc l) /\
  foldl (fun ixs i => insert_ix a i ixs) acc l ≡ₚ acc ++ l.
Proof.
  revert acc. induction l as [|i l IH]; intros acc Hs; cbn [foldl].
  - by rewrite app_nil_r.
  - destruct (IH (insert_ix a i acc)) as [Hs' Hp]; [by apply insert_ix_sorted|].
    split; [done|]. rewrite Hp, insert_ix_perm. simpl. apply Permutation_middle.
Qed.

(** [np.argsort] returns the positions of [a], each once, ordered by the
    value held there. *)
Lemma argsort_sorted :
  Sorted by_value (argsort a) /\ argsort a ≡ₚ seq 0 (length a).
Proof.
  unfold argsort. apply (insert_all_sorted _ []). constructor.
Qed.

End ArgsortFacts.

Lemma collect_ancestries_lookup (ancestries : gmap string nat)
    (keys : list string) (a : list nat) :
  collect_ancestries ancestries keys = Ok a ->
  length a = length keys /\
  forall i key, keys !! i = Some key -> ancestries !! key = Some (a !!! i).
Proof.
  revert a. induction keys as [|k keys IH]; intros a H; simpl in H.
  - inversion H; subst. split; [done|]. intros i key Hi. by destruct i.
  - destruct (ancestries !! k) as [d|] eqn:Hd; [|discriminate].
    destruct (collect_ancestries ancestries keys) as [rest|e]; [|discriminate].
    simpl in H. inversion H; subst a; clear H.
    destruct (IH rest eq_refl) as [Hlen Hlook].
    split; [simpl; congruence|].
    intros [|i] key Hi; simpl in *; [congruence | by apply Hlook].
Qed.

Lemma take_ixs_depths (ancestries : gmap string nat) (keys : list string)
    (a : list nat) (ixs : list nat) :
  (forall i key, keys !! i = Some key -> ancestries !! key = Some (a !!! i)) ->
  Forall (fun i => (i < length keys)%nat) ixs ->
  depths_in_order ancestries (take_ixs keys ixs) = (fun i => a !!! i) <$> ixs.
Proof.
  intros Hlook. unfold depths_in_order, take_ixs.
  induction 1 as [|i ixs Hi _ IH]; [done|]. cbn.
  destruct (lookup_lt_is_Some_2 keys i Hi) as [key Hkey].
  rewrite Hkey. cbn. rewrite (Hlook i key Hkey). cbn. by rewrite IH.
Qed.

Section OrderFacts.

Context {RNG : Type}.
Context (stoch_random : string -> gmap string Q -> RNG -> Q * RNG).

(** C9, as the code has it.  [random_draw_from_Model] draws the free
    variables in an order that lists each of them once and in which the
    ancestry depth never decreases.  Phase A of [pre_tune] takes the
    parameters in the order of [keys()], whatever their depths. *)
Theorem draw_order_by_depth (keys : list string)
    (ancestries : gmap string nat) (vals : gmap string Q) (g : RNG)
    (a : list nat) :
  collect_ancestries ancestries keys = Ok a ->
  let order := take_ixs keys (argsort a) in
  random_draw_from_Model RNG stoch_random keys ancestries vals g
    = for_each (draw RNG stoch_random) order (vals, g) /\
  order ≡ₚ keys /\
  Sorted le (depths_in_order ancestries order) /\
  phaseA_order keys = keys.
Proof.
  intros Ha order.
  destruct (collect_ancestries_lookup _ _ _ Ha) as [Hlen Hlook].
  destruct (argsort_sorted a) as [Hsorted Hperm].
  split; [|split; [|split]].
  - unfold random_draw_from_Model. by rewrite Ha.
  - unfold order, take_ixs. rewrite Hperm, Hlen.
    by rewrite <- (phaseA_order_keys keys) at 2.
  - unfold order. rewrite (take_ixs_depths ancestries keys a).
    + clear -Hsorted. induction Hsorted as [|i ixs _ IH Hhd]; [constructor|].
      cbn. constructor; [done|]. destruct Hhd; cbn; by constructor.
    + exact Hlook.
    + rewrite Hperm, <- Hlen. apply Forall_forall. intros i Hi.
      apply elem_of_seq in Hi. lia.
  - apply phaseA_order_keys.
Qed.

End OrderFacts.

(** C9 as stated fails for [pre_tune].  For the chain [A -> B -> C] of the
    specification, with [keys()] in the order CPython 2.7 gives them,
    phase A tunes [A], then [C], then [B]: depths 1, 3, 2. *)
Lemma pre_tune_order_not_by_depth :
  exists ancestries,
    trace_ancestries 4 Demo.free_ABC ∅ = Some (Ok ancestries) /\
    phaseA_order (Demo.free_ABC.*1) = ["A"; "C"; "B"] /\
    depths_in_order ancestries (phaseA_order (Demo.free_ABC.*1))
      = [1; 3; 2]%nat /\
    ~ Sorted le (depths_in_order ancestries (phaseA_order (Demo.free_ABC.*1))).
Proof.
  eexists. split; [vm_compute; reflexivity|].
  split; [reflexivity|]. split; [vm_compute; reflexivity|].
  intros H. vm_compute in H.
  inversion H as [|? ? H1 _]; subst. inversion H1 as [|? ? _ H2]; subst.
  inversion H2; subst. lia.
Qed.

(** ** The theorems at work on the small model *)

Lemma keys_x_reserved : ("logp" ∉ Demo.keys_x) /\ ("accepted" ∉ Demo.keys_x).
Proof.
  split; intros H; apply list_elem_of_singleton in H; discriminate H.
Qed.

(** Five intervals of five turns with one acceptance each: five successes
    in a row, and the step size of [x] goes from 1 to 0.3. *)
Lemma phaseA_success_rule_witness :
  exists l,
    run_turns (Demo.turnA_x 100 5) 25 (initA 5 (Demo.tuner_x Demo.tape_25))
      = Some l /\
    a_nsuccess l = 5%nat /\
    Demo.turnA_x 100 5 l = Break (converged "x" 1 l) /\
    for_each (Demo.tuneA_x 100 5) ["x"] (Demo.tuner_x Demo.tape_25)
      = Ok (a_state (converged "x" 1 l)).
Proof.
  eexists. split; [vm_compute; reflexivity|]. split; [reflexivity|].
  match goal with
  | |- Demo.turnA_x _ _ ?l = _ /\ _ =>
      destruct (phaseA_success_rule Demo.tape_normal Demo.tape_random
                  Demo.exp_approx Demo.logp_x 100 5 Demo.keys_x Demo.vals_x
                  "x" 1 l ltac:(reflexivity)) as (_ & _ & _ & Hconv)
  end.
  destruct (Hconv ltac:(vm_compute; lia)) as (Hbreak & _ & Hnext).
  split; [exact Hbreak|].
  apply (Hnext (Demo.tuner_x Demo.tape_25) 25%nat []).
  apply run_turns_reaches. vm_compute. reflexivity.
Defined.

(** The first interval of phase B on [x]: one acceptance in five turns, a
    success, and [rescale_factor] is 1.0 afterwards. *)
Lemma phaseB_rescale_rule_witness :
  exists l l',
    run_turns (Demo.turnB_x 100 5) 4
      (initB Demo.logp_x Demo.sqrt_poly 5 Demo.keys_x
         (Demo.tuner_x Demo.tape_25)) = Some l /\
    Demo.turnB_x 100 5 l = Continue l' /\
    b_nsuccess l' = S (b_nsuccess l) /\ b_rescale_factor l' = 1.0.
Proof.
  eexists; eexists. split; [vm_compute; reflexivity|].
  split; [vm_compute; reflexivity|].
  match goal with
  | |- b_nsuccess ?l' = S (b_nsuccess ?l) /\ _ =>
      destruct (phaseB_rescale_rule Demo.tape_normal Demo.tape_random
                  Demo.exp_approx Demo.logp_x Demo.sqrt_poly 100 5
                  Demo.keys_x Demo.vals_x (Demo.tuner_x Demo.tape_25) l)
        as (_ & _ & Hturn);
      destruct (Hturn l' ltac:(vm_compute; reflexivity)) as (_ & _ & Hend)
  end.
  apply Hend; [reflexivity|]. split; vm_compute; discriminate.
Defined.

(** A budget of two turns is spent in the first interval of phase A. *)
Lemma pre_tune_budget_exhausted_witness :
  Demo.pre_tune_x 2 5 Demo.keys_x Demo.vals_x Demo.steps_x Demo.tape_25
  = Raise (StandardError
             (("Aborting tuning - exceeded " +:+ "2" +:+ " steps")
                +:+ (newline +:+ "...consider reducing tune_interval"))).
Proof.
  apply (pre_tune_budget_exhausted Demo.tape_normal Demo.tape_random
           Demo.exp_approx Demo.logp_x Demo.sqrt_poly 2 5 Demo.keys_x
           Demo.vals_x Demo.steps_x Demo.tape_25).
  - intros key Hkey. apply list_elem_of_singleton in Hkey. subst key.
    exists 1. reflexivity.
  - left.
    exists [], "x", [].
    eexists; eexists 2%nat; eexists.
    split; [reflexivity|]. split; [reflexivity|].
    split; [apply run_turns_reaches; vm_compute; reflexivity|].
    split; [reflexivity | vm_compute; lia].
Defined.

(** The chain [A -> B -> C] is drawn in the order [A], [B], [C]. *)
Lemma draw_order_by_depth_witness :
  take_ixs (Demo.free_ABC.*1) (argsort [1; 3; 2]%nat) = ["A"; "B"; "C"] /\
  Sorted le
    (depths_in_order (<["B" := 2%nat]> (<["C" := 3%nat]> (<["A" := 1%nat]> ∅)))
       (take_ixs (Demo.free_ABC.*1) (argsort [1; 3; 2]%nat))).
Proof.
  split; [reflexivity|].
  apply (draw_order_by_depth Demo.prior_draw (Demo.free_ABC.*1)
           (<["B" := 2%nat]> (<["C" := 3%nat]> (<["A" := 1%nat]> ∅)))
           Demo.vals_x [] [1; 3; 2]%nat).
  vm_compute. reflexivity.
Defined.

(** * Further properties *)

(** ** The two tables of [pre_tune], as wholes *)

(** X1.  The table of phase A steers towards the band: below an
    acceptance fraction of 0.2 it shrinks a positive step size, above 0.35
    it stretches it, at 0.2 and from 0.25 to 0.35 it leaves it alone; and
    it never changes a step size by more than a factor of 5. *)
Theorem adjust_step_size_direction (a step : Q) :
  0 < step ->
  (a < 0.2 -> adjust_step_size a step < step) /\
  (0.35 < a -> step < adjust_step_size a step) /\
  (a == 0.2 \/ (0.25 <= a /\ a <= 0.35) -> adjust_step_size a step = step) /\
  step / 5.0 <= adjust_step_size a step /\ adjust_step_size a step <= step * 5.0.
Proof.
  intros Hpos. unfold adjust_step_size.
  repeat split.
  - intros Ha. repeat (next_branch; to_prop; try (exfalso; lra)).
    all: unfold Qdiv; cbn [Qinv Qnum Qden]; lra.
  - intros Ha. repeat (next_branch; to_prop; try (exfalso; lra)).
    all: unfold Qdiv; cbn [Qinv Qnum Qden]; lra.
  - intros Ha. repeat (next_branch; to_prop; try (exfalso; lra)).
    all: try reflexivity.
  - repeat (next_branch; to_prop; try (exfalso; lra)).
    all: unfold Qdiv; cbn [Qinv Qnum Qden]; lra.
  - repeat (next_branch; to_prop; try (exfalso; lra)).
    all: unfold Qdiv; cbn [Qinv Qnum Qden]; lra.
Qed.

(** X2.  The table of phase B: after an interval that is no success the
    new [rescale_factor] does not depend on the old one; it lies in
    [[1/2, 1)] for an acceptance fraction below 0.2 and in [(1, 2]] for one
    above 0.35. *)
Theorem rescale_table_direction (a r r' : Q) :
  ~ (0.2 <= a /\ a <= 0.35) ->
  rescale_table a r = rescale_table a r' /\
  (a < 0.2 -> 1 / 2.0 <= rescale_table a r /\ rescale_table a r < 1) /\
  (0.35 < a -> 1 < rescale_table a r /\ rescale_table a r <= 2).
Proof.
  intros Hband. unfold rescale_table.
  assert (Hcases : a < 0.2 \/ 0.35 < a).
  { destruct (Qlt_le_dec a 0.2) as [H|H]; [by left|].
    destruct (Qlt_le_dec 0.35 a) as [H'|H']; [by right|]. tauto. }
  clear Hband. split; [|split].
  - repeat (next_branch; to_prop; try (exfalso; lra)); reflexivity.
  - intros Ha. repeat (next_branch; to_prop; try (exfalso; lra)).
    all: unfold Qdiv; cbn [Qinv Qnum Qden]; lra.
  - intros Ha. repeat (next_branch; to_prop; try (exfalso; lra)).
    all: unfold Qdiv; cbn [Qinv Qnum Qden]; lra.
Qed.

Lemma rescale_table_pos (a r : Q) : 0 < r -> 0 < rescale_table a r.
Proof.
  intros Hr. unfold rescale_table.
  repeat (next_branch; to_prop; try (exfalso; lra)).
  all: unfold Qdiv; cbn [Qinv Qnum Qden]; lra.
Qed.

Lemma adjust_step_size_pos (a step : Q) : 0 < step -> 0 < adjust_step_size a step.
Proof.
  intros Hpos. unfold adjust_step_size.
  repeat (next_branch; to_prop; try (exfalso; lra)).
  all: unfold Qdiv; cbn [Qinv Qnum Qden]; lra.
Qed.

(** ** Loops that raise *)

Lemma while_loop_raise_inv {St : Type} (body : St -> outcome St)
    (turns : nat) (s : St) (e : exn) :
  while_loop body turns s = Raise e ->
  exists k l, (k < turns)%nat /\ reaches body k s l /\ body l = Raised e.
Proof.
  revert s. induction turns as [|turns IH]; intros s H; simpl in H; [discriminate|].
  destruct (body s) as [s1|s1|e'] eqn:E; [|discriminate|].
  - destruct (IH s1 H) as (k & l & Hk & Hr & Hb).
    exists (S k), l. split; [lia|]. split; [|done]. econstructor; eauto.
  - inversion H; subst. exists 0%nat, s. split; [lia|]. split; [constructor|done].
Qed.

Lemma for_each_raise_inv {A St : Type} (body : A -> St -> result St)
    (xs : list A) (s : St) (e : exn) :
  for_each body xs s = Raise e ->
  exists pre x post s', xs = pre ++ x :: post /\
    for_each body pre s = Ok s' /\ body x s' = Raise e.
Proof.
  revert s. induction xs as [|x xs IH]; intros s H; simpl in H; [discriminate|].
  destruct (body x s) as [s1|e'] eqn:E; simpl in H.
  - destruct (IH s1 H) as (pre & y & post & s' & Hxs & Hpre & Hy).
    exists (x :: pre), y, post, s'. split; [by rewrite Hxs|].
    split; [simpl; by rewrite E | done].
  - inversion H; subst. exists [], x, xs, s. done.
Qed.

Lemma reaches_keeps {St : Type} (body : St -> outcome St) (Inv : St -> Prop) :
  (forall s s', Inv s -> body s = Continue s' -> Inv s') ->
  forall k s s', reaches body k s s' -> Inv s -> Inv s'.
Proof.
  intros Hstep k s s' Hr. induction Hr; eauto.
Qed.

Section TunerFacts.

Context {RNG : Type}.
Context (proposal_distribution : Q -> Q -> RNG -> Q * RNG).
Context (np_random : RNG -> Q * RNG) (np_exp : Q -> Q).
Context (logp : gmap string Q -> Q) (np_sqrt : Q -> Q).
Context (m n : nat) (keys : list string) (orig : gmap string Q).

Local Abbreviation turnA :=
  (phaseA_turn RNG proposal_distribution np_random np_exp logp m n keys orig).
Local Abbreviation tuneA :=
  (tune_parameter RNG proposal_distribution np_random np_exp logp m n keys orig).
Local Abbreviation turnB :=
  (phaseB_turn RNG proposal_distribution np_random np_exp logp m n keys orig).
Local Abbreviation perturb := (perturb_key RNG proposal_distribution).

(** The one way each turn of phase A changes the step sizes. *)
Lemma phaseA_turn_step_sizes (key_j : string) (l l' : loopA RNG) :
  turnA key_j l = Continue l' \/ turnA key_j l = Break l' ->
  exists sz sz',
    step_sizes (a_state l) !! key_j = Some sz /\
    (0 < sz -> 0 < sz') /\
    (step_sizes (a_state l') = <[key_j := sz']> (step_sizes (a_state l)) \/
     step_sizes (a_state l') = step_sizes (a_state l)).
Proof.
  unfold phaseA_turn.
  destruct (step_sizes (a_state l) !! key_j) as [sz|] eqn:Hss;
    [|intros [H|H]; discriminate].
  destruct (nconsecutive <=? a_nsuccess l)%nat.
  - intros [H|H]; [discriminate|]. inversion H; subst l'. simpl.
    exists sz, (sz * 0.3). split; [done|]. split; [intros; lra | by left].
  - destruct (a_i l =? m)%nat; [intros [H|H]; discriminate|].
    destruct n as [|n']; [intros [H|H]; discriminate|].
    set (k := (a_i l mod S n')%nat). set (last := (S n' - 1)%nat).
    destruct (proposal_distribution 0 sz (rng (a_state l))) as [d g].
    destruct (decide np_random np_exp _ _ g) as [dec g'].
    cbv zeta. destruct (k =? last)%nat;
      (intros [H|H]; [|discriminate]); inversion H; subst l'; simpl.
    + eexists sz, _. split; [done|].
      split; [apply adjust_step_size_pos | by left].
    + exists sz, sz. split; [done|]. split; [done | by right].
Qed.

Lemma phaseA_turn_raised (key_j : string) (l : loopA RNG) (e : exn) :
  turnA key_j l = Raised e ->
  (e = KeyError key_j /\ step_sizes (a_state l) !! key_j = None) \/
  (e = StandardError (err_str m) /\ a_i l = m) \/
  (e = ZeroDivisionError /\ n = 0%nat).
Proof.
  unfold phaseA_turn.
  destruct (step_sizes (a_state l) !! key_j) as [sz|] eqn:Hss.
  - destruct (nconsecutive <=? a_nsuccess l)%nat; [discriminate|].
    destruct (a_i l =? m)%nat eqn:Hi.
    + intros H. inversion H. right. left. by apply Nat.eqb_eq in Hi.
    + destruct n as [|n']; [intros H; inversion H; by right; right|].
      set (k := (a_i l mod S n')%nat). set (last := (S n' - 1)%nat).
      destruct (proposal_distribution 0 sz (rng (a_state l))) as [d g].
      destruct (decide np_random np_exp _ _ g) as [dec g'].
      cbv zeta. destruct (k =? last)%nat; discriminate.
  - intros H. inversion H. by left.
Qed.

(** Whatever the [for] loop of phase B does to the step sizes, it does by
    scaling the step size of one of the keys. *)
Lemma perturb_step_sizes (Pm : gmap string Q -> Prop) (k : nat) (r : Q)
    (ks : list string) :
  (forall ss key sz, key ∈ ks -> ss !! key = Some sz -> Pm ss ->
     Pm (<[key := sz * r]> ss)) ->
  forall (ss vals : gmap string Q) (g : RNG) (ss' vals' : gmap string Q) (g' : RNG),
  for_each (perturb k r) ks (ss, vals, g) = Ok (ss', vals', g') ->
  Pm ss -> Pm ss'.
Proof.
  induction ks as [|k0 ks IH]; intros Hclosed ss vals g ss' vals' g' H HP;
    simpl in H.
  - by inversion H; subst.
  - destruct (ss !! k0) as [sz|] eqn:Hsz; [|discriminate H]. simpl in H.
    destruct (proposal_distribution 0 _ g) as [d g1]. simpl in H.
    eapply IH; [|exact H|].
    + intros ss0 key sz0 Hin Hk HP0.
      apply (Hclosed ss0 key sz0); [by right|done..].
    + destruct (k =? 0)%nat; [|done]. apply (Hclosed ss k0 sz); [left|done..].
Qed.

Lemma perturb_raised (k : nat) (r : Q) (ks : list string)
    (ss vals : gmap string Q) (g : RNG) (e : exn) :
  for_each (perturb k r) ks (ss, vals, g) = Raise e ->
  exists key, key ∈ ks /\ e = KeyError key /\ ss !! key = None.
Proof.
  intros H. apply for_each_raise_inv in H.
  destruct H as (pre & x & post & [[ss1 vals1] g1] & Hks & Hpre & Hx).
  exists x. split; [rewrite Hks; apply elem_of_app; right; left|].
  simpl in Hx. destruct (ss1 !! x) as [sz|] eqn:Hsz.
  - destruct (proposal_distribution 0 _ g1); discriminate.
  - inversion Hx. split; [done|].
    destruct (ss !! x) as [sz|] eqn:Hss; [|done]. exfalso.
    assert (is_Some (ss1 !! x)) as [sz1 Hsz1]; [|congruence].
    revert Hpre. generalize (ex_intro (fun sz => ss !! x = Some sz) sz Hss).
    intros HP Hpre.
    eapply (perturb_step_sizes (fun ss => is_Some (ss !! x))); [|exact Hpre|exact HP].
    intros ss0 key sz0 _ Hkey [y Hy].
    destruct (String.string_dec key x) as [->|Hne].
    + rewrite lookup_insert_eq. eauto.
    + rewrite lookup_insert_ne by done. eauto.
Qed.

Lemma phaseB_turn_raised (l : loopB RNG) (e : exn) :
  turnB l = Raised e ->
  (exists key, key ∈ keys /\ e = KeyError key /\
               step_sizes (b_state l) !! key = None) \/
  (e = StandardError (err_str m) /\ b_i l = m) \/
  (e = ZeroDivisionError /\ n = 0%nat).
Proof.
  unfold phaseB_turn.
  destruct (nconsecutive <=? b_nsuccess l)%nat; [discriminate|].
  destruct (b_i l =? m)%nat eqn:Hi.
  - intros H. inversion H. right. left. by apply Nat.eqb_eq in Hi.
  - destruct n as [|n']; [intros H; inversion H; by right; right|].
    set (k := (b_i l mod S n')%nat). set (last := (S n' - 1)%nat).
    destruct (for_each _ _ _) as [[[ss vals1] g]|e'] eqn:Hp.
    + destruct (decide np_random np_exp _ _ g) as [dec g'].
      cbv zeta. destruct (k =? last)%nat; [|discriminate].
      destruct (successB _); discriminate.
    + intros H. inversion H; subst e'. left. by apply perturb_raised in Hp.
Qed.

(** What a turn of phase B that falls through does to the step sizes and to
    [rescale_factor]; [pos] switches the bookkeeping of signs on. *)
Lemma phaseB_turn_step_sizes (pos : Prop) (Pm : gmap string Q -> Prop)
    (l l' : loopB RNG) :
  (forall ss key sz sz', key ∈ keys -> ss !! key = Some sz ->
     (pos -> 0 < sz -> 0 < sz') -> Pm ss -> Pm (<[key := sz']> ss)) ->
  turnB l = Continue l' ->
  (pos -> 0 < b_rescale_factor l) -> Pm (step_sizes (b_state l)) ->
  (pos -> 0 < b_rescale_factor l') /\ Pm (step_sizes (b_state l')).
Proof.
  intros Hclosed. unfold phaseB_turn.
  destruct (nconsecutive <=? b_nsuccess l)%nat; [discriminate|].
  destruct (b_i l =? m)%nat; [discriminate|].
  destruct n as [|n']; [discriminate|].
  set (k := (b_i l mod S n')%nat). set (last := (S n' - 1)%nat).
  destruct (for_each _ _ _) as [[[ss vals1] g]|e'] eqn:Hp; [|discriminate].
  destruct (decide np_random np_exp _ _ g) as [dec g'].
  cbv zeta. intros H Hr HP.
  assert (HP' : Pm ss).
  { eapply (perturb_step_sizes Pm); [|exact Hp|exact HP].
    intros ss0 key sz0 Hin Hkey. apply (Hclosed ss0 key sz0); [done..|].
    intros Hpos Hsz. apply Qmult_lt_0_compat; auto. }
  destruct (k =? last)%nat.
  - destruct (successB _); inversion H; subst l'; simpl; split; try done.
    intros Hpos. apply rescale_table_pos. auto.
  - inversion H; subst l'; simpl. done.
Qed.

Lemma phaseB_turn_nsuccess (l l' : loopB RNG) :
  turnB l = Continue l' ->
  (b_nsuccess l * n <= b_i l)%nat -> (b_nsuccess l' * n <= b_i l')%nat.
Proof.
  intros Ht Hinv. apply phaseB_turn_continue in Ht.
  destruct Ht as (Hi & _ & _ & Hn & _ & Hend). rewrite Hi.
  destruct (b_i l mod n =? n - 1)%nat eqn:Hk.
  - apply Nat.eqb_eq in Hk. cbv zeta in Hend.
    assert (Hle : (b_nsuccess l' <= S (b_nsuccess l))%nat)
      by (destruct (successB _); destruct Hend as [-> _]; lia).
    pose proof (Nat.div_mod_eq (b_i l) n) as Hdiv. rewrite Hk in Hdiv.
    assert ((b_nsuccess l <= b_i l / n)%nat) by nia. nia.
  - destruct Hend as [-> _]. lia.
Qed.

(** Phase A, for any of the free parameters. *)
Lemma phaseA_step_sizes (pos : Prop) (Pm : gmap string Q -> Prop) :
  (forall ss key sz sz', key ∈ keys -> ss !! key = Some sz ->
     (pos -> 0 < sz -> 0 < sz') -> Pm ss -> Pm (<[key := sz']> ss)) ->
  forall (ks : list string) (t t' : tuner RNG),
  (forall key, key ∈ ks -> key ∈ keys) ->
  for_each tuneA ks t = Ok t' -> Pm (step_sizes t) -> Pm (step_sizes t').
Proof.
  intros Hclosed ks. induction ks as [|key ks IH]; intros t t' Hsub HA HP;
    simpl in HA.
  - by inversion HA; subst.
  - destruct (tuneA key t) as [t1|e] eqn:Hk; [|discriminate].
    simpl in HA. eapply IH; [|exact HA|].
    + intros k Hk'. apply Hsub. by right.
    + unfold tune_parameter in Hk.
      destruct (while_loop _ _ _) as [l0|e] eqn:Hw; [|discriminate].
      simpl in Hk. inversion Hk; subst t1. revert Hw.
      apply (while_loop_invariant (turnA key)
               (fun l => Pm (step_sizes (a_state l)))); [| |exact HP].
      * intros s s' Hs Hc.
        destruct (phaseA_turn_step_sizes key s s' (or_introl Hc))
          as (sz & sz' & Hsz & Hpos & [-> | ->]); [|done].
        apply (Hclosed _ key sz); [apply Hsub; left|done|auto|done].
      * intros s s' Hs Hb.
        destruct (phaseA_turn_step_sizes key s s' (or_intror Hb))
          as (sz & sz' & Hsz & Hpos & [-> | ->]); [|done].
        apply (Hclosed _ key sz); [apply Hsub; left|done|auto|done].
Qed.

Lemma phaseB_turn_break (l l' : loopB RNG) : turnB l = Break l' -> l' = l.
Proof.
  unfold phaseB_turn.
  destruct (nconsecutive <=? b_nsuccess l)%nat; [by intros H; inversion H|].
  destruct (b_i l =? m)%nat; [discriminate|].
  destruct n; [discriminate|].
  destruct (for_each _ _ _) as [[[ss0 vals1] g0]|e]; [|discriminate].
  destruct (decide _ _ _ _ _) as [dec g1].
  cbv zeta. destruct (_ =? _)%nat; [|discriminate].
  destruct (successB _); discriminate.
Qed.

Lemma reaches_phaseB_nsuccess (k : nat) (l0 l : loopB RNG) :
  reaches turnB k l0 l ->
  b_nsuccess l0 = 0%nat -> b_i l0 = 0%nat ->
  (b_nsuccess l * n <= b_i l)%nat /\ (b_i l <= m)%nat /\
  ((0 < b_nsuccess l)%nat -> (0 < n)%nat).
Proof.
  intros Hr Hn0 Hi0.
  apply (reaches_keeps turnB
           (fun l => (b_nsuccess l * n <= b_i l)%nat /\ (b_i l <= m)%nat /\
                     ((0 < b_nsuccess l)%nat -> (0 < n)%nat)) ) with (k := k) (s := l0);
    [|done|rewrite Hn0, Hi0; lia].
  intros s s' (H1 & H2 & H3) Hs.
  pose proof (phaseB_turn_nsuccess _ _ Hs H1).
  apply phaseB_turn_continue in Hs. destruct Hs as (Hi & Hm & _ & Hpos & _).
  split; [done|]. split; [lia|done].
Qed.

(** The values [pre_tune] writes are values of free parameters. *)
Section ValuesKept.

Context (Pv : gmap string Q -> Prop).
Context (Hclosed : forall (v : gmap string Q) (key : string) (x : Q),
           key ∈ keys -> Pv v -> Pv (<[key := x]> v)).

Lemma assign_all_keeps (ks : list string) (src dst : gmap string Q) :
  (forall key, key ∈ ks -> key ∈ keys) -> Pv dst -> Pv (assign_all ks src dst).
Proof.
  unfold assign_all. revert dst.
  induction ks as [|k ks IH]; intros dst Hsub HP; cbn [foldl]; [done|].
  apply IH; [intros key Hk; apply Hsub; by right|].
  apply Hclosed; [apply Hsub; left | done].
Qed.

Lemma phaseA_turn_values (key_j : string) (l l' : loopA RNG) :
  turnA key_j l = Continue l' \/ turnA key_j l = Break l' ->
  key_j ∈ keys -> Pv (values (a_state l)) -> Pv (values (a_state l')).
Proof.
  unfold phaseA_turn.
  destruct (step_sizes (a_state l) !! key_j) as [sz|] eqn:Hss;
    [|intros [H|H]; discriminate].
  destruct (nconsecutive <=? a_nsuccess l)%nat.
  - intros [H|H]; [discriminate|]. by inversion H; subst l'.
  - destruct (a_i l =? m)%nat; [intros [H|H]; discriminate|].
    destruct n as [|n']; [intros [H|H]; discriminate|].
    set (k := (a_i l mod S n')%nat). set (last := (S n' - 1)%nat).
    destruct (proposal_distribution 0 sz (rng (a_state l))) as [d g].
    destruct (decide np_random np_exp _ _ g) as [dec g'].
    cbv zeta. intros H Hkey HP.
    assert (HP0 : Pv (if (k =? 0)%nat
                      then assign_all keys orig (values (a_state l))
                      else values (a_state l))).
    { destruct (k =? 0)%nat; [by apply assign_all_keeps | done]. }
    destruct (k =? last)%nat;
      (destruct H as [H|H]; [|discriminate]); inversion H; subst l'; simpl;
      destruct dec; auto.
Qed.

Lemma perturb_values (k : nat) (r : Q) (ks : list string) :
  (forall key, key ∈ ks -> key ∈ keys) ->
  forall (ss vals : gmap string Q) (g : RNG) (ss' vals' : gmap string Q) (g' : RNG),
  for_each (perturb k r) ks (ss, vals, g) = Ok (ss', vals', g') ->
  Pv vals -> Pv vals'.
Proof.
  induction ks as [|k0 ks IH]; intros Hsub ss vals g ss' vals' g' H HP;
    simpl in H.
  - by inversion H; subst.
  - destruct (ss !! k0) as [sz|] eqn:Hsz; [|discriminate H]. simpl in H.
    destruct (proposal_distribution 0 _ g) as [d g1]. simpl in H.
    eapply IH; [|exact H|].
    + intros key Hk. apply Hsub. by right.
    + apply Hclosed; [apply Hsub; left | done].
Qed.

Lemma phaseB_turn_values (l l' : loopB RNG) :
  turnB l = Continue l' ->
  Pv (values (b_state l)) -> Pv (values (b_state l')).
Proof.
  unfold phaseB_turn.
  destruct (nconsecutive <=? b_nsuccess l)%nat; [discriminate|].
  destruct (b_i l =? m)%nat; [discriminate|].
  destruct n as [|n']; [discriminate|].
  set (k := (b_i l mod S n')%nat). set (last := (S n' - 1)%nat).
  destruct (for_each _ _ _) as [[[ss vals1] g]|e'] eqn:Hp; [|discriminate].
  destruct (decide np_random np_exp _ _ g) as [dec g'].
  cbv zeta. intros H HP.
  assert (HP1 : Pv vals1).
  { eapply perturb_values; [done|exact Hp|].
    destruct (k =? 0)%nat; [by apply assign_all_keeps | done]. }
  assert (HP2 : Pv (if dec then vals1
                    else assign_all keys (current_values (b_state l)) vals1)).
  { destruct dec; [done | by apply assign_all_keeps]. }
  destruct (k =? last)%nat; [destruct (successB _)|];
    inversion H; subst l'; simpl; done.
Qed.

Lemma phaseA_values (ks : list string) (t t' : tuner RNG) :
  (forall key, key ∈ ks -> key ∈ keys) ->
  for_each tuneA ks t = Ok t' -> Pv (values t) -> Pv (values t').
Proof.
  revert t. induction ks as [|key ks IH]; intros t Hsub HA HP; simpl in HA.
  - by inversion HA; subst.
  - destruct (tuneA key t) as [t1|e] eqn:Hk; [|discriminate].
    simpl in HA. eapply IH; [|exact HA|].
    + intros k Hk'. apply Hsub. by right.
    + unfold tune_parameter in Hk.
      destruct (while_loop _ _ _) as [l0|e] eqn:Hw; [|discriminate].
      simpl in Hk. inversion Hk; subst t1. revert Hw.
      apply (while_loop_invariant (turnA key)
               (fun l => Pv (values (a_state l)))); [| |exact HP].
      * intros s s' Hs Hc.
        apply (phaseA_turn_values key s s' (or_introl Hc)); [|done].
        apply Hsub; left.
      * intros s s' Hs Hb.
        apply (phaseA_turn_values key s s' (or_intror Hb)); [|done].
        apply Hsub; left.
Qed.

End ValuesKept.

End TunerFacts.

Section PreTuneMore.

Context {RNG : Type}.
Context (proposal_distribution : Q -> Q -> RNG -> Q * RNG).
Context (np_random : RNG -> Q * RNG) (np_exp : Q -> Q).
Context (logp : gmap string Q -> Q) (np_sqrt : Q -> Q).
Context (m n : nat) (keys : list string).

Local Abbreviation turnA :=
  (phaseA_turn RNG proposal_distribution np_random np_exp logp m n keys).
Local Abbreviation tuneA :=
  (tune_parameter RNG proposal_distribution np_random np_exp logp m n keys).
Local Abbreviation turnB :=
  (phaseB_turn RNG proposal_distribution np_random np_exp logp m n keys).
Local Abbreviation pre_tune' :=
  (pre_tune RNG proposal_distribution np_random np_exp logp np_sqrt m n keys).

(** A property of the step sizes that survives every update of the step
    size of a free parameter survives [pre_tune]. *)
Lemma pre_tune_step_sizes_invariant (pos : Prop) (Pm : gmap string Q -> Prop)
    (vals ss : gmap string Q) (g : RNG) (t : tuner RNG) :
  (forall ss key sz sz', key ∈ keys -> ss !! key = Some sz ->
     (pos -> 0 < sz -> 0 < sz') -> Pm ss -> Pm (<[key := sz']> ss)) ->
  (pos -> 0 < 1.0 / np_sqrt (float_of_nat (length keys))) ->
  pre_tune' vals ss g = Ok t -> Pm ss -> Pm (step_sizes t).
Proof.
  intros Hclosed Hsqrt. unfold pre_tune, phaseA, phaseB.
  rewrite phaseA_order_keys.
  set (orig := assign_all keys vals ∅).
  destruct (for_each _ _ _) as [t1|e] eqn:HA; [|discriminate]. cbn [bind].
  destruct (while_loop _ _ _) as [l|e] eqn:HB; [|discriminate]. cbn [bind].
  intros H HP. inversion H; subst t; clear H.
  assert (HP1 : Pm (step_sizes t1)).
  { eapply (phaseA_step_sizes _ _ _ _ _ _ _ _ pos Pm Hclosed keys); eauto. }
  apply (while_loop_invariant (turnB orig)
           (fun l => (pos -> 0 < b_rescale_factor l) /\
                     Pm (step_sizes (b_state l)))) in HB; [tauto| | |done].
  - intros s s' [Hr Hs] Hc. by eapply phaseB_turn_step_sizes.
  - intros s s' Hs Hb. by apply phaseB_turn_break in Hb; subst.
Qed.

(** X3.  [pre_tune] returns only after five successful intervals of
    phase B, so only if [tune_interval] is positive and [ntune_iterlim] is
    at least five intervals. *)
Theorem pre_tune_needs_five_intervals (vals ss : gmap string Q) (g : RNG)
    (t : tuner RNG) :
  pre_tune RNG proposal_distribution np_random np_exp logp np_sqrt
    m n keys vals ss g = Ok t -> (0 < n)%nat /\ (5 * n <= m)%nat.
Proof.
  unfold pre_tune.
  destruct (phaseA _ _ _ _ _ _ _ _ _ _) as [t1|e]; [|discriminate]. cbn [bind].
  intros HB. apply phaseB_ok in HB. destruct HB as (k & l & Hr & Hn & _).
  destruct (reaches_phaseB_nsuccess _ _ _ _ _ _ _ _ _ _ _ Hr eq_refl eq_refl)
    as (H1 & H2 & H3).
  split; [apply H3; lia | nia].
Qed.

(** What [pre_tune] can raise. *)
Lemma pre_tune_raises (vals ss : gmap string Q) (g : RNG) (e : exn) :
  pre_tune' vals ss g = Raise e ->
  e = StandardError (err_str m) \/
  (exists key, key ∈ keys /\ e = KeyError key /\ ss !! key = None) \/
  (e = ZeroDivisionError /\ n = 0%nat).
Proof.
  unfold pre_tune, phaseA, phaseB. rewrite phaseA_order_keys.
  set (orig := assign_all keys vals ∅). set (t0 := Tuner vals ss orig g).
  assert (Hclosed : forall key0 (ss0 : gmap string Q) (key : string) (sz sz' : Q),
    key ∈ keys -> ss0 !! key = Some sz -> (False -> 0 < sz -> 0 < sz') ->
    is_Some (ss0 !! key0) -> is_Some (<[key := sz']> ss0 !! key0)).
  { intros key0 ss0 key sz sz' _ _ _ Hsome.
    destruct (String.string_dec key key0) as [->|Hne].
    - rewrite lookup_insert_eq. eauto.
    - by rewrite lookup_insert_ne. }
  destruct (for_each _ _ _) as [t1|e1] eqn:HA; cbn [bind].
  - destruct (while_loop _ _ _) as [l|e2] eqn:HB; [discriminate|]. cbn [bind].
    intros H. inversion H; subst e2; clear H.
    apply while_loop_raise_inv in HB. destruct HB as (k & l & _ & Hr & Hb).
    apply phaseB_turn_raised in Hb.
    destruct Hb as [(key & Hin & -> & Hnone)|[[-> _]|[-> ->]]];
      [|by left|by right; right].
    right. left. exists key. split; [done|]. split; [done|].
    destruct (ss !! key) as [sz|] eqn:Hss; [|done]. exfalso.
    assert (H1 : is_Some (step_sizes t1 !! key)).
    { eapply (phaseA_step_sizes _ _ _ _ _ _ _ _ False _ (Hclosed key) keys);
        [done|exact HA|]. simpl. eauto. }
    assert (Hsome : (False -> 0 < b_rescale_factor l) /\
                    is_Some (step_sizes (b_state l) !! key)).
    { apply (reaches_keeps (turnB orig)
               (fun l => (False -> 0 < b_rescale_factor l) /\
                         is_Some (step_sizes (b_state l) !! key)))
        with (k := k) (s := initB logp np_sqrt n keys t1); [|done|done].
      intros s s' [Hr' Hs] Hc.
      by eapply (phaseB_turn_step_sizes _ _ _ _ _ _ _ _ False _ _ _ (Hclosed key)). }
    destruct Hsome as [_ [sz' Hsz']]. congruence.
  - intros H. inversion H; subst e1; clear H.
    apply for_each_raise_inv in HA.
    destruct HA as (pre & x & post & t' & Hkeys & Hpre & Hx).
    unfold tune_parameter in Hx.
    destruct (while_loop _ _ _) as [l|e2] eqn:Hw; [discriminate|].
    simpl in Hx. inversion Hx; subst e2; clear Hx.
    apply while_loop_raise_inv in Hw. destruct Hw as (k & l & _ & Hr & Hb).
    apply phaseA_turn_raised in Hb.
    destruct Hb as [[-> Hnone]|[[-> _]|[-> ->]]]; [|by left|by right; right].
    right. left. exists x.
    split; [rewrite Hkeys; apply elem_of_app; right; left|]. split; [done|].
    destruct (ss !! x) as [sz|] eqn:Hss; [|done]. exfalso.
    assert (H1 : is_Some (step_sizes t' !! x)).
    { revert Hpre. apply (for_each_invariant (tuneA orig)
        (fun t => is_Some (step_sizes t !! x))); [|simpl; eauto].
      intros y s s' Hs Hy. eapply tune_parameter_step_sizes; eauto. }
    destruct (reaches_phaseA _ _ _ _ _ _ _ _ _ _ _ _ Hr) as (_ & _ & Hdom).
    destruct (Hdom x H1). congruence.
Qed.

(** [pre_tune] writes no value but those of the free parameters. *)
Lemma pre_tune_values_invariant (Pv : gmap string Q -> Prop)
    (vals ss : gmap string Q) (g : RNG) (t : tuner RNG) :
  (forall (v : gmap string Q) (key : string) (x : Q),
     key ∈ keys -> Pv v -> Pv (<[key := x]> v)) ->
  pre_tune' vals ss g = Ok t -> Pv vals -> Pv (values t).
Proof.
  intros Hclosed. unfold pre_tune, phaseA, phaseB.
  rewrite phaseA_order_keys.
  set (orig := assign_all keys vals ∅).
  destruct (for_each _ _ _) as [t1|e] eqn:HA; [|discriminate]. cbn [bind].
  destruct (while_loop _ _ _) as [l|e] eqn:HB; [|discriminate]. cbn [bind].
  intros H HP. inversion H; subst t; clear H.
  assert (HP1 : Pv (values t1)).
  { eapply (phaseA_values _ _ _ _ _ _ _ _ Pv Hclosed keys); eauto. }
  revert HB.
  apply (while_loop_invariant (turnB orig) (fun l => Pv (values (b_state l))));
    [| |done].
  - intros s s' Hs Hc. by eapply phaseB_turn_values.
  - intros s s' Hs Hb. by apply phaseB_turn_break in Hb; subst.
Qed.

(** After [pre_tune] every free parameter has a step size. *)
Lemma pre_tune_ok_step_sizes (vals ss : gmap string Q) (g : RNG) (t : tuner RNG) :
  pre_tune' vals ss g = Ok t ->
  forall key, key ∈ keys -> is_Some (ss !! key).
Proof.
  intros Hrun key Hkey.
  destruct (ss !! key) as [sz|] eqn:Hss; [eauto|]. exfalso.
  revert Hrun. unfold pre_tune, phaseA, phaseB. rewrite phaseA_order_keys.
  set (orig := assign_all keys vals ∅).
  destruct (for_each _ _ _) as [t1|e] eqn:HA; [|discriminate]. intros _.
  apply list_elem_of_split in Hkey. destruct Hkey as (pre & post & Hkeys).
  rewrite Hkeys in HA at 2. rewrite for_each_app in HA.
  destruct (for_each _ pre _) as [t2|e] eqn:Hpre; [|discriminate].
  cbn [bind for_each] in HA.
  destruct (tuneA orig key t2) as [t3|e] eqn:Hk; [|discriminate].
  assert (Hnone : step_sizes t2 !! key = None).
  { apply (phaseA_step_sizes proposal_distribution np_random np_exp logp
             m n keys orig False
             (fun ss0 => ss0 !! key = None)) with (ks := pre) (t := Tuner vals ss orig g);
      [| |exact Hpre|done].
    - intros ss0 key0 sz sz' _ Hkey0 _ Hnone.
      rewrite lookup_insert_ne; [done|]. intros ->. congruence.
    - intros k Hk'. rewrite Hkeys. apply elem_of_app. by left. }
  unfold tune_parameter in Hk.
  replace (m + 1)%nat with (S m) in Hk by lia. simpl in Hk.
  unfold phaseA_turn in Hk at 1. simpl in Hk. rewrite Hnone in Hk. discriminate.
Qed.

(** X5.  What [pre_tune] leaves alone when it returns: the names that have
    a step size are the same as before, the step sizes and the values of
    everything but the free parameters are unchanged, and step sizes that
    were positive are positive (given that [np.sqrt( npars )] is). *)
Theorem pre_tune_step_sizes (vals ss : gmap string Q) (g : RNG) (t : tuner RNG) :
  pre_tune RNG proposal_distribution np_random np_exp logp np_sqrt
    m n keys vals ss g = Ok t ->
  (forall name, is_Some (step_sizes t !! name) <-> is_Some (ss !! name)) /\
  (forall name, name ∉ keys ->
     step_sizes t !! name = ss !! name /\ values t !! name = vals !! name) /\
  (0 < np_sqrt (float_of_nat (length keys)) ->
   (forall name sz, ss !! name = Some sz -> 0 < sz) ->
   forall name sz, step_sizes t !! name = Some sz -> 0 < sz).
Proof.
  intros Hrun. split; [|split].
  - intros name. split.
    + intros Hsome. destruct (ss !! name) as [sz|] eqn:Hss; [eauto|]. exfalso.
      assert (Hnone : step_sizes t !! name = None);
        [|destruct Hsome; congruence].
      revert Hss.
      apply (pre_tune_step_sizes_invariant False
               (fun ss0 => ss0 !! name = None) vals ss g t); [|done|done].
      intros ss0 key sz sz' _ Hkey _ Hnone.
      rewrite lookup_insert_ne; [done|]. intros ->. congruence.
    + apply (pre_tune_step_sizes_invariant False
               (fun ss0 => is_Some (ss0 !! name)) vals ss g t); [|done|done].
      intros ss0 key sz sz' _ _ _ Hsome.
      destruct (String.string_dec key name) as [->|Hne].
      * rewrite lookup_insert_eq. eauto.
      * by rewrite lookup_insert_ne.
  - intros name Hout. split.
    + apply (pre_tune_step_sizes_invariant False
               (fun ss0 => ss0 !! name = ss !! name) vals ss g t);
        [|done|done|done].
      intros ss0 key sz sz' Hin _ _ Hsame.
      rewrite lookup_insert_ne; [done|]. intros ->. contradiction.
    + apply (pre_tune_values_invariant
               (fun v => v !! name = vals !! name) vals ss g t); [|done|done].
      intros v key x Hkey Hv. rewrite lookup_insert_ne; [done|].
      intros ->. contradiction.
  - intros Hsqrt.
    apply (pre_tune_step_sizes_invariant True
             (fun ss0 => forall name sz, ss0 !! name = Some sz -> 0 < sz)
             vals ss g t); [| |done].
    + intros ss0 key sz sz' _ Hkey Hpos Hall name sz0.
      destruct (String.string_dec key name) as [->|Hne].
      * rewrite lookup_insert_eq. intros H. inversion H; subst.
        apply Hpos; [done|]. by apply (Hall name).
      * rewrite lookup_insert_ne by done. apply Hall.
    + intros _. unfold Qdiv. rewrite Qmult_1_l || idtac.
      apply Qmult_lt_0_compat; [reflexivity|]. by apply Qinv_lt_0_compat.
Qed.

End PreTuneMore.

(** ** Proposals *)

Section ProposeFacts.

Context {RNG : Type}.
Context (proposal_distribution : Q -> Q -> RNG -> Q * RNG).

Local Abbreviation propose' := (propose RNG proposal_distribution).
Local Abbreviation propose_one' := (propose_one RNG proposal_distribution).

Lemma propose_ok (ss : gmap string Q) (keys : list string) :
  forall (vals : gmap string Q) (g : RNG) (vals' : gmap string Q) (g' : RNG),
  propose' ss keys vals g = Ok (vals', g') ->
  (forall key, key ∈ keys -> is_Some (ss !! key)) /\
  (forall name, name ∉ keys -> vals' !! name = vals !! name) /\
  (forall key, key ∈ keys -> is_Some (vals' !! key)).
Proof.
  unfold propose. induction keys as [|k ks IH]; intros vals g vals' g' H;
    simpl in H.
  - inversion H; subst. repeat split; try done;
      intros key Hkey; by apply elem_of_nil in Hkey.
  - unfold propose_one at 1 in H. simpl in H.
    destruct (ss !! k) as [sigma|] eqn:Hk; [|discriminate].
    destruct (proposal_distribution 0 sigma g) as [d g1]. simpl in H.
    destruct (IH _ _ _ _ H) as (H1 & H2 & H3). split; [|split].
    + intros key [->|Hin]%elem_of_cons; eauto.
    + intros name Hname. rewrite H2 by (intros ?; apply Hname; by right).
      rewrite lookup_insert_ne; [done|]. intros ->. apply Hname. left.
    + intros key [->|Hin]%elem_of_cons; [|by apply H3].
      destruct (bool_decide_reflect (k ∈ ks)) as [Hin|Hout]; [by apply H3|].
      rewrite H2 by done. rewrite lookup_insert_eq. eauto.
Qed.

Lemma propose_raise (ss : gmap string Q) (keys : list string)
    (vals : gmap string Q) (g : RNG) (e : exn) :
  propose' ss keys vals g = Raise e ->
  exists pre key post, keys = pre ++ key :: post /\
    (forall k, k ∈ pre -> is_Some (ss !! k)) /\
    ss !! key = None /\ e = KeyError key.
Proof.
  unfold propose. intros H. apply for_each_raise_inv in H.
  destruct H as (pre & key & post & [vals1 g1] & Hkeys & Hpre & Hkey).
  exists pre, key, post. split; [done|]. split.
  - by apply (propose_ok ss pre vals g vals1 g1).
  - unfold propose_one in Hkey. simpl in Hkey.
    destruct (ss !! key) as [sigma|]; [|by inversion Hkey].
    destruct (proposal_distribution 0 sigma g1); discriminate.
Qed.

Lemma propose_total (ss : gmap string Q) (keys : list string) :
  (forall key, key ∈ keys -> is_Some (ss !! key)) ->
  forall (vals : gmap string Q) (g : RNG),
  exists r, propose' ss keys vals g = Ok r.
Proof.
  intros Hss vals g.
  destruct (propose' ss keys vals g) as [r|e] eqn:H; [eauto|].
  apply propose_raise in H.
  destruct H as (pre & key & post & Hkeys & _ & Hnone & _).
  destruct (Hss key) as [sz Hsz]; [|congruence].
  rewrite Hkeys. apply elem_of_app. right. left.
Qed.

(** X6.  [propose] returns exactly when every key has a step size, and
    then it has written the values of the keys and nothing else; otherwise
    it raises [KeyError] for the first key, in the order of iteration, that
    has none. *)
Theorem propose_step_sizes (ss : gmap string Q) (keys : list string)
    (vals : gmap string Q) (g : RNG) :
  match propose RNG proposal_distribution ss keys vals g with
  | Ok (vals', g') =>
      (forall key, key ∈ keys -> is_Some (ss !! key)) /\
      (forall name, name ∉ keys -> vals' !! name = vals !! name)
  | Raise e =>
      exists pre key post, keys = pre ++ key :: post /\
        (forall k, k ∈ pre -> is_Some (ss !! k)) /\
        ss !! key = None /\ e = KeyError key
  end.
Proof.
  destruct (propose' ss keys vals g) as [[vals' g']|e] eqn:H.
  - apply propose_ok in H. tauto.
  - by apply propose_raise in H.
Qed.

End ProposeFacts.

(** ** More on the sampling loop *)

Section SampleMore.

Context {RNG : Type}.
Context (proposal_distribution : Q -> Q -> RNG -> Q * RNG).
Context (np_random : RNG -> Q * RNG) (np_exp : Q -> Q).
Context (logp : gmap string Q -> Q) (np_sqrt : Q -> Q).
Context (keys : list string).

Local Abbreviation step :=
  (sample_step RNG proposal_distribution np_random np_exp logp keys).
Local Abbreviation sample' :=
  (sample RNG proposal_distribution np_random np_exp logp np_sqrt).

(** The values of the model when every free variable is at its entry of
    [current_values]. *)
Local Abbreviation state_of l :=
  (assign_all keys (current_values (s_state l)) (values (s_state l))).

(** What a step of the main loop does to the state of the model. *)
Lemma sample_step_state (i : nat) (l l' : loopS RNG) :
  step i l = Ok l' ->
  step_sizes (s_state l') = step_sizes (s_state l) /\
  (forall key, key ∈ keys -> is_Some (step_sizes (s_state l) !! key)) /\
  (forall name, name ∉ keys ->
     values (s_state l') !! name = values (s_state l) !! name) /\
  (forall key, key ∈ keys -> is_Some (values (s_state l') !! key)) /\
  (forall key, key ∈ keys ->
     getitem (current_values (s_state l')) key
     = getitem (values (s_state l')) key) /\
  state_of l' = values (s_state l') /\
  (s_current_logp l = logp (state_of l) ->
   s_current_logp l' = logp (values (s_state l'))).
Proof.
  unfold sample_step.
  destruct (propose _ _ _ _ _ _) as [[vals1 g]|e] eqn:Hp; [|discriminate].
  simpl. apply propose_ok in Hp. destruct Hp as (Hss & Hout & Hin).
  destruct (decide np_random np_exp _ _ g) as [dec g'].
  intros H. inversion H; subst l'; clear H.
  cbn [s_chain s_state s_current_logp current_values values step_sizes].
  set (cur := current_values (s_state l)) in *.
  assert (Hrej : assign_all keys cur (assign_all keys cur vals1)
                 = assign_all keys cur vals1).
  { apply map_eq. intros name. rewrite !assign_all_lookup.
    by case_bool_decide. }
  assert (Hacc : assign_all keys (assign_all keys vals1 cur) vals1 = vals1).
  { apply map_eq. intros name. rewrite assign_all_lookup.
    case_bool_decide as Hname; [|done].
    rewrite getitem_assign_all by done.
    destruct (Hin name Hname) as [x Hx]. unfold getitem. by rewrite Hx. }
  split; [done|]. split; [done|]. split; [|split; [|split; [|split]]].
  - intros name Hname. destruct dec; [by apply Hout|].
    rewrite assign_all_lookup. rewrite bool_decide_eq_false_2 by done.
    by apply Hout.
  - intros key Hkey. destruct dec; [by apply Hin|].
    rewrite assign_all_lookup. rewrite bool_decide_eq_true_2 by done. eauto.
  - intros key Hkey. destruct dec; by rewrite getitem_assign_all.
  - destruct dec; done.
  - intros HJ. destruct dec; [done|]. rewrite HJ. f_equal.
    apply map_eq. intros name. rewrite !assign_all_lookup.
    case_bool_decide as Hname; [done|]. symmetry. by apply Hout.
Qed.

(** Step [i] writes the current log-probability at position [i] of the
    series [logp]. *)
Lemma sample_step_logp (i : nat) (l l' : loopS RNG) (a : list Q) :
  "logp" ∉ keys ->
  step i l = Ok l' ->
  s_chain l !! "logp" = Some a -> (i < length a)%nat ->
  recorded (s_chain l') "logp" i = Some (s_current_logp l').
Proof.
  intros Hlogp. unfold sample_step.
  destruct (propose _ _ _ _ _ _) as [[vals1 g]|e] eqn:Hp; [|discriminate].
  simpl. destruct (decide np_random np_exp _ _ g) as [dec g'].
  intros H Ha Hi. inversion H; subst l'; clear H.
  cbn [s_chain s_current_logp]. unfold recorded.
  rewrite setitem_lookup, bool_decide_eq_true_2 by done.
  rewrite record_all_lookup, bool_decide_eq_false_2 by done.
  rewrite setitem_lookup, bool_decide_eq_false_2 by done.
  rewrite Ha. simpl. by rewrite list_lookup_insert_eq.
Qed.

(** Later steps leave the positions written before alone. *)
Lemma sample_loop_frame (len : nat) :
  forall (a : nat) (l l' : loopS RNG),
  for_each step (seq a len) l = Ok l' ->
  (forall name, length <$> s_chain l' !! name = length <$> s_chain l !! name) /\
  (forall name j, (j < a)%nat ->
     recorded (s_chain l') name j = recorded (s_chain l) name j).
Proof.
  induction len as [|len IH]; intros a l l' Hrun; simpl in Hrun.
  - by inversion Hrun; subst.
  - destruct (step a l) as [l1|e] eqn:Hstep; [|discriminate]. simpl in Hrun.
    destruct (IH (S a) l1 l' Hrun) as [G1 G2].
    unfold sample_step in Hstep.
    destruct (propose _ _ _ _ _ _) as [[vals1 g]|e]; [|discriminate].
    simpl in Hstep. destruct (decide np_random np_exp _ _ g) as [dec g'].
    inversion Hstep; subst l1; clear Hstep. cbn [s_chain] in G1, G2.
    assert (Hchain : forall name, exists x,
      setitem "logp" a (if dec then logp vals1 else s_current_logp l)
        (foldl (fun ch key =>
                  setitem key a
                    (getitem (if dec then vals1
                              else assign_all keys (current_values (s_state l)) vals1)
                       key) ch)
           (setitem "accepted" a (if dec then 1 else 0) (s_chain l)) keys) !! name
      = (fun s => <[a := x]> s) <$> s_chain l !! name).
    { intros name. rewrite setitem_lookup, record_all_lookup, setitem_lookup.
      destruct (s_chain l !! name) as [s|] eqn:Hs; simpl;
        [|exists 0; by repeat case_bool_decide].
      repeat case_bool_decide; simpl; rewrite ?list_insert_insert_eq; eauto.
      exists (default 0 (s !! a)). f_equal.
      destruct (s !! a) as [x|] eqn:Hx; simpl.
      - by rewrite list_insert_id.
      - rewrite list_insert_ge; [done|]. by apply lookup_ge_None. }
    split.
    + intros name. rewrite G1. destruct (Hchain name) as [x ->].
      destruct (s_chain l !! name) as [s|]; simpl; [|done].
      by rewrite length_insert.
    + intros name j Hj. rewrite G2 by lia. unfold recorded.
      destruct (Hchain name) as [x ->].
      destruct (s_chain l !! name) as [s|]; simpl; [|done].
      rewrite list_lookup_insert_ne; [done | lia].
Qed.

Context (Hlogp : "logp" ∉ keys) (Haccepted : "accepted" ∉ keys).

(** The steps [a, a + len) of the main loop, started in a state whose
    current log-probability is that of the current values. *)
Lemma sample_loop_state (nsteps len : nat) :
  forall (a : nat) (l l' : loopS RNG),
  for_each step (seq a len) l = Ok l' ->
  (a + len <= nsteps)%nat ->
  (forall name, name ∈ "logp" :: "accepted" :: keys ->
     exists series, s_chain l !! name = Some series /\ length series = nsteps) ->
  s_current_logp l = logp (state_of l) ->
  step_sizes (s_state l') = step_sizes (s_state l) /\
  (forall name, name ∉ keys ->
     values (s_state l') !! name = values (s_state l) !! name) /\
  ((0 < len)%nat ->
     (forall key, key ∈ keys -> is_Some (step_sizes (s_state l) !! key)) /\
     forall key, key ∈ keys ->
       recorded (s_chain l') key (a + len - 1)
       = Some (getitem (values (s_state l')) key)) /\
  (forall j, (a <= j < a + len)%nat ->
     exists vals_j : gmap string Q,
       recorded (s_chain l') "logp" j = Some (logp vals_j) /\
       (forall key, key ∈ keys -> recorded (s_chain l') key j = vals_j !! key) /\
       (forall name, name ∉ keys ->
          vals_j !! name = values (s_state l) !! name)).
Proof.
  induction len as [|len IH]; intros a l l' Hrun Hlen Hshape HJ.
  - simpl in Hrun. inversion Hrun; subst l'.
    repeat split; try done; intros; lia.
  - simpl in Hrun. destruct (step a l) as [l1|e] eqn:Hstep; [|discriminate].
    simpl in Hrun.
    destruct (sample_step_state a l l1 Hstep)
      as (S1 & S2 & S3 & S4 & S5 & S6 & S7).
    destruct (sample_step_records _ _ _ _ _ Hlogp Haccepted a l l1 Hstep)
      as (dec & F1 & _ & _ & F4 & _).
    destruct (sample_loop_frame len (S a) l1 l' Hrun) as [G1 G2].
    assert (Hshape1 : forall name, name ∈ "logp" :: "accepted" :: keys ->
      exists series, s_chain l1 !! name = Some series /\ length series = nsteps).
    { intros name Hname. destruct (Hshape name Hname) as (series & Hs & Hl).
      specialize (F1 name). rewrite Hs in F1.
      destruct (s_chain l1 !! name) as [series1|]; [|discriminate].
      exists series1. split; [done|]. simpl in F1. congruence. }
    assert (HJ1 : s_current_logp l1 = logp (state_of l1)).
    { rewrite S6. by apply S7. }
    destruct (IH (S a) l1 l' Hrun ltac:(lia) Hshape1 HJ1)
      as (I1 & I2 & I3 & I4).
    assert (Hhere : forall key, key ∈ keys ->
      recorded (s_chain l') key a = Some (getitem (values (s_state l1)) key)).
    { intros key Hkey. rewrite G2 by lia.
      destruct (Hshape key) as (series & Hs & Hl); [by do 2 right|].
      rewrite (F4 key series Hkey Hs) by lia. f_equal. by apply S5. }
    split; [congruence|]. split; [|split].
    + intros name Hname. rewrite I2 by done. by apply S3.
    + intros _. split; [done|]. intros key Hkey.
      destruct len as [|len'].
      * simpl in Hrun. inversion Hrun; subst l'.
        replace (a + 1 - 1)%nat with a by lia. by apply Hhere.
      * destruct I3 as [_ I3]; [lia|].
        replace (a + S (S len') - 1)%nat with (S a + S len' - 1)%nat by lia.
        by apply I3.
    + intros j Hj. destruct (Nat.eq_dec j a) as [->|Hne].
      * exists (values (s_state l1)). split; [|split].
        -- rewrite G2 by lia.
           destruct (Hshape "logp") as (series & Hs & Hl); [left|].
           rewrite (sample_step_logp a l l1 series Hlogp Hstep Hs) by lia.
           f_equal. by apply S7.
        -- intros key Hkey. rewrite Hhere by done.
           destruct (S4 key Hkey) as [x Hx]. unfold getitem. by rewrite Hx.
        -- exact S3.
      * destruct (I4 j ltac:(lia)) as (vals_j & V1 & V2 & V3).
        exists vals_j. split; [done|]. split; [done|].
        intros name Hname. rewrite V3 by done. by apply S3.
Qed.

(** The chain and the state [sample] starts its main loop with. *)
Lemma sample_unfold (ss : gmap string Q) (vals : gmap string Q) (g : RNG)
    (nsteps : nat) (ntune_iterlim tune_interval : option nat)
    (r : result (gmap string (list Q) * tuner RNG)) :
  sample' (Some ss) keys vals g nsteps ntune_iterlim tune_interval = r ->
  (exists m n e, ntune_iterlim = Some m /\ tune_interval = Some n /\
     pre_tune RNG proposal_distribution np_random np_exp logp np_sqrt
       m n keys vals ss g = Raise e /\ r = Raise e) \/
  exists t0 : tuner RNG,
    ((exists m n, ntune_iterlim = Some m /\ tune_interval = Some n /\
        pre_tune RNG proposal_distribution np_random np_exp logp np_sqrt
          m n keys vals ss g = Ok t0) \/
     ((ntune_iterlim = None \/ tune_interval = None) /\
      t0 = Tuner vals ss (assign_all keys vals ∅) g)) /\
    r = (do l <- for_each step (seq 0 nsteps)
                   (LoopS (init_chain keys nsteps) (logp vals)
                      (Tuner (values t0) (step_sizes t0)
                         (assign_all keys vals ∅) (rng t0)));
         Ok (s_chain l, s_state l)).
Proof.
  unfold sample. intros <-.
  destruct ntune_iterlim as [m|], tune_interval as [n|]; cbn [bind].
  - destruct (pre_tune _ _ _ _ _ _ _ _ _ _ _ _) as [t0|e] eqn:Ht.
    + right. exists t0. split; [left; by exists m, n | done].
    + left. by exists m, n, e.
  - right. eexists. split; [right; split; [by right | done] | done].
  - right. eexists. split; [right; split; [by left | done] | done].
  - right. eexists. split; [right; split; [by left | done] | done].
Qed.

(** The state the main loop starts in holds the values [sample] was called
    with, outside the free variables. *)
Lemma sample_start_values (ss vals : gmap string Q) (g : RNG)
    (ntune_iterlim tune_interval : option nat) (t0 : tuner RNG) :
  (exists m n, ntune_iterlim = Some m /\ tune_interval = Some n /\
     pre_tune RNG proposal_distribution np_random np_exp logp np_sqrt
       m n keys vals ss g = Ok t0) \/
  ((ntune_iterlim = None \/ tune_interval = None) /\
   t0 = Tuner vals ss (assign_all keys vals ∅) g) ->
  forall name, name ∉ keys -> values t0 !! name = vals !! name.
Proof.
  intros [(m & n & _ & _ & Ht)|[_ ->]] name Hname; [|done].
  apply (pre_tune_values_invariant proposal_distribution np_random np_exp
           logp np_sqrt m n keys
           (fun v => v !! name = vals !! name) vals ss g t0); [|done|done].
  intros v key x Hkey Hv. rewrite lookup_insert_ne; [done|].
  intros ->. contradiction.
Qed.

(** X7.  The series [logp] goes with the series of the free variables:
    entry [i] is the log-probability of the model with every free variable
    at the value recorded at [i] and everything else as it was when
    [sample] was called - with or without tuning. *)
Theorem sample_logp_series (step_method : option (gmap string Q))
    (vals : gmap string Q) (g : RNG) (nsteps : nat)
    (ntune_iterlim tune_interval : option nat)
    (chain : gmap string (list Q)) (t : tuner RNG) :
  sample RNG proposal_distribution np_random np_exp logp np_sqrt
    step_method keys vals g nsteps ntune_iterlim tune_interval
    = Ok (chain, t) ->
  (forall key, key ∈ keys -> is_Some (vals !! key)) ->
  forall i, (i < nsteps)%nat ->
    exists vals_i : gmap string Q,
      recorded chain "logp" i = Some (logp vals_i) /\
      (forall key, key ∈ keys -> recorded chain key i = vals_i !! key) /\
      (forall name, name ∉ keys -> vals_i !! name = vals !! name).
Proof.
  intros Hrun Hvals i Hi. destruct step_method as [ss|]; [|discriminate].
  apply sample_unfold in Hrun. destruct Hrun as [(m & n & e & _ & _ & _ & H)|H];
    [discriminate|].
  destruct H as (t0 & Ht0 & Hrun).
  destruct (for_each _ _ _) as [l'|e] eqn:Hloop; [|discriminate].
  cbn [bind] in Hrun. inversion Hrun; subst chain t; clear Hrun.
  pose proof (sample_start_values ss vals g _ _ t0 Ht0) as Hstart.
  destruct (sample_loop_state nsteps nsteps 0 _ _ Hloop ltac:(lia))
    as (_ & _ & _ & Hseries).
  - intros name Hname. exists (replicate nsteps 0).
    split; [by apply init_chain_lookup | apply length_replicate].
  - cbn [s_current_logp s_state current_values values]. f_equal.
    apply map_eq. intros name. rewrite assign_all_lookup.
    case_bool_decide as Hname; [|symmetry; by apply Hstart].
    rewrite getitem_assign_all by done.
    destruct (Hvals name Hname) as [x Hx]. unfold getitem. by rewrite Hx.
  - destruct (Hseries i ltac:(lia)) as (vals_i & V1 & V2 & V3).
    exists vals_i. split; [done|]. split; [done|].
    intros name Hname. rewrite V3 by done. by apply Hstart.
Qed.

(** X8.  [sample] leaves the model at the last sample: every free
    variable holds the value recorded at [nsteps - 1], and nothing but the
    free variables has changed.  Without tuning the step sizes are the
    ones [sample] was given. *)
Theorem sample_final_state (step_method : option (gmap string Q))
    (vals : gmap string Q) (g : RNG) (nsteps : nat)
    (ntune_iterlim tune_interval : option nat)
    (chain : gmap string (list Q)) (t : tuner RNG) :
  sample RNG proposal_distribution np_random np_exp logp np_sqrt
    step_method keys vals g nsteps ntune_iterlim tune_interval
    = Ok (chain, t) ->
  (forall key, key ∈ keys -> is_Some (vals !! key)) ->
  ((0 < nsteps)%nat ->
     forall key, key ∈ keys ->
       recorded chain key (nsteps - 1) = Some (getitem (values t) key)) /\
  (forall name, name ∉ keys -> values t !! name = vals !! name) /\
  (ntune_iterlim = None \/ tune_interval = None ->
     step_method = Some (step_sizes t) /\ (nsteps = 0%nat -> values t = vals)).
Proof.
  intros Hrun Hvals. destruct step_method as [ss|]; [|discriminate].
  apply sample_unfold in Hrun. destruct Hrun as [(m & n & e & _ & _ & _ & H)|H];
    [discriminate|].
  destruct H as (t0 & Ht0 & Hrun).
  destruct (for_each _ _ _) as [l'|e] eqn:Hloop; [|discriminate].
  cbn [bind] in Hrun. inversion Hrun; subst chain t; clear Hrun.
  pose proof (sample_start_values ss vals g _ _ t0 Ht0) as Hstart.
  destruct (sample_loop_state nsteps nsteps 0 _ _ Hloop ltac:(lia))
    as (Hss & Hout & Hlast & _).
  - intros name Hname. exists (replicate nsteps 0).
    split; [by apply init_chain_lookup | apply length_replicate].
  - cbn [s_current_logp s_state current_values values]. f_equal.
    apply map_eq. intros name. rewrite assign_all_lookup.
    case_bool_decide as Hname; [|symmetry; by apply Hstart].
    rewrite getitem_assign_all by done.
    destruct (Hvals name Hname) as [x Hx]. unfold getitem. by rewrite Hx.
  - cbn [s_state values step_sizes] in Hss, Hout. split; [|split].
    + intros Hpos key Hkey. destruct Hlast as [_ Hlast]; [done|].
      by apply Hlast.
    + intros name Hname. rewrite Hout by done. by apply Hstart.
    + intros Hnone. destruct Ht0 as [(m & n & -> & -> & _)|[_ ->]];
        [by destruct Hnone|].
      split; [by rewrite Hss|]. intros ->. simpl in Hloop.
      by inversion Hloop; subst l'.
Qed.

(** What the main loop can raise. *)
Lemma sample_loop_raises (len : nat) :
  forall (a : nat) (l : loopS RNG) (e : exn),
  for_each step (seq a len) l = Raise e ->
  exists key, key ∈ keys /\ step_sizes (s_state l) !! key = None /\
              e = KeyError key.
Proof.
  induction len as [|len IH]; intros a l e Hrun; simpl in Hrun; [discriminate|].
  destruct (step a l) as [l1|e1] eqn:Hstep; simpl in Hrun.
  - destruct (IH _ _ _ Hrun) as (key & Hkey & Hnone & He).
    destruct (sample_step_state a l l1 Hstep) as (S1 & _).
    exists key. by rewrite <- S1.
  - inversion Hrun; subst e1; clear Hrun. unfold sample_step in Hstep.
    destruct (propose _ _ _ _ _ _) as [[vals1 g]|e1] eqn:Hp.
    + simpl in Hstep. destruct (decide np_random np_exp _ _ g). discriminate.
    + simpl in Hstep. inversion Hstep; subst e1.
      apply propose_raise in Hp.
      destruct Hp as (pre & key & post & Hkeys & _ & Hnone & ->).
      exists key. split; [|done]. rewrite Hkeys. apply elem_of_app. right. left.
Qed.

(** What [sample] can raise on natural numbers: no step method; tuning
    that does not converge or is asked for with an interval length of 0; a
    free variable without a step size.  The [ValueError] of line 56 is
    never raised (the one of line 53 is for step methods without
    [pre_tune]). *)
Lemma sample_raises (step_method : option (gmap string Q))
    (vals : gmap string Q) (g : RNG) (nsteps : nat)
    (ntune_iterlim tune_interval : option nat) (e : exn) :
  sample RNG proposal_distribution np_random np_exp logp np_sqrt
    step_method keys vals g nsteps ntune_iterlim tune_interval
    = Raise e ->
  (step_method = None /\
   e = StandardError "Step method must be assigned before sampling can begin") \/
  (exists ss key, step_method = Some ss /\ key ∈ keys /\ ss !! key = None /\
                  e = KeyError key) \/
  (exists m, ntune_iterlim = Some m /\ is_Some tune_interval /\
             e = StandardError (err_str m)) \/
  (is_Some ntune_iterlim /\ tune_interval = Some 0%nat /\
   e = ZeroDivisionError).
Proof.
  intros Hrun. destruct step_method as [ss|];
    [|left; split; [done|]; by inversion Hrun].
  right. apply sample_unfold in Hrun.
  destruct Hrun as [(m & n & e' & -> & -> & Ht & H)|H].
  - inversion H; subst e'; clear H. apply pre_tune_raises in Ht.
    destruct Ht as [->|[(key & Hkey & -> & Hnone)|[-> ->]]].
    + right. left. exists m. eauto.
    + left. by exists ss, key.
    + right. right. eauto.
  - destruct H as (t0 & Ht0 & Hrun).
    destruct (for_each _ _ _) as [l'|e'] eqn:Hloop; [discriminate|].
    cbn [bind] in Hrun. inversion Hrun; subst e'; clear Hrun.
    apply sample_loop_raises in Hloop.
    destruct Hloop as (key & Hkey & Hnone & ->).
    cbn [s_state step_sizes] in Hnone. left. exists ss, key.
    split; [done|]. split; [done|]. split; [|done].
    destruct Ht0 as [(m & n & _ & _ & Ht)|[_ ->]]; [|done].
    pose proof (pre_tune_ok_step_sizes _ _ _ _ _ _ _ _ _ _ _ _ Ht key Hkey)
      as [sz' Hsz'].
    destruct (pre_tune_step_sizes_invariant proposal_distribution np_random
                np_exp logp np_sqrt m n keys False
                (fun ss0 => is_Some (ss0 !! key)) vals ss g t0)
      as [sz'' Hsz'']; [|done|done|eauto|congruence].
    intros ss0 key0 sz0 sz1 _ _ _ Hsome.
    destruct (String.string_dec key0 key) as [->|Hne].
    + rewrite lookup_insert_eq. eauto.
    + by rewrite lookup_insert_ne.
Qed.

(** Without tuning the main loop is all there is. *)
Lemma sample_untuned_ok (ss vals : gmap string Q) (g : RNG)
    (nsteps : nat) (ntune_iterlim tune_interval : option nat) :
  (forall key, key ∈ keys -> is_Some (ss !! key)) ->
  ntune_iterlim = None \/ tune_interval = None ->
  exists chain t,
    sample' (Some ss) keys vals g nsteps ntune_iterlim tune_interval
      = Ok (chain, t) /\ step_sizes t = ss.
Proof.
  intros Hss Hnone.
  destruct (sample' (Some ss) keys vals g nsteps ntune_iterlim tune_interval)
    as [[chain t]|e] eqn:Hrun; apply sample_unfold in Hrun;
    (destruct Hrun as [(m & n & e' & -> & -> & _)|(t0 & Ht0 & Hrun)];
       [by destruct Hnone|]);
    (destruct Ht0 as [(m & n & -> & -> & _)|[_ ->]]; [by destruct Hnone|]);
    cbn [values step_sizes rng] in Hrun;
    destruct (for_each _ _ _) as [l'|e1] eqn:Hloop; try discriminate.
  - exists chain, t. split; [done|].
    cbn [bind] in Hrun. inversion Hrun; subst chain t; clear Hrun.
    revert Hloop.
    apply (for_each_invariant step (fun l => step_sizes (s_state l) = ss));
      [|done].
    intros i l l1 Hl Hstep.
    destruct (sample_step_state i l l1 Hstep) as (S1 & _). congruence.
  - exfalso. apply sample_loop_raises in Hloop.
    destruct Hloop as (key & Hkey & Hnone' & _).
    cbn [s_state step_sizes] in Hnone'.
    destruct (Hss key Hkey). congruence.
Qed.


End SampleMore.

(** ** The flags of the chain and the decisions of [decide] *)

Section SampleDecisions.

Context {RNG : Type}.
Context (proposal_distribution : Q -> Q -> RNG -> Q * RNG).
Context (np_random : RNG -> Q * RNG) (np_exp : Q -> Q).
Context (logp : gmap string Q -> Q) (np_sqrt : Q -> Q).
Context (keys : list string).
Context (Hlogp : "logp" ∉ keys) (Haccepted : "accepted" ∉ keys).

Local Abbreviation step :=
  (sample_step RNG proposal_distribution np_random np_exp logp keys).
Local Abbreviation state_of l :=
  (assign_all keys (current_values (s_state l)) (values (s_state l))).

(** Step [i] records the decision [decide] takes on its proposal, and the
    proposal itself when the decision is to accept. *)
Lemma sample_step_decision (i : nat) (l l' : loopS RNG) :
  step i l = Ok l' ->
  exists (vals1 : gmap string Q) (g1 : RNG) (dec : bool) (g2 : RNG),
    propose RNG proposal_distribution (step_sizes (s_state l)) keys
      (values (s_state l)) (rng (s_state l)) = Ok (vals1, g1) /\
    decide np_random np_exp (s_current_logp l) (logp vals1) g1 = (dec, g2) /\
    s_current_logp l' = (if dec then logp vals1 else s_current_logp l) /\
    (forall a, s_chain l !! "accepted" = Some a -> (i < length a)%nat ->
       recorded (s_chain l') "accepted" i = Some (if dec then 1 else 0)) /\
    (forall key a, key ∈ keys -> s_chain l !! key = Some a -> (i < length a)%nat ->
       recorded (s_chain l') key i
       = Some (getitem (if dec then vals1 else current_values (s_state l)) key)).
Proof.
  unfold sample_step.
  destruct (propose _ _ _ _ _ _) as [[vals1 g1]|e]; [|discriminate]. simpl.
  destruct (decide np_random np_exp _ _ g1) as [dec g2] eqn:Hdec.
  intros H. inversion H; subst l'; clear H. exists vals1, g1, dec, g2.
  cbn [s_chain s_state s_current_logp current_values].
  split; [done|]. split; [done|]. split; [done|].
  assert (Hchain : forall name,
    setitem "logp" i (if dec then logp vals1 else s_current_logp l)
      (foldl (fun ch key =>
                setitem key i
                  (getitem (if dec then vals1
                            else assign_all keys (current_values (s_state l)) vals1)
                     key) ch)
         (setitem "accepted" i (if dec then 1 else 0) (s_chain l)) keys) !! name
    = (fun a => <[i :=
         if bool_decide (name = "logp")
         then (if dec then logp vals1 else s_current_logp l)
         else if bool_decide (name ∈ keys)
         then getitem (if dec then vals1
                       else assign_all keys (current_values (s_state l)) vals1) name
         else if bool_decide (name = "accepted") then (if dec then 1 else 0)
         else default 0 (a !! i)]> a) <$> s_chain l !! name).
  { intros name. rewrite setitem_lookup, record_all_lookup, setitem_lookup.
    destruct (s_chain l !! name) as [a|]; simpl;
      repeat case_bool_decide; simpl; try done; f_equal;
      rewrite ?list_insert_insert_eq; try done.
    destruct (a !! i) as [x|] eqn:Hx; simpl.
    - by rewrite list_insert_id.
    - rewrite list_insert_ge; [done|]. by apply lookup_ge_None. }
  split.
  - intros a Ha Hi. unfold recorded. rewrite Hchain, Ha. simpl.
    rewrite list_lookup_insert_eq by done.
    repeat case_bool_decide; done || contradiction.
  - intros key a Hin Ha Hi. unfold recorded. rewrite Hchain, Ha. simpl.
    rewrite list_lookup_insert_eq by done.
    repeat case_bool_decide; subst; try contradiction.
    destruct dec; [done|]. by rewrite getitem_assign_all.
Qed.

(** The steps [a, a + len) of the main loop, each with its loop head, its
    proposal and the decision on it. *)
Lemma sample_loop_decisions (vals : gmap string Q) (logp_0 : Q)
    (start_ok has_values : Prop) (nsteps len : nat) :
  forall (a : nat) (l l' : loopS RNG),
  for_each step (seq a len) l = Ok l' ->
  (a + len <= nsteps)%nat ->
  (forall name, name ∈ "logp" :: "accepted" :: keys ->
     exists series, s_chain l !! name = Some series /\ length series = nsteps) ->
  (forall key, key ∈ keys ->
     previous (s_chain l) vals key a
     = Some (getitem (current_values (s_state l)) key)) ->
  previous_logp (s_chain l) logp_0 a = Some (s_current_logp l) ->
  ((0 < a)%nat \/ start_ok ->
     forall key, key ∈ keys ->
       getitem (values (s_state l)) key
       = getitem (current_values (s_state l)) key) ->
  (has_values ->
     s_current_logp l = logp (state_of l) /\
     ((0 < a)%nat \/ start_ok ->
        s_current_logp l = logp (values (s_state l)))) ->
  forall j, (a <= j < a + len)%nat ->
    exists (lj : loopS RNG) (vals1 : gmap string Q) (g1 : RNG) (dec : bool)
           (g2 : RNG),
      for_each step (seq a (j - a)) l = Ok lj /\
      propose RNG proposal_distribution (step_sizes (s_state lj)) keys
        (values (s_state lj)) (rng (s_state lj)) = Ok (vals1, g1) /\
      decide np_random np_exp (s_current_logp lj) (logp vals1) g1 = (dec, g2) /\
      previous_logp (s_chain l') logp_0 j = Some (s_current_logp lj) /\
      (forall key, key ∈ keys ->
         previous (s_chain l') vals key j
         = Some (getitem (current_values (s_state lj)) key)) /\
      ((0 < j)%nat \/ start_ok ->
         forall key, key ∈ keys ->
           getitem (values (s_state lj)) key
           = getitem (current_values (s_state lj)) key) /\
      (has_values ->
         s_current_logp lj = logp (state_of lj) /\
         ((0 < j)%nat \/ start_ok ->
            s_current_logp lj = logp (values (s_state lj)))) /\
      recorded (s_chain l') "accepted" j = Some (if dec then 1 else 0) /\
      recorded (s_chain l') "logp" j
      = Some (if dec then logp vals1 else s_current_logp lj) /\
      (forall key, key ∈ keys ->
         recorded (s_chain l') key j
         = Some (getitem (if dec then vals1 else current_values (s_state lj))
                   key)).
Proof.
  induction len as [|len IH];
    intros a l l' Hrun Hlen Hshape Hprev Hplogp Hval HJ j Hj; [lia|].
  pose proof (sample_loop_frame proposal_distribution np_random np_exp logp
                keys (S len) a l l' Hrun) as [_ Gall].
  simpl in Hrun. destruct (step a l) as [l1|e] eqn:Hstep; [|discriminate].
  simpl in Hrun.
  pose proof (sample_loop_frame proposal_distribution np_random np_exp logp
                keys len (S a) l1 l' Hrun) as [_ Grest].
  destruct (sample_step_decision a l l1 Hstep)
    as (vals1 & g1 & dec & g2 & Hp & Hd & Hcur & Hflag & Hrec).
  destruct (sample_step_records _ _ _ _ _ Hlogp Haccepted a l l1 Hstep)
    as (dec' & F1 & _ & _ & F4 & _).
  destruct (sample_step_state proposal_distribution np_random np_exp logp
              keys a l l1 Hstep) as (_ & _ & _ & S4 & S5 & S6 & S7).
  destruct (Hshape "logp") as (slogp & Hslogp & Hllogp); [left|].
  destruct (Hshape "accepted") as (sacc & Hsacc & Hlacc); [right; left|].
  destruct (Nat.eq_dec j a) as [->|Hne].
  - exists l, vals1, g1, dec, g2. replace (a - a)%nat with 0%nat by lia.
    split; [done|]. split; [done|]. split; [done|].
    split; [|split; [|split; [|split; [|split; [|split]]]]].
    + rewrite <- Hplogp. destruct a as [|b]; [done|]. simpl.
      apply Gall. lia.
    + intros key Hkey. rewrite <- (Hprev key Hkey).
      destruct a as [|b]; [done|]. simpl. apply Gall. lia.
    + exact Hval.
    + exact HJ.
    + rewrite Grest by lia. apply (Hflag sacc Hsacc). lia.
    + rewrite Grest by lia.
      rewrite (sample_step_logp proposal_distribution np_random np_exp logp
                 keys a l l1 slogp Hlogp Hstep Hslogp) by lia.
      by rewrite Hcur.
    + intros key Hkey. rewrite Grest by lia.
      destruct (Hshape key) as (series & Hs & Hl); [by do 2 right|].
      apply (Hrec key series Hkey Hs). lia.
  - assert (Hshape1 : forall name, name ∈ "logp" :: "accepted" :: keys ->
      exists series, s_chain l1 !! name = Some series /\ length series = nsteps).
    { intros name Hname. destruct (Hshape name Hname) as (series & Hs & Hl).
      specialize (F1 name). rewrite Hs in F1.
      destruct (s_chain l1 !! name) as [series1|]; [|discriminate].
      exists series1. split; [done|]. simpl in F1. congruence. }
    destruct (IH (S a) l1 l' Hrun ltac:(lia) Hshape1) with (j := j)
      as (lj & vals_j & g_j & dec_j & g_j' & Hhead & Hrest); [| | | |lia|].
    + intros key Hkey. simpl.
      destruct (Hshape key) as (series & Hs & Hl); [by do 2 right|].
      apply (F4 key series Hkey Hs). lia.
    + simpl.
      apply (sample_step_logp proposal_distribution np_random np_exp logp
               keys a l l1 slogp Hlogp Hstep Hslogp). lia.
    + intros _ key Hkey. symmetry. by apply S5.
    + intros Hv. destruct (HJ Hv) as [HJ1 _].
      pose proof (S7 HJ1) as HJ2. split; [by rewrite S6|done].
    + exists lj, vals_j, g_j, dec_j, g_j'. split; [|exact Hrest].
      replace (j - a)%nat with (S (j - S a)) by lia.
      cbn [seq for_each]. rewrite Hstep. exact Hhead.
Qed.

(** [sample] is its main loop run from [sample_start]. *)
Lemma sample_from_start (ss : gmap string Q) (vals : gmap string Q) (g : RNG)
    (nsteps : nat) (ntune_iterlim tune_interval : option nat) :
  sample RNG proposal_distribution np_random np_exp logp np_sqrt
    (Some ss) keys vals g nsteps ntune_iterlim tune_interval
  = (do l <- sample_head RNG proposal_distribution np_random np_exp logp
               np_sqrt ss keys vals g nsteps ntune_iterlim tune_interval
               nsteps;
     Ok (s_chain l, s_state l)).
Proof.
  unfold sample, sample_head, sample_start.
  destruct ntune_iterlim as [m|], tune_interval as [n|]; cbn [bind];
    try reflexivity.
  destruct (pre_tune _ _ _ _ _ _ _ _ _ _ _ _) as [t0|e]; reflexivity.
Qed.


End SampleDecisions.

(** ** The exceptions of [pre_tune] and [sample], whatever is passed *)

Section ArgumentFacts.

Context {RNG : Type}.
Context (proposal_distribution : Q -> Q -> RNG -> Q * RNG).
Context (np_random : RNG -> Q * RNG) (np_exp : Q -> Q).
Context (logp : gmap string Q -> Q) (np_sqrt : Q -> Q).

(** On natural numbers [pre_tune_py] is [pre_tune]. *)
Lemma pre_tune_py_nat (m n : Z) (keys : list string) (vals ss : gmap string Q)
    (g : RNG) :
  (0 <= m)%Z -> (0 <= n)%Z ->
  pre_tune_py RNG proposal_distribution np_random np_exp logp np_sqrt
    m (Some n) keys vals ss g
  = inr (pre_tune RNG proposal_distribution np_random np_exp logp np_sqrt
           (Z.to_nat m) (Z.to_nat n) keys vals ss g).
Proof.
  intros Hm Hn. unfold pre_tune_py.
  destruct (Z.ltb_spec n 0) as [?|_]; [lia|].
  destruct (Z.ltb_spec m 0) as [?|_]; [lia|]. reflexivity.
Qed.

(** X4.  The exceptions of [pre_tune], for [ntune_iterlim] any Python int
    and [tune_interval] any Python int or [None], its default:
    [UnboundLocalError] at line 294 for a negative [ntune_iterlim] (no loop
    takes a turn and [accfrac] is never assigned); [TypeError] at [i%n]
    for [tune_interval = None] and a positive [ntune_iterlim];
    [ValueError] from [np.zeros] for a negative [tune_interval]; and for
    natural numbers the non-convergence error, a [KeyError] for a free
    parameter that had no step size when [pre_tune] was called, and a
    [ZeroDivisionError] for an interval length of 0.  Nothing else - the
    proposal distribution and [mcmc.logp] raise nothing - and [pre_tune]
    returns on natural numbers only. *)
Theorem pre_tune_exceptions (ntune_iterlim : Z) (tune_interval : option Z)
    (keys : list string) (vals ss : gmap string Q) (g : RNG) :
  match
    pre_tune_py RNG proposal_distribution np_random np_exp logp np_sqrt
      ntune_iterlim tune_interval keys vals ss g
  with
  | inl e =>
      (e = UnboundLocalError "accfrac" /\ (ntune_iterlim < 0)%Z /\
       forall n, tune_interval = Some n -> (0 <= n)%Z) \/
      (e = TypeError_NoneType "%" /\ (0 < ntune_iterlim)%Z /\
       tune_interval = None)
  | inr (Raise e) =>
      (e = negative_dimensions /\
       exists n, tune_interval = Some n /\ (n < 0)%Z) \/
      ((0 <= ntune_iterlim)%Z /\
       (forall n, tune_interval = Some n -> (0 <= n)%Z) /\
       (e = StandardError (err_str (Z.to_nat ntune_iterlim)) \/
        (exists key, key ∈ keys /\ e = KeyError key /\ ss !! key = None) \/
        (e = ZeroDivisionError /\ tune_interval = Some 0%Z)))
  | inr (Ok t) =>
      exists n, tune_interval = Some n /\
        (0 <= ntune_iterlim)%Z /\ (0 <= n)%Z /\
        pre_tune RNG proposal_distribution np_random np_exp logp np_sqrt
          (Z.to_nat ntune_iterlim) (Z.to_nat n) keys vals ss g = Ok t
  end.
Proof.
  unfold pre_tune_py. destruct tune_interval as [n|]; cbv beta iota zeta.
  - destruct (Z.ltb_spec n 0) as [Hn|Hn]; cbv beta iota zeta; [left; eauto|].
    destruct (Z.ltb_spec ntune_iterlim 0) as [Hm|Hm]; cbv beta iota zeta.
    { left. split; [done|]. split; [done|]. intros n' H. inversion H. lia. }
    destruct (pre_tune _ _ _ _ _ _ _ _ _ _ _ _) as [t|e] eqn:Hrun.
    + by exists n.
    + right. split; [done|].
      split; [intros n' H; inversion H; lia|].
      apply pre_tune_raises in Hrun.
      destruct Hrun as [->|[Hkey|[-> Hz]]]; [by left|by right; left|].
      right. right. split; [done|]. f_equal. lia.
  - destruct (Z.ltb_spec ntune_iterlim 0) as [Hm|Hm]; cbv beta iota zeta.
    { left. split; [done|]. split; [done|]. intros n' H. discriminate H. }
    assert (Hzero : (ntune_iterlim =? 0)%Z = true ->
                    err_str 0 = err_str (Z.to_nat ntune_iterlim)).
    { intros ->%Z.eqb_eq. done. }
    assert (Hpos : (ntune_iterlim =? 0)%Z = false -> (0 < ntune_iterlim)%Z).
    { intros ?%Z.eqb_neq. lia. }
    destruct keys as [|key_j keys'].
    + destruct (ntune_iterlim =? 0)%Z.
      * right. split; [done|]. split; [done|]. left. by rewrite Hzero.
      * right. auto.
    + destruct (ss !! key_j) as [sz|] eqn:Hss.
      * destruct (ntune_iterlim =? 0)%Z.
        -- right. split; [done|]. split; [done|]. left. by rewrite Hzero.
        -- right. auto.
      * right. split; [done|]. split; [done|]. right. left.
        exists key_j. split; [left|done].
Qed.

(** On natural numbers, and without tuning, [sample_py] is [sample]. *)
Lemma sample_py_nat (ss : gmap string Q) (keys : list string)
    (vals : gmap string Q) (g : RNG) (nsteps : Z)
    (ntune_iterlim tune_interval : option Z) :
  (0 <= nsteps)%Z ->
  (forall m n, ntune_iterlim = Some m -> tune_interval = Some n ->
     (0 <= m)%Z /\ (0 <= n)%Z) ->
  sample_py RNG proposal_distribution np_random np_exp logp np_sqrt
    (Some ss) keys vals g nsteps ntune_iterlim tune_interval
  = inr (sample RNG proposal_distribution np_random np_exp logp np_sqrt
           (Some ss) keys vals g (Z.to_nat nsteps)
           (Z.to_nat <$> ntune_iterlim) (Z.to_nat <$> tune_interval)).
Proof.
  intros Hnsteps Hnat. unfold sample_py, sample.
  destruct (Z.ltb_spec nsteps 0) as [?|_]; [lia|].
  destruct ntune_iterlim as [m|], tune_interval as [n|]; cbn [fmap option_fmap option_map];
    try reflexivity.
  destruct (Hnat m n) as [Hm Hn]; [done|done|].
  by rewrite pre_tune_py_nat.
Qed.

(** X9.  The exceptions of [sample], for [nsteps] any Python int and
    [ntune_iterlim], [tune_interval] any Python ints or [None], their
    default: no step method; [ValueError] from [np.zeros] for a negative
    [nsteps], and for a negative [tune_interval] when tuning is asked for;
    [UnboundLocalError] from line 294 of [pre_tune] for a negative
    [ntune_iterlim] when tuning is asked for; and on natural numbers
    tuning that does not converge or is asked for with an interval length
    of 0, and a free variable without a step size.  The [ValueError] of
    line 56 is never raised (the one of line 53 is for step methods without
    [pre_tune]), the proposal distribution and [sampler.logp] raise
    nothing, and [sample] returns on natural numbers only. *)
Theorem sample_exceptions (step_method : option (gmap string Q))
    (keys : list string) (vals : gmap string Q) (g : RNG) (nsteps : Z)
    (ntune_iterlim tune_interval : option Z) :
  match
    sample_py RNG proposal_distribution np_random np_exp logp np_sqrt
      step_method keys vals g nsteps ntune_iterlim tune_interval
  with
  | inl e =>
      e = UnboundLocalError "accfrac" /\
      is_Some step_method /\ (0 <= nsteps)%Z /\
      exists m n, ntune_iterlim = Some m /\ tune_interval = Some n /\
                  (m < 0)%Z /\ (0 <= n)%Z
  | inr (Raise e) =>
      (step_method = None /\
       e = StandardError "Step method must be assigned before sampling can begin") \/
      (is_Some step_method /\ (nsteps < 0)%Z /\ e = negative_dimensions) \/
      (exists n, is_Some step_method /\ is_Some ntune_iterlim /\
                 tune_interval = Some n /\ (n < 0)%Z /\
                 e = negative_dimensions) \/
      (exists ss key, step_method = Some ss /\ key ∈ keys /\ ss !! key = None /\
                      e = KeyError key) \/
      (exists m, ntune_iterlim = Some m /\ (0 <= m)%Z /\
                 is_Some tune_interval /\
                 e = StandardError (err_str (Z.to_nat m))) \/
      (is_Some ntune_iterlim /\ tune_interval = Some 0%Z /\
       e = ZeroDivisionError)
  | inr (Ok r) =>
      (0 <= nsteps)%Z /\
      (forall m n, ntune_iterlim = Some m -> tune_interval = Some n ->
         (0 <= m)%Z /\ (0 <= n)%Z) /\
      sample RNG proposal_distribution np_random np_exp logp np_sqrt
        step_method keys vals g (Z.to_nat nsteps)
        (Z.to_nat <$> ntune_iterlim) (Z.to_nat <$> tune_interval) = Ok r
  end.
Proof.
  destruct step_method as [ss|]; [|by left].
  destruct (Z.ltb_spec nsteps 0) as [Hneg|Hnsteps].
  { unfold sample_py. destruct (Z.ltb_spec nsteps 0) as [_|?]; [|lia].
    right. left. eauto. }
  assert (Hnat : forall m n : Z,
    { (0 <= m)%Z /\ (0 <= n)%Z } + { (n < 0)%Z \/ ((0 <= n)%Z /\ (m < 0)%Z) }).
  { intros m n. destruct (Z_lt_dec n 0); [right; by left|].
    destruct (Z_lt_dec m 0); [right; right; lia | left; lia]. }
  assert (Hregular :
    (forall m n, ntune_iterlim = Some m -> tune_interval = Some n ->
       (0 <= m)%Z /\ (0 <= n)%Z) ->
    match
      sample_py RNG proposal_distribution np_random np_exp logp np_sqrt
        (Some ss) keys vals g nsteps ntune_iterlim tune_interval
    with
    | inl e =>
        e = UnboundLocalError "accfrac" /\
        is_Some (Some ss) /\ (0 <= nsteps)%Z /\
        exists m n, ntune_iterlim = Some m /\ tune_interval = Some n /\
                    (m < 0)%Z /\ (0 <= n)%Z
    | inr (Raise e) =>
        (Some ss = None /\
         e = StandardError "Step method must be assigned before sampling can begin") \/
        (is_Some (Some ss) /\ (nsteps < 0)%Z /\ e = negative_dimensions) \/
        (exists n, is_Some (Some ss) /\ is_Some ntune_iterlim /\
                   tune_interval = Some n /\ (n < 0)%Z /\
                   e = negative_dimensions) \/
        (exists ss0 key, Some ss = Some ss0 /\ key ∈ keys /\ ss0 !! key = None /\
                        e = KeyError key) \/
        (exists m, ntune_iterlim = Some m /\ (0 <= m)%Z /\
                   is_Some tune_interval /\
                   e = StandardError (err_str (Z.to_nat m))) \/
        (is_Some ntune_iterlim /\ tune_interval = Some 0%Z /\
         e = ZeroDivisionError)
    | inr (Ok r) =>
        (0 <= nsteps)%Z /\
        (forall m n, ntune_iterlim = Some m -> tune_interval = Some n ->
           (0 <= m)%Z /\ (0 <= n)%Z) /\
        sample RNG proposal_distribution np_random np_exp logp np_sqrt
          (Some ss) keys vals g (Z.to_nat nsteps)
          (Z.to_nat <$> ntune_iterlim) (Z.to_nat <$> tune_interval) = Ok r
    end).
  { intros Hreg. rewrite sample_py_nat by done.
    destruct (sample _ _ _ _ _ _ _ _ _ _ _ _ _) as [r|e] eqn:Hrun; [done|].
    apply sample_raises in Hrun.
    destruct Hrun as [[Hnone _]|[Hkey|[(m' & Hm' & Hsome & ->)|(Hsome & Hz & ->)]]];
      [discriminate Hnone| | |].
    - do 3 right. by left.
    - do 4 right. left.
      destruct ntune_iterlim as [m|]; [|discriminate Hm'].
      cbn in Hm'. inversion Hm'; subst m'.
      destruct tune_interval as [n|]; [|by destruct Hsome].
      exists m. split; [done|]. split; [by apply (Hreg m n)|]. eauto.
    - do 5 right.
      destruct ntune_iterlim as [m|]; [|by destruct Hsome].
      destruct tune_interval as [n|]; [|discriminate Hz].
      cbn in Hz. inversion Hz as [Hz'].
      destruct (Hreg m n) as [_ Hn]; [done|done|].
      split; [eauto|]. split; [|done]. f_equal. lia. }
  destruct ntune_iterlim as [m|], tune_interval as [n|];
    try (apply Hregular; intros ? ? ? ?; discriminate).
  destruct (Hnat m n) as [[Hm Hn]|Hirregular].
  { apply Hregular. intros m' n' H1 H2. inversion H1; inversion H2. by subst. }
  clear Hregular. unfold sample_py, pre_tune_py.
  destruct (Z.ltb_spec nsteps 0) as [?|_]; [lia|].
  destruct Hirregular as [Hn|[Hn Hm]].
  - destruct (Z.ltb_spec n 0) as [_|?]; [|lia]. cbn [bind].
    right. right. left. exists n. eauto 10.
  - destruct (Z.ltb_spec n 0) as [?|_]; [lia|].
    destruct (Z.ltb_spec m 0) as [_|?]; [|lia].
    split; [done|]. split; [eauto|]. split; [done|]. by exists m, n.
Qed.

End ArgumentFacts.

(** ** A step method made without step sizes *)

Section InitFacts.

Context {RNG : Type}.
Context (gaussian_random_draw : Q -> Q -> RNG -> Q * RNG).
Context (np_random : RNG -> Q * RNG) (np_exp : Q -> Q).
Context (logp : gmap string Q -> Q) (np_sqrt : Q -> Q).

Local Abbreviation sample_with' :=
  (sample_with RNG gaussian_random_draw np_random np_exp logp np_sqrt).

(** Tuning looks up the step size of the first free parameter first. *)
Lemma pre_tune_first_key (proposal_distribution : Q -> Q -> RNG -> Q * RNG)
    (m n : nat) (key : string) (keys : list string)
    (vals ss : gmap string Q) (g : RNG) :
  ss !! key = None ->
  pre_tune RNG proposal_distribution np_random np_exp logp np_sqrt
    m n (key :: keys) vals ss g = Raise (KeyError key).
Proof.
  intros Hnone. unfold pre_tune, phaseA. rewrite phaseA_order_keys.
  cbn [for_each]. unfold tune_parameter at 1.
  rewrite Nat.add_1_r. cbn [while_loop]. unfold phaseA_turn at 1.
  cbn [initA a_state step_sizes]. by rewrite Hnone.
Qed.


End InitFacts.

(** ** Tuning, then sampling *)

Section TunedFacts.

Context {RNG : Type}.
Context (proposal_distribution : Q -> Q -> RNG -> Q * RNG).
Context (np_random : RNG -> Q * RNG) (np_exp : Q -> Q).
Context (logp : gmap string Q -> Q) (np_sqrt : Q -> Q).
Context (keys : list string).

Local Abbreviation step :=
  (sample_step RNG proposal_distribution np_random np_exp logp keys).


End TunedFacts.

(** ** Phase B keeps the proportions of phase A *)

Section ProportionFacts.

Context {RNG : Type}.
Context (proposal_distribution : Q -> Q -> RNG -> Q * RNG).
Context (np_random : RNG -> Q * RNG) (np_exp : Q -> Q).
Context (logp : gmap string Q -> Q) (np_sqrt : Q -> Q).
Context (m n : nat) (keys : list string).

Local Abbreviation turnB :=
  (phaseB_turn RNG proposal_distribution np_random np_exp logp m n keys).

(** The step sizes of the free parameters are those of [ss0], all
    multiplied by [c]. *)
Local Abbreviation scaled ss0 c ss :=
  (forall key sz, key ∈ keys -> ss0 !! key = Some sz ->
     exists sz', ss !! key = Some sz' /\ sz' == sz * c).

Lemma phaseB_turn_scaled (orig ss0 : gmap string Q) (l l' : loopB RNG) :
  NoDup keys -> turnB orig l = Continue l' ->
  (exists c, scaled ss0 c (step_sizes (b_state l))) ->
  exists c, scaled ss0 c (step_sizes (b_state l')).
Proof.
  intros Hnd Hturn [c Hc]. apply phaseB_turn_continue in Hturn.
  destruct Hturn as (_ & _ & _ & _ & (vals0 & vals1 & g & Hp) & _).
  destruct (Nat.eq_dec (b_i l mod n) 0%nat) as [Hk|Hk].
  - rewrite Hk in Hp. exists (c * b_rescale_factor l). intros key sz Hkey Hsz.
    destruct (Hc key sz Hkey Hsz) as (sz' & Hsz' & Heq).
    destruct (perturb_start _ _ _ _ _ _ _ _ _ Hnd Hp key) as [Hin _].
    rewrite (Hin Hkey), Hsz'. eexists. split; [done|].
    rewrite Heq. ring.
  - apply perturb_inside in Hp; [|done]. rewrite Hp. by exists c.
Qed.

(** X26.  Phase B rescales the step sizes together: when [pre_tune]
    returns, the step sizes of the free parameters are the ones phase A
    arrived at, all multiplied by one and the same factor. *)
Theorem pre_tune_common_factor (vals ss : gmap string Q) (g : RNG)
    (t : tuner RNG) :
  NoDup keys ->
  pre_tune RNG proposal_distribution np_random np_exp logp np_sqrt
    m n keys vals ss g = Ok t ->
  exists (t1 : tuner RNG) (c : Q),
    phaseA RNG proposal_distribution np_random np_exp logp m n keys
      (assign_all keys vals ∅) (Tuner vals ss (assign_all keys vals ∅) g)
    = Ok t1 /\
    forall key sz, key ∈ keys -> step_sizes t1 !! key = Some sz ->
      exists sz', step_sizes t !! key = Some sz' /\ sz' == sz * c.
Proof.
  intros Hnd. unfold pre_tune.
  destruct (phaseA _ _ _ _ _ _ _ _ _ _) as [t1|e]; [|discriminate]. cbn [bind].
  intros HB. apply phaseB_ok in HB. destruct HB as (k & l & Hr & _ & ->).
  assert (Hinv : exists c, forall key sz, key ∈ keys ->
            step_sizes t1 !! key = Some sz ->
            exists sz', step_sizes (b_state l) !! key = Some sz' /\ sz' == sz * c).
  { apply (reaches_keeps
             (phaseB_turn RNG proposal_distribution np_random np_exp logp
                m n keys (assign_all keys vals ∅))
             (fun l => exists c, forall key sz, key ∈ keys ->
                step_sizes t1 !! key = Some sz ->
                exists sz', step_sizes (b_state l) !! key = Some sz' /\
                            sz' == sz * c))
      with (k := k) (s := initB logp np_sqrt n keys t1); [|done|].
    - intros s s' Hs Hturn.
      by apply (phaseB_turn_scaled (assign_all keys vals ∅) (step_sizes t1) s s').
    - exists 1. intros key sz _ Hsz. exists sz. split; [done | ring]. }
  destruct Hinv as [c Hc]. by exists t1, c.
Qed.

End ProportionFacts.

(** ** More on the ancestry resolver *)

(** More turns than the walk needs change nothing. *)
Lemma trace_loop_fuel (fuel : nat) :
  forall (fuel' counter : nat) (ps : list (string * pyobj)) (r : result nat),
  trace_loop fuel counter ps = Some r -> (fuel <= fuel')%nat ->
  trace_loop fuel' counter ps = Some r.
Proof.
  induction fuel as [|fuel IH]; intros fuel' counter ps r H Hle;
    simpl in H; [discriminate|].
  destruct fuel' as [|fuel']; [lia|]. simpl.
  destruct (scan_level ps) as [checks gps].
  destruct checks as [|c checks]; [done|].
  destruct (negb (existsb id (c :: checks))); [done|].
  apply (IH fuel'); [done | lia].
Qed.

Lemma trace_ancestries_fuel (fuel fuel' : nat) (free : list (string * pyobj)) :
  forall (ancestries : gmap string nat) (r : result (gmap string nat)),
  trace_ancestries fuel free ancestries = Some r -> (fuel <= fuel')%nat ->
  trace_ancestries fuel' free ancestries = Some r.
Proof.
  induction free as [|[key stoch] free IH]; intros ancestries r H Hle;
    simpl in *; [done|].
  destruct (trace_loop fuel 0 (parents_of stoch)) as [r0|] eqn:Hloop;
    [|discriminate].
  rewrite (trace_loop_fuel fuel fuel' _ _ r0 Hloop Hle).
  destruct r0 as [counter|e]; [by apply IH | done].
Qed.

(** A depth the walk returns lies between 1 and the number of generations
    of the longest lineage. *)
Lemma trace_loop_depth (fuel counter : nat) (ps : list (string * pyobj))
    (d : nat) :
  trace_loop fuel counter ps = Some (Ok d) ->
  (counter < d <= counter + 1 + level_generations ps)%nat.
Proof.
  intros H.
  destruct (trace_loop_total (fuel + S (level_generations ps)) counter ps)
    as (r & Hr & Hd); [lia|].
  rewrite (trace_loop_fuel fuel _ counter ps (Ok d) H) in Hr by lia.
  inversion Hr; subst r. by apply Hd.
Qed.

Lemma trace_loop_not_constant (fuel counter : nat) (c : Q) (d : nat) :
  trace_loop fuel counter (parents_of (Other c)) <> Some (Ok d).
Proof.
  destruct fuel; simpl; discriminate.
Qed.

(** What [trace_ancestries] adds to the dict it is filling. *)
Lemma trace_ancestries_entries (fuel : nat) (free : list (string * pyobj)) :
  forall ancestries0 ancestries : gmap string nat,
  trace_ancestries fuel free ancestries0 = Some (Ok ancestries) ->
  (forall key, is_Some (ancestries !! key) <->
               is_Some (ancestries0 !! key) \/ key ∈ free.*1) /\
  (forall key d, ancestries !! key = Some d ->
     ancestries0 !! key = Some d \/
     exists stoch, (key, stoch) ∈ free /\ (1 <= d <= generations stoch)%nat).
Proof.
  induction free as [|[key0 stoch] free IH]; intros anc0 anc H; simpl in H.
  - inversion H; subst anc. split.
    + intros key. split; [by left|]. intros [?|Hin]; [done|].
      by apply elem_of_nil in Hin.
    + intros key d Hd. by left.
  - destruct (trace_loop fuel 0 (parents_of stoch)) as [[counter|e]|] eqn:Hloop;
      [|discriminate..].
    destruct (IH _ _ H) as [IH1 IH2]. split.
    + intros key. rewrite IH1. cbn [fmap list_fmap fst].
      rewrite elem_of_cons.
      destruct (String.string_dec key0 key) as [->|Hne].
      * rewrite lookup_insert_eq. split; [intros _; right; by left|].
        intros _. left. eauto.
      * rewrite lookup_insert_ne by done. split; [tauto|].
        intros [?|[?|?]]; [tauto|congruence|tauto].
    + intros key d Hd. destruct (IH2 key d Hd) as [Hin|(s & Hs & Hb)].
      * destruct (String.string_dec key0 key) as [->|Hne].
        -- rewrite lookup_insert_eq in Hin. inversion Hin; subst counter.
           right. exists stoch. split; [left|].
           destruct stoch as [c|name ps];
             [by apply trace_loop_not_constant in Hloop|].
           apply trace_loop_depth in Hloop. rewrite generations_Stoch.
           simpl in Hloop. lia.
        -- rewrite lookup_insert_ne in Hin by done. by left.
      * right. exists s. split; [by right | done].
Qed.

(** X12.  The walk of [trace_ancestries] ends on every model, in no more
    turns per variable than its longest lineage has generations; what it
    returns or raises does not depend on how many more turns it is
    allowed. *)
Theorem trace_ancestries_terminates (free : list (string * pyobj))
    (ancestries : gmap string nat) :
  exists r, forall fuel,
    (forall key stoch, (key, stoch) ∈ free ->
       (level_generations (parents_of stoch) < fuel)%nat) ->
    trace_ancestries fuel free ancestries = Some r.
Proof.
  set (bound := S (foldr (fun e b =>
                            Nat.max (level_generations (parents_of e.2)) b)
                     0%nat free)).
  assert (Hbound : forall key stoch, (key, stoch) ∈ free ->
            (level_generations (parents_of stoch) < bound)%nat).
  { unfold bound. clear. induction free as [|[k s] free IH]; intros key stoch Hin.
    - by apply elem_of_nil in Hin.
    - apply elem_of_cons in Hin. simpl. destruct Hin as [Heq|Hin].
      + inversion Heq; subst. lia.
      + specialize (IH _ _ Hin). lia. }
  destruct (trace_ancestries_total bound free ancestries Hbound) as [r Hr].
  exists r. intros fuel Hfuel.
  destruct (trace_ancestries_total (Nat.min fuel bound) free ancestries)
    as [r' Hr'].
  { intros key stoch Hin. specialize (Hfuel _ _ Hin).
    specialize (Hbound _ _ Hin). lia. }
  rewrite (trace_ancestries_fuel _ bound _ _ _ Hr') in Hr by lia.
  inversion Hr; subst r'.
  apply (trace_ancestries_fuel _ fuel _ _ _ Hr'). lia.
Qed.

(** X13.  When [trace_ancestries] returns, [model._ancestries] has an entry
    for the free variables and for nothing else, and every depth is at
    least 1 and at most the number of generations of the longest lineage
    of its variable: the walk may miss generations, it never invents
    one. *)
Theorem trace_ancestries_depths (fuel : nat) (free : list (string * pyobj))
    (ancestries : gmap string nat) :
  trace_ancestries fuel free ∅ = Some (Ok ancestries) ->
  (forall key, is_Some (ancestries !! key) <-> key ∈ free.*1) /\
  (forall key d, ancestries !! key = Some d ->
     exists stoch, (key, stoch) ∈ free /\ (1 <= d <= generations stoch)%nat).
Proof.
  intros H. destruct (trace_ancestries_entries _ _ _ _ H) as [H1 H2]. split.
  - intros key. rewrite H1, lookup_empty. split; [|by right].
    intros [[x Hx]|Hin]; [discriminate | done].
  - intros key d Hd. destruct (H2 key d Hd) as [Hin|Hs]; [|done].
    by rewrite lookup_empty in Hin.
Qed.

(** *** Levels that are never empty *)

Lemma dict_set_nonempty {V : Type} (d : list (string * V)) (k : string) (v : V) :
  dict_set d k v <> [].
Proof.
  destruct d as [|[k' v'] d]; simpl; [done|].
  by destruct (String.eqb k' k).
Qed.

Lemma collect_parents_nonempty (gp ps : list (string * pyobj)) :
  gp <> [] \/ ps <> [] ->
  foldl (fun gp e => dict_set gp e.1 e.2) gp ps <> [].
Proof.
  revert gp. induction ps as [|[k v] ps IH]; intros gp H; cbn [foldl].
  - by destruct H.
  - apply IH. left. apply dict_set_nonempty.
Qed.

Lemma scan_level_nonempty (ps : list (string * pyobj))
    (acc : list bool * list (string * pyobj)) :
  acc.2 <> [] \/
  (exists k name pps, (k, Stoch name pps) ∈ ps /\ pps <> []) ->
  (foldl scan_parent acc ps).2 <> [].
Proof.
  revert acc. induction ps as [|[k0 p0] ps IH]; intros acc H; cbn [foldl].
  - destruct H as [H|(k & name & pps & Hin & _)]; [done|].
    by apply elem_of_nil in Hin.
  - apply IH. destruct H as [H|(k & name & pps & Hin & Hpps)].
    + left. unfold scan_parent. simpl.
      destruct (is_stochastic p0); [|done].
      apply collect_parents_nonempty. by left.
    + apply elem_of_cons in Hin. destruct Hin as [Heq|Hin].
      * inversion Heq; subst. left. unfold scan_parent. simpl.
        apply collect_parents_nonempty. by right.
      * right. by exists k, name, pps.
Qed.

Lemma trace_loop_with_parents (fuel : nat) :
  forall (counter : nat) (ps : list (string * pyobj)),
  with_parents ps -> (level_generations ps < fuel)%nat ->
  exists d, trace_loop fuel counter ps = Some (Ok d).
Proof.
  induction fuel as [|fuel IH]; intros counter ps Hps Hfuel; [lia|].
  destruct (trace_loop_total (S fuel) counter ps Hfuel) as (r & Hr & _).
  destruct r as [d|e]; [eauto|]. exfalso. simpl in Hr.
  destruct (scan_level ps) as [checks gps] eqn:Hscan.
  destruct (scan_level_spec ps ([], [])) as [Hchecks Hgps].
  unfold scan_level in Hscan. rewrite Hscan in Hchecks, Hgps.
  simpl in Hchecks, Hgps.
  destruct Hps as [ps Hne Hup].
  destruct checks as [|c checks].
  { destruct ps; [done | discriminate Hchecks]. }
  destruct (existsb id (c :: checks)) eqn:Hex; simpl in Hr; [|discriminate].
  apply existsb_exists in Hex. destruct Hex as (b & Hb & Hid).
  unfold id in Hid. subst b. rewrite Hchecks in Hb.
  apply in_map_iff in Hb. destruct Hb as ([k0 p0] & Hs0 & Hin0). simpl in Hs0.
  apply list_elem_of_In in Hin0.
  destruct p0 as [c0|name0 pps0]; [discriminate|].
  assert (Hgne : gps <> []).
  { pose proof (scan_level_nonempty ps ([], [])) as Hn.
    rewrite Hscan in Hn. apply Hn. right. exists k0, name0, pps0.
    split; [done|]. by destruct (Hup _ _ _ Hin0). }
  assert (Hgup : with_parents gps).
  { constructor; [done|]. intros k name pps Hin.
    destruct (Hgps _ _ Hin) as [H|(k' & p & k'' & H1 & H2 & H3)];
      [by apply elem_of_nil in H|].
    destruct p as [c1|name1 pps1]; [discriminate|]. simpl in H3.
    destruct (Hup _ _ _ H1) as [pps1 _ Hup1]. by apply (Hup1 k'' name). }
  assert (Hlt : (level_generations gps < fuel)%nat).
  { pose proof (level_generations_elem _ _ _ Hin0) as H0.
    rewrite generations_Stoch in H0.
    apply Nat.le_lt_trans with (m := (level_generations ps - 1)%nat); [|lia].
    apply level_generations_below. intros k v Hin.
    destruct (Hgps k v Hin) as [H|(k' & p & k'' & H1 & H2 & H3)].
    - by apply elem_of_nil in H.
    - pose proof (level_generations_elem _ _ _ H1) as Hp.
      destruct p as [c1|n1 pps1]; [discriminate|].
      rewrite generations_Stoch in Hp. simpl in H3.
      pose proof (level_generations_elem _ _ _ H3). lia. }
  destruct (IH (S counter) gps Hgup Hlt) as [d Hd]. congruence.
Qed.

(** X14.  In a model in which every variable has at least one parent,
    [trace_ancestries] raises nothing: it stores a depth for every free
    variable. *)
Theorem trace_ancestries_with_parents (fuel : nat)
    (free : list (string * pyobj)) :
  (forall key stoch, (key, stoch) ∈ free ->
     with_parents (parents_of stoch) /\
     (level_generations (parents_of stoch) < fuel)%nat) ->
  forall ancestries0 : gmap string nat,
  exists ancestries,
    trace_ancestries fuel free ancestries0 = Some (Ok ancestries).
Proof.
  induction free as [|[key stoch] free IH]; intros Hfree anc0; simpl; [eauto|].
  destruct (Hfree key stoch) as [Hup Hfuel]; [left|].
  destruct (trace_loop_with_parents fuel 0 _ Hup Hfuel) as [d ->].
  apply IH. intros k s Hin. apply (Hfree k). by right.
Qed.

(** *** Single lineages *)

Lemma level_generations_constants (ps : list (string * pyobj)) :
  Forall (fun e => is_stochastic e.2 = false) ps -> level_generations ps = 0%nat.
Proof.
  induction 1 as [|[k p] ps Hp _ IH]; [done|]. simpl. rewrite IH.
  by destruct p.
Qed.

Lemma level_generations_app (ps qs : list (string * pyobj)) :
  level_generations (ps ++ qs)
  = Nat.max (level_generations ps) (level_generations qs).
Proof.
  induction ps as [|[k p] ps IH]; simpl; [done|]. rewrite IH. lia.
Qed.

Lemma scan_constants (ps : list (string * pyobj))
    (acc : list bool * list (string * pyobj)) :
  Forall (fun e => is_stochastic e.2 = false) ps ->
  foldl scan_parent acc ps = (acc.1 ++ replicate (length ps) false, acc.2).
Proof.
  intros H. revert acc. induction H as [|[k p] ps Hp _ IH]; intros acc;
    cbn [foldl].
  - rewrite app_nil_r. by destruct acc.
  - rewrite IH. unfold scan_parent. simpl in *. rewrite Hp.
    by rewrite <- app_assoc.
Qed.

Lemma dict_set_fresh {V : Type} (d : list (string * V)) (k : string) (v : V) :
  k ∉ d.*1 -> dict_set d k v = d ++ [(k, v)].
Proof.
  induction d as [|[k' v'] d IH]; intros Hk; simpl; [done|].
  destruct (String.eqb_spec k' k) as [->|Hne].
  - exfalso. apply Hk. left.
  - rewrite IH; [done|]. intros Hin. apply Hk. by right.
Qed.

(** A dict filled from a dict is a copy of it. *)
Lemma collect_parents_copy (gp ps : list (string * pyobj)) :
  NoDup (gp ++ ps).*1 ->
  foldl (fun gp e => dict_set gp e.1 e.2) gp ps = gp ++ ps.
Proof.
  revert gp. induction ps as [|[k v] ps IH]; intros gp Hnd; cbn [foldl].
  - by rewrite app_nil_r.
  - simpl. rewrite dict_set_fresh.
    + rewrite IH; rewrite <- app_assoc; done.
    + rewrite fmap_app in Hnd. apply NoDup_app in Hnd.
      destruct Hnd as (_ & Hdisj & _). intros Hin.
      apply (Hdisj k Hin). left.
Qed.

Lemma existsb_replicate_false (n : nat) : existsb id (replicate n false) = false.
Proof.
  induction n as [|n IH]; [done|]. simpl. exact IH.
Qed.

Lemma trace_loop_single_lineage (ps : list (string * pyobj)) :
  single_lineage ps ->
  forall fuel counter : nat,
  (level_generations ps < fuel)%nat ->
  trace_loop fuel counter ps
  = Some (Ok (counter + 1 + level_generations ps)%nat).
Proof.
  induction 1 as [ps Hne Hnd Hconst|pre k name pps post Hnd Hpre Hpost Hup IH];
    intros fuel counter Hfuel.
  - destruct fuel as [|fuel]; [lia|]. simpl. unfold scan_level.
    rewrite scan_constants by done. simpl.
    rewrite level_generations_constants by done.
    destruct ps as [|e ps]; [done|]. simpl.
    rewrite existsb_replicate_false. simpl. do 2 f_equal. lia.
  - destruct fuel as [|fuel]; [lia|]. simpl. unfold scan_level.
    rewrite foldl_app. cbn [foldl]. rewrite (scan_constants pre) by done.
    rewrite scan_constants by done.
    unfold scan_parent at 1. simpl.
    assert (Hgen : level_generations (pre ++ (k, Stoch name pps) :: post)
                   = S (level_generations pps)).
    { rewrite level_generations_app. cbn [level_generations].
      rewrite generations_Stoch.
      rewrite (level_generations_constants pre), (level_generations_constants post)
        by done. lia. }
    rewrite Hgen in *.
    rewrite (collect_parents_copy [] pps).
    2:{ simpl. inversion Hup; subst; done. }
    simpl.
    destruct (replicate (length pre) false ++ [true]
              ++ replicate (length post) false) as [|c checks] eqn:Hchecks.
    { destruct pre; discriminate Hchecks. }
    replace (((replicate (length pre) false ++ [true])
              ++ replicate (length post) false)) with (c :: checks)
      by (rewrite <- Hchecks; by rewrite <- app_assoc).
    assert (Hex : existsb id (c :: checks) = true).
    { rewrite <- Hchecks. rewrite existsb_app. simpl.
      by rewrite orb_true_r. }
    rewrite Hex. simpl. rewrite IH by lia. do 2 f_equal. lia.
Qed.

(** X15.  On a model in which no variable has more than one stochastic
    parent the depth [trace_ancestries] stores for a free variable is the
    number of generations of its lineage, as the docstring says. *)
Theorem trace_ancestries_single_lineage (fuel : nat)
    (free : list (string * pyobj)) :
  NoDup free.*1 ->
  (forall key stoch, (key, stoch) ∈ free ->
     is_stochastic stoch = true /\
     single_lineage (parents_of stoch) /\
     (level_generations (parents_of stoch) < fuel)%nat) ->
  exists ancestries,
    trace_ancestries fuel free ∅ = Some (Ok ancestries) /\
    forall key stoch, (key, stoch) ∈ free ->
      ancestries !! key = Some (generations stoch).
Proof.
  generalize (∅ : gmap string nat) as anc0.
  induction free as [|[key stoch] free IH]; intros anc0 Hnd Hfree; simpl.
  - exists anc0. split; [done|]. intros key stoch Hin.
    by apply elem_of_nil in Hin.
  - destruct (Hfree key stoch) as (Hs & Hlin & Hfuel); [left|].
    rewrite (trace_loop_single_lineage _ Hlin fuel 0 Hfuel).
    apply NoDup_cons in Hnd. destruct Hnd as [Hkey Hnd].
    destruct (IH (<[key := (0 + 1 + level_generations (parents_of stoch))%nat]> anc0)
                Hnd) as (anc & Hrun & Hanc).
    { intros k s Hin. apply (Hfree k). by right. }
    exists anc. split; [done|]. intros k s Hin.
    apply elem_of_cons in Hin. destruct Hin as [Heq|Hin]; [|by apply Hanc].
    inversion Heq; subst k s; clear Heq.
    destruct (trace_ancestries_entries _ _ _ _ Hrun) as [_ H2].
    destruct (anc !! key) as [d|] eqn:Hd.
    + destruct (H2 key d Hd) as [H0|(s & Hin & _)].
      * rewrite lookup_insert_eq in H0. inversion H0; subst d. f_equal.
        destruct stoch as [c|name ps]; [discriminate|].
        rewrite generations_Stoch. simpl. lia.
      * exfalso. apply Hkey. apply list_elem_of_fmap. by exists (key, s).
    + exfalso. destruct (trace_ancestries_entries _ _ _ _ Hrun) as [H1 _].
      assert (Hsome : is_Some (anc !! key)).
      { apply H1. left. rewrite lookup_insert_eq. eauto. }
      destruct Hsome. congruence.
Qed.

(** ** More on random draws from the prior *)

Lemma collect_ancestries_raise (ancestries : gmap string nat)
    (keys : list string) (e : exn) :
  collect_ancestries ancestries keys = Raise e ->
  exists pre key post, keys = pre ++ key :: post /\
    (forall k, k ∈ pre -> is_Some (ancestries !! k)) /\
    ancestries !! key = None /\ e = KeyError key.
Proof.
  induction keys as [|k keys IH]; intros H; simpl in H; [discriminate|].
  destruct (ancestries !! k) as [d|] eqn:Hd.
  - destruct (collect_ancestries ancestries keys) as [rest|e']; [discriminate|].
    simpl in H. inversion H; subst e'; clear H.
    destruct (IH eq_refl) as (pre & key & post & -> & Hpre & Hnone & ->).
    exists (k :: pre), key, post. split; [done|]. split; [|done].
    intros k' [->|Hin]%elem_of_cons; eauto.
  - inversion H; subst e. exists [], k, keys. split; [done|].
    split; [|done]. intros k' Hin. by apply elem_of_nil in Hin.
Qed.

Lemma collect_ancestries_ok (ancestries : gmap string nat)
    (keys : list string) (a : list nat) :
  collect_ancestries ancestries keys = Ok a ->
  forall key, key ∈ keys -> is_Some (ancestries !! key).
Proof.
  revert a. induction keys as [|k keys IH]; intros a H key Hkey; simpl in H.
  - by apply elem_of_nil in Hkey.
  - destruct (ancestries !! k) as [d|] eqn:Hd; [|discriminate].
    destruct (collect_ancestries ancestries keys) as [rest|e]; [|discriminate].
    apply elem_of_cons in Hkey. destruct Hkey as [->|Hkey]; [eauto|].
    by apply (IH rest).
Qed.

(** [keys[ixs]] for the positions [np.argsort] returns lists every key
    once. *)
Lemma take_ixs_argsort (keys : list string) (a : list nat) :
  length a = length keys -> take_ixs keys (argsort a) ≡ₚ keys.
Proof.
  intros Hlen. destruct (argsort_sorted a) as [_ Hperm].
  unfold take_ixs. rewrite Hperm, Hlen.
  rewrite <- (phaseA_order_keys keys) at 2. done.
Qed.

Section DrawFacts.

Context {RNG : Type}.
Context (stoch_random : string -> gmap string Q -> RNG -> Q * RNG).

Local Abbreviation draw' := (draw RNG stoch_random).

(** The draws themselves never raise; they write the variables drawn. *)
Lemma draws_ok (order : list string) :
  forall (vals : gmap string Q) (g : RNG),
  exists vals' g',
    for_each draw' order (vals, g) = Ok (vals', g') /\
    (forall name, name ∉ order -> vals' !! name = vals !! name) /\
    (forall key, key ∈ order -> is_Some (vals' !! key)).
Proof.
  induction order as [|k order IH]; intros vals g; simpl.
  - exists vals, g. split; [done|]. split; [done|].
    intros key Hkey. by apply elem_of_nil in Hkey.
  - unfold draw at 1. simpl. destruct (stoch_random k vals g) as [x g1].
    simpl. destruct (IH (<[k := x]> vals) g1) as (vals' & g' & Hrun & Hout & Hin).
    exists vals', g'. split; [done|]. split.
    + intros name Hname. rewrite Hout by (intros ?; apply Hname; by right).
      rewrite lookup_insert_ne; [done|]. intros ->. apply Hname. left.
    + intros key [->|Hkey]%elem_of_cons; [|by apply Hin].
      destruct (bool_decide_reflect (k ∈ order)) as [Hk|Hk]; [by apply Hin|].
      rewrite Hout by done. rewrite lookup_insert_eq. eauto.
Qed.

(** X16.  [random_draw_from_Model] returns exactly when [model._ancestries]
    has a depth for every free variable, and then every free variable has
    been given a value and nothing else has changed; otherwise it raises
    [KeyError] for the first free variable without a depth, before any
    draw. *)
Theorem random_draw_result (keys : list string)
    (ancestries : gmap string nat) (vals : gmap string Q) (g : RNG) :
  match random_draw_from_Model RNG stoch_random keys ancestries vals g with
  | Ok (vals', g') =>
      (forall key, key ∈ keys -> is_Some (ancestries !! key)) /\
      (forall key, key ∈ keys -> is_Some (vals' !! key)) /\
      (forall name, name ∉ keys -> vals' !! name = vals !! name)
  | Raise e =>
      exists pre key post, keys = pre ++ key :: post /\
        (forall k, k ∈ pre -> is_Some (ancestries !! k)) /\
        ancestries !! key = None /\ e = KeyError key
  end.
Proof.
  unfold random_draw_from_Model.
  destruct (collect_ancestries ancestries keys) as [a|e] eqn:Ha; cbn [bind].
  - destruct (collect_ancestries_lookup _ _ _ Ha) as [Hlen _].
    pose proof (take_ixs_argsort keys a Hlen) as Hperm.
    destruct (draws_ok (take_ixs keys (argsort a)) vals g)
      as (vals' & g' & -> & Hout & Hin).
    split; [by apply (collect_ancestries_ok _ _ a)|]. split.
    + intros key Hkey. apply Hin. by rewrite Hperm.
    + intros name Hname. apply Hout. by rewrite Hperm.
  - by apply collect_ancestries_raise.
Qed.

(** X17.  The depths [trace_ancestries] stores are all
    [random_draw_from_Model] needs: after a call of the first that
    returned, the second returns, too. *)
Theorem random_draw_after_trace (fuel : nat) (free : list (string * pyobj))
    (ancestries : gmap string nat) (vals : gmap string Q) (g : RNG) :
  trace_ancestries fuel free ∅ = Some (Ok ancestries) ->
  exists vals' g',
    random_draw_from_Model RNG stoch_random free.*1 ancestries vals g
    = Ok (vals', g').
Proof.
  intros Htrace. destruct (trace_ancestries_entries _ _ _ _ Htrace) as [H1 _].
  unfold random_draw_from_Model.
  destruct (collect_ancestries ancestries free.*1) as [a|e] eqn:Ha; cbn [bind].
  - destruct (draws_ok (take_ixs free.*1 (argsort a)) vals g)
      as (vals' & g' & -> & _). eauto.
  - apply collect_ancestries_raise in Ha.
    destruct Ha as (pre & key & post & Hkeys & _ & Hnone & _).
    assert (Hsome : is_Some (ancestries !! key)).
    { apply H1. right. rewrite Hkeys. apply elem_of_app. right. left. }
    destruct Hsome. congruence.
Qed.

End DrawFacts.

(** ** Dicts *)

Lemma map_order_laws : @key_order_laws map_order.
Proof.
  intros V d. unfold dict_keys, map_order. split.
  - apply NoDup_fst_map_to_list.
  - intros k. rewrite list_elem_of_fmap. split.
    + intros ([k' v] & -> & Hin). apply elem_of_map_to_list in Hin. eauto.
    + intros [v Hv]. exists (k, v). split; [done|].
      by apply elem_of_map_to_list.
Qed.

Lemma foldl_pointwise {A B : Type} (f g : A -> B -> A) (l : list B) (a : A) :
  (forall a b, f a b = g a b) -> foldl f a l = foldl g a l.
Proof.
  intros Hfg. revert a. induction l as [|b l IH]; intros a; simpl; [done|].
  by rewrite Hfg, IH.
Qed.

(** A dict filled from the selected entries of a list of distinct keys. *)
Lemma fold_select {V W : Type} (sel : V -> option W) (l : list (string * V)) :
  NoDup l.*1 ->
  forall (acc : gmap string W) (k : string),
  foldl (fun acc e =>
           match sel e.2 with
           | Some w => <[e.1 := w]> acc
           | None => acc
           end) acc l !! k
  = match (list_to_map l : gmap string V) !! k ≫= sel with
    | Some w => Some w
    | None => acc !! k
    end.
Proof.
  induction l as [|[k0 v0] l IH]; intros Hnd acc k; cbn [foldl].
  - cbn [list_to_map foldr]. by rewrite lookup_empty.
  - cbn [fmap list_fmap fst] in Hnd. apply NoDup_cons in Hnd.
    destruct Hnd as [Hk0 Hnd]. rewrite IH by done. cbn [list_to_map foldr fst snd].
    destruct (String.string_dec k0 k) as [->|Hne].
    + rewrite lookup_insert_eq. rewrite (not_elem_of_list_to_map_1 l k Hk0).
      simpl. destruct (sel v0) as [w|]; [by rewrite lookup_insert_eq | done].
    + rewrite lookup_insert_ne by done.
      destruct (list_to_map l !! k ≫= sel) as [w|]; [done|].
      destruct (sel v0) as [w|]; [by rewrite lookup_insert_ne | done].
Qed.

Section DictFacts.

Context `{KeyOrder} (Hlaws : key_order_laws).

Lemma dict_items_fst {V : Type} (d : gmap string V) :
  (dict_items d).*1 = dict_keys d.
Proof.
  unfold dict_items. destruct (Hlaws V d) as [_ Helem].
  assert (Hall : forall k, k ∈ dict_keys d -> is_Some (d !! k))
    by (intros k; apply Helem).
  clear Helem. induction (dict_keys d) as [|k ks IH]; [done|]. cbn.
  destruct (Hall k) as [v Hv]; [left|]. rewrite Hv. cbn. f_equal.
  apply IH. intros k' Hk'. apply Hall. by right.
Qed.

Lemma dict_items_NoDup {V : Type} (d : gmap string V) : NoDup (dict_items d).*1.
Proof.
  rewrite dict_items_fst. apply Hlaws.
Qed.

Lemma dict_items_elem {V : Type} (d : gmap string V) (k : string) (v : V) :
  (k, v) ∈ dict_items d <-> d !! k = Some v.
Proof.
  unfold dict_items. rewrite list_elem_of_omap. split.
  - intros (k' & _ & Hk'). destruct (d !! k') as [v'|] eqn:Hv; [|discriminate].
    simpl in Hk'. by inversion Hk'; subst.
  - intros Hv. exists k. split; [apply Hlaws; eauto|]. by rewrite Hv.
Qed.

(** The entries of a dict, whatever their order, make up the dict. *)
Lemma dict_items_map {V : Type} (d : gmap string V) :
  list_to_map (dict_items d) = d.
Proof.
  apply map_eq. intros k. destruct (d !! k) as [v|] eqn:Hv.
  - apply elem_of_list_to_map; [apply dict_items_NoDup|].
    by apply dict_items_elem.
  - apply not_elem_of_list_to_map_1. rewrite dict_items_fst.
    intros Hin. apply Hlaws in Hin. destruct Hin. congruence.
Qed.

Lemma dict_items_length {V : Type} (d : gmap string V) :
  length (dict_items d) = size d.
Proof.
  rewrite <- (length_fmap fst), dict_items_fst.
  rewrite <- length_map_to_list, <- (length_fmap fst (map_to_list d)).
  apply Permutation_length. apply NoDup_Permutation.
  - apply Hlaws.
  - apply NoDup_fst_map_to_list.
  - intros k. destruct (map_order_laws V d) as [_ Helem].
    unfold dict_keys at 1, map_order in Helem. rewrite Helem. apply Hlaws.
Qed.

(** [hasattr] by [hasattr], [setattr] by [setattr]: what one key of the
    object holds afterwards. *)
Lemma update_attributes_lookup {V : Type} (refused : string -> V -> bool)
    (object dictionary : gmap string V) (k : string) :
  update_attributes refused object dictionary !! k
  = match object !! k with
    | Some x => Some x
    | None =>
        match dictionary !! k with
        | Some v => if refused k v then None else Some v
        | None => None
        end
    end.
Proof.
  assert (Hlist : forall (l : list (string * V)) (obj : gmap string V),
    NoDup l.*1 ->
    foldl (fun obj e =>
             match obj !! e.1 with
             | Some _ => obj
             | None =>
                 match setattr refused obj e.1 e.2 with
                 | Some obj' => obj'
                 | None => obj
                 end
             end) obj l !! k
    = match obj !! k with
      | Some x => Some x
      | None =>
          match (list_to_map l : gmap string V) !! k with
          | Some v => if refused k v then None else Some v
          | None => None
          end
      end).
  { induction l as [|[k0 v0] l IH]; intros obj Hnd; cbn [foldl].
    - cbn [list_to_map foldr]. rewrite lookup_empty. by destruct (obj !! k).
    - cbn [fmap list_fmap fst] in Hnd. apply NoDup_cons in Hnd.
      destruct Hnd as [Hk0 Hnd]. rewrite IH by done.
      cbn [list_to_map foldr fst snd]. unfold setattr.
      destruct (String.string_dec k0 k) as [->|Hne].
      + rewrite lookup_insert_eq, (not_elem_of_list_to_map_1 l k Hk0).
        destruct (obj !! k) as [x|] eqn:Hx; [by rewrite Hx|].
        destruct (refused k v0); [by rewrite Hx | by rewrite lookup_insert_eq].
      + rewrite (lookup_insert_ne _ k0 k) by done.
        destruct (obj !! k0) as [x|]; [done|].
        destruct (refused k0 v0); [done|]. by rewrite lookup_insert_ne. }
  unfold update_attributes.
  rewrite (Hlist (dict_items dictionary) object (dict_items_NoDup dictionary)).
  by rewrite dict_items_map.
Qed.

(** X18.  [update_attributes] gives the object every entry of the dict it
    has no attribute for and [setattr] does not refuse, and changes no
    attribute it has - an entry [setattr] raises on is skipped by the
    [except] clause: whatever the order of the keys, the attributes
    afterwards are the union of the object's own and the entries that are
    not refused, the object's own first.  When [setattr] refuses no entry
    of the dict, that is the union of the two.  A second call changes
    nothing. *)
Theorem update_attributes_union {V : Type} (refused : string -> V -> bool)
    (object dictionary : gmap string V) :
  update_attributes refused object dictionary
  = object ∪ filter (fun e => refused e.1 e.2 = false) dictionary /\
  ((forall k v, dictionary !! k = Some v -> refused k v = false) ->
   update_attributes refused object dictionary = object ∪ dictionary) /\
  (forall k v, object !! k = None -> dictionary !! k = Some v ->
     refused k v = true ->
     update_attributes refused object dictionary !! k = None) /\
  update_attributes refused (update_attributes refused object dictionary)
    dictionary
  = update_attributes refused object dictionary.
Proof.
  split; [|split; [|split]].
  - apply map_eq. intros k. rewrite update_attributes_lookup, lookup_union.
    destruct (object !! k) as [x|]; [by rewrite union_Some_l|].
    rewrite (left_id None union).
    destruct (dictionary !! k) as [v|] eqn:Hv.
    + destruct (refused k v) eqn:Hr; symmetry.
      * apply map_lookup_filter_None. right. intros v' Hv'. cbn.
        rewrite Hv in Hv'. inversion Hv'; subst v'. by rewrite Hr.
      * by apply map_lookup_filter_Some.
    + symmetry. apply map_lookup_filter_None. by left.
  - intros Hall. apply map_eq. intros k.
    rewrite update_attributes_lookup, lookup_union.
    destruct (object !! k) as [x|]; [by rewrite union_Some_l|].
    rewrite (left_id None union).
    destruct (dictionary !! k) as [v|] eqn:Hv; [|done].
    by rewrite (Hall k v Hv).
  - intros k v Hobj Hdict Hr.
    by rewrite update_attributes_lookup, Hobj, Hdict, Hr.
  - apply map_eq. intros k. rewrite !update_attributes_lookup.
    destruct (object !! k) as [x|]; [done|].
    destruct (dictionary !! k) as [v|]; [|done].
    by destruct (refused k v).
Qed.

(** What [identify_stochastics] keeps. *)
Lemma identify_stochastics_lookup (dictionary : gmap string model_obj)
    (key : string) :
  identify_stochastics dictionary !! key
  = match dictionary !! key with
    | Some (Obj_stoch s) => Some s
    | _ => None
    end.
Proof.
  unfold identify_stochastics.
  set (sel := fun o : model_obj =>
                match o with
                | Obj_stoch s => Some s
                | Obj_other _ => None
                end).
  rewrite (foldl_pointwise _
             (fun acc e =>
                match sel e.2 with
                | Some w => <[e.1 := w]> acc
                | None => acc
                end)) by (intros a [k [c|s]]; done).
  rewrite (fold_select sel) by apply dict_items_NoDup.
  rewrite dict_items_map, lookup_empty.
  destruct (dictionary !! key) as [[c|s]|]; done.
Qed.

Lemma observed_stochastics_lookup (stochastics : gmap string model_obj)
    (key : string) :
  observed_stochastics stochastics !! key
  = match stochastics !! key with
    | Some (Obj_stoch s) => if stoch_observed s then Some s else None
    | _ => None
    end.
Proof.
  unfold observed_stochastics.
  set (sel := fun s : stoch => if stoch_observed s then Some s else None).
  rewrite (foldl_pointwise _
             (fun acc e =>
                match sel e.2 with
                | Some w => <[e.1 := w]> acc
                | None => acc
                end))
    by (intros a [k s]; unfold sel; simpl; by destruct (stoch_observed s)).
  rewrite (fold_select sel) by apply dict_items_NoDup.
  rewrite dict_items_map, lookup_empty, identify_stochastics_lookup.
  destruct (stochastics !! key) as [[c|s]|]; simpl; try done.
  unfold sel. by destruct (stoch_observed s).
Qed.

Lemma unobserved_stochastics_lookup (stochastics : gmap string model_obj)
    (key : string) :
  unobserved_stochastics stochastics !! key
  = match stochastics !! key with
    | Some (Obj_stoch s) => if stoch_observed s then None else Some s
    | _ => None
    end.
Proof.
  unfold unobserved_stochastics.
  set (sel := fun s : stoch => if stoch_observed s then None else Some s).
  rewrite (foldl_pointwise _
             (fun acc e =>
                match sel e.2 with
                | Some w => <[e.1 := w]> acc
                | None => acc
                end))
    by (intros a [k s]; unfold sel; simpl; by destruct (stoch_observed s)).
  rewrite (fold_select sel) by apply dict_items_NoDup.
  rewrite dict_items_map, lookup_empty, identify_stochastics_lookup.
  destruct (stochastics !! key) as [[c|s]|]; simpl; try done.
  unfold sel. by destruct (stoch_observed s).
Qed.

(** X19.  [observed_stochastics] and [unobserved_stochastics] split the
    [Stoch]s of a dict in two: no key is in both, together they are what
    [identify_stochastics] returns, and that is every [Stoch] of the dict
    under its own key. *)
Theorem stochastics_partition (stochastics : gmap string model_obj) :
  observed_stochastics stochastics ##ₘ unobserved_stochastics stochastics /\
  observed_stochastics stochastics ∪ unobserved_stochastics stochastics
  = identify_stochastics stochastics /\
  (forall key s, identify_stochastics stochastics !! key = Some s <->
                 stochastics !! key = Some (Obj_stoch s)) /\
  (forall key s, observed_stochastics stochastics !! key = Some s ->
                 stoch_observed s = true) /\
  (forall key s, unobserved_stochastics stochastics !! key = Some s ->
                 stoch_observed s = false).
Proof.
  split; [|split; [|split; [|split]]].
  - apply map_disjoint_spec. intros key s1 s2.
    rewrite observed_stochastics_lookup, unobserved_stochastics_lookup.
    destruct (stochastics !! key) as [[c|s]|]; try done.
    by destruct (stoch_observed s).
  - apply map_eq. intros key.
    rewrite lookup_union, observed_stochastics_lookup,
      unobserved_stochastics_lookup, identify_stochastics_lookup.
    destruct (stochastics !! key) as [[c|s]|]; try done.
    by destruct (stoch_observed s).
  - intros key s. rewrite identify_stochastics_lookup.
    destruct (stochastics !! key) as [[c|s']|]; split; intros Heq;
      inversion Heq; done.
  - intros key s. rewrite observed_stochastics_lookup.
    destruct (stochastics !! key) as [[c|s']|]; try done.
    destruct (stoch_observed s') eqn:Hs; [|done]. by intros [= <-].
  - intros key s. rewrite unobserved_stochastics_lookup.
    destruct (stochastics !! key) as [[c|s']|]; try done.
    destruct (stoch_observed s') eqn:Hs; [done|]. by intros [= <-].
Qed.

End DictFacts.

(** ** Names of the variables *)

Lemma remove_dups_length (l : list string) :
  (length (remove_dups l) <= length l)%nat /\
  (length (remove_dups l) = length l <-> NoDup l).
Proof.
  induction l as [|x l [IHle IHeq]]; simpl.
  - split; [lia|]. split; [constructor | done].
  - case_decide as Hx; simpl.
    + split; [lia|]. split; [lia|].
      intros Hnd. apply NoDup_cons in Hnd. by destruct Hnd.
    + split; [lia|]. rewrite NoDup_cons. split.
      * intros Hlen. split; [done|]. apply IHeq. lia.
      * intros [_ Hnd]. f_equal. by apply IHeq.
Qed.

Lemma np_unique_length (names : list string) :
  length (np_unique names) = length (remove_dups names).
Proof.
  unfold np_unique. apply Permutation_length, merge_sort_Permutation.
Qed.

(** The names of the entries of a dict are distinct exactly when no two
    entries share one. *)
Lemma names_NoDup (l : list (string * stoch)) :
  NoDup l.*1 ->
  NoDup ((fun e => stoch_name e.2) <$> l) <->
  forall k1 s1 k2 s2, (k1, s1) ∈ l -> (k2, s2) ∈ l ->
    stoch_name s1 = stoch_name s2 -> k1 = k2.
Proof.
  induction l as [|[k s] l IH]; intros Hnd.
  - split; [|constructor]. intros _ k1 s1 k2 s2 Hin.
    by apply elem_of_nil in Hin.
  - cbn [fmap list_fmap fst snd] in *. apply NoDup_cons in Hnd.
    destruct Hnd as [Hk Hnd]. rewrite NoDup_cons, (IH Hnd).
    assert (Hname : forall k' s', (k', s') ∈ l ->
              stoch_name s' ∈ (fun e : string * stoch => stoch_name e.2) <$> l).
    { intros k' s' Hin. apply list_elem_of_fmap. by exists (k', s'). }
    assert (Hkey : forall k' s', (k', s') ∈ l -> k' ∈ l.*1).
    { intros k' s' Hin. apply list_elem_of_fmap. by exists (k', s'). }
    split.
    + intros [Hs Hinj] k1 s1 k2 s2 H1 H2 Heq.
      apply elem_of_cons in H1. apply elem_of_cons in H2.
      destruct H1 as [H1|H1], H2 as [H2|H2].
      * congruence.
      * inversion H1; subst. exfalso. apply Hs. rewrite Heq. by apply (Hname k2).
      * inversion H2; subst. exfalso. apply Hs. rewrite <- Heq. by apply (Hname k1).
      * by apply (Hinj k1 s1 k2 s2).
    + intros Hinj. split.
      * intros Hin. apply list_elem_of_fmap in Hin.
        destruct Hin as ([k' s'] & Heq & Hin). simpl in Heq.
        assert (k = k') as ->; [|by apply Hk, (Hkey k' s')].
        apply (Hinj k s k' s'); [left | by right | done].
      * intros k1 s1 k2 s2 H1 H2. apply (Hinj k1 s1 k2 s2); by right.
Qed.

Section NameFacts.

Context `{KeyOrder} (Hlaws : key_order_laws).

(** X20.  [check_model_stochastics_names] returns exactly when no two
    variables of the model share a name, and raises its [ValueError]
    otherwise. *)
Theorem check_names_unique (stochastics : gmap string stoch) :
  (check_model_stochastics_names stochastics = Ok tt <->
   forall k1 s1 k2 s2,
     stochastics !! k1 = Some s1 -> stochastics !! k2 = Some s2 ->
     stoch_name s1 = stoch_name s2 -> k1 = k2) /\
  (check_model_stochastics_names stochastics = Ok tt \/
   check_model_stochastics_names stochastics
   = Raise (ValueError "Model variables do not all have unique names")).
Proof.
  unfold check_model_stochastics_names.
  set (names := (fun e : string * stoch => stoch_name e.2)
                  <$> dict_items stochastics).
  assert (Hsize : size stochastics = length names).
  { unfold names. by rewrite length_fmap, (dict_items_length Hlaws). }
  rewrite Hsize, np_unique_length.
  destruct (remove_dups_length names) as [_ Heq].
  pose proof (names_NoDup (dict_items stochastics)
                (dict_items_NoDup Hlaws stochastics)) as Hinj.
  fold names in Hinj.
  assert (Hentries : (forall k1 s1 k2 s2,
            (k1, s1) ∈ dict_items stochastics ->
            (k2, s2) ∈ dict_items stochastics ->
            stoch_name s1 = stoch_name s2 -> k1 = k2) <->
          (forall k1 s1 k2 s2,
            stochastics !! k1 = Some s1 -> stochastics !! k2 = Some s2 ->
            stoch_name s1 = stoch_name s2 -> k1 = k2)).
  { split; intros Hi k1 s1 k2 s2 H1 H2; apply (Hi k1 s1 k2 s2);
      by apply (dict_items_elem Hlaws). }
  rewrite <- Hentries, <- Hinj, <- Heq.
  destruct (Nat.eqb_spec (length names) (length (remove_dups names)))
    as [Hlen|Hlen]; simpl.
  - split; [|by left]. split; [by intros _ | done].
  - split; [|by right]. split; [discriminate|]. intros Hlen'. by rewrite Hlen' in Hlen.
Qed.

End NameFacts.

(** ** Combining chains *)

Lemma np_mod_pos (i thin : nat) : (0 < thin)%nat -> np_mod i thin = (i mod thin)%nat.
Proof.
  destruct thin; [lia | done].
Qed.

(** Every [thin]-th element, starting [skip] places from the front. *)
Lemma mask_select_lookup {A : Type} (thin : nat) :
  (0 < thin)%nat ->
  forall (chain : list A) (start skip j : nat),
  (skip < thin)%nat -> ((start + skip) mod thin = 0)%nat ->
  mask_select ((fun i => (np_mod i thin =? 0)%nat) <$> seq start (length chain))
    chain !! j
  = chain !! (skip + j * thin)%nat.
Proof.
  intros Hthin chain.
  induction chain as [|x chain IH]; intros start skip j Hskip Hmod; [done|].
  cbn [length seq fmap list_fmap mask_select].
  rewrite np_mod_pos by done.
  destruct skip as [|skip].
  - rewrite Nat.add_0_r in Hmod. rewrite Hmod. cbn [Nat.eqb].
    destruct j as [|j]; [done|]. rewrite lookup_cons.
    rewrite (IH (S start) (thin - 1)%nat j); [| lia |].
    + replace (0 + S j * thin)%nat with (S (thin - 1 + j * thin)) by lia. done.
    + replace (S start + (thin - 1))%nat with (start + 1 * thin)%nat by lia.
      by rewrite Nat.Div0.mod_add.
  - assert (Hne : (start mod thin)%nat <> 0%nat).
    { intros Hz.
      rewrite (Nat.div_mod_eq start thin), Hz, Nat.add_0_r in Hmod.
      replace (thin * (start / thin) + S skip)%nat
        with (S skip + start / thin * thin)%nat in Hmod by lia.
      rewrite Nat.Div0.mod_add, Nat.mod_small in Hmod by lia. lia. }
    apply Nat.eqb_neq in Hne. rewrite Hne.
    rewrite (IH (S start) skip j); [done | lia |].
    by replace (S start + skip)%nat with (start + S skip)%nat by lia.
Qed.

(** X21.  What [combine_chains] keeps of one series, for [thin >= 1]:
    sample number [nburn], then every [thin]-th one after it. *)
Theorem burn_and_thin_lookup (nburn thin : nat) (series : list Q) (j : nat) :
  (0 < thin)%nat ->
  burn_and_thin nburn thin series !! j = series !! (nburn + j * thin)%nat.
Proof.
  intros Hthin. unfold burn_and_thin, thin_mask.
  rewrite (mask_select_lookup thin Hthin _ 0 0 j); [|lia|].
  - by rewrite lookup_drop.
  - by rewrite Nat.Div0.mod_0_l.
Qed.

Lemma burn_and_thin_defaults (series : list Q) :
  burn_and_thin 0 1 series = series.
Proof.
  apply list_eq. intros j. unfold burn_and_thin, thin_mask.
  rewrite (mask_select_lookup 1 ltac:(lia) _ 0 0 j); [|lia|done].
  rewrite lookup_drop. f_equal. lia.
Qed.

(** The pieces of one key. *)
Lemma combine_key_ok (chain_list : list (gmap string (list Q)))
    (nburn thin : nat) (key : string) (pieces : list (list Q)) :
  combine_key chain_list nburn thin key = Ok pieces ->
  exists series_list,
    Forall2 (fun chain_i series => chain_i !! key = Some series)
      chain_list series_list /\
    pieces = burn_and_thin nburn thin <$> series_list.
Proof.
  revert pieces. induction chain_list as [|c cl IH]; intros pieces H; simpl in H.
  - inversion H; subst. exists []. split; [constructor | done].
  - destruct (c !! key) as [series|] eqn:Hc; [|discriminate].
    destruct (combine_key cl nburn thin key) as [rest|e]; [|discriminate].
    simpl in H. inversion H; subst pieces.
    destruct (IH rest eq_refl) as (sl & Hall & ->).
    exists (series :: sl). split; [by constructor | done].
Qed.

Lemma combine_key_raise (chain_list : list (gmap string (list Q)))
    (nburn thin : nat) (key : string) (e : exn) :
  combine_key chain_list nburn thin key = Raise e ->
  e = KeyError key /\ exists chain_i, chain_i ∈ chain_list /\ chain_i !! key = None.
Proof.
  induction chain_list as [|c cl IH]; intros H; simpl in H; [discriminate|].
  destruct (c !! key) as [series|] eqn:Hc.
  - destruct (combine_key cl nburn thin key) as [rest|e']; [discriminate|].
    simpl in H. inversion H; subst e'.
    destruct (IH eq_refl) as [-> (ci & Hin & Hnone)].
    split; [done|]. exists ci. split; [by right | done].
  - inversion H. split; [done|]. exists c. split; [left | done].
Qed.

(** The loop over the keys of the first chain. *)
Lemma combine_loop_ok (chain_list : list (gmap string (list Q)))
    (nburn thin : nat) (keys : list string) :
  forall combined0 combined : gmap string (list Q),
  for_each
    (fun key combined =>
       do pieces <- combine_key chain_list nburn thin key;
       Ok (<[key := concat pieces]> combined))
    keys combined0 = Ok combined ->
  forall key,
    (key ∈ keys ->
     exists series_list,
       Forall2 (fun chain_i series => chain_i !! key = Some series)
         chain_list series_list /\
       combined !! key
       = Some (concat (burn_and_thin nburn thin <$> series_list))) /\
    (key ∉ keys -> combined !! key = combined0 !! key).
Proof.
  induction keys as [|k keys IH]; intros combined0 combined H key; simpl in H.
  - inversion H; subst. split; [|done]. intros Hin. by apply elem_of_nil in Hin.
  - destruct (combine_key chain_list nburn thin k) as [pieces|e] eqn:Hk;
      [|discriminate]. simpl in H.
    destruct (IH _ _ H key) as [IHin IHout]. split.
    + intros Hin. destruct (bool_decide_reflect (key ∈ keys)) as [Hkeys|Hkeys];
        [by apply IHin|].
      apply elem_of_cons in Hin. destruct Hin as [->|Hin]; [|contradiction].
      rewrite IHout by done. rewrite lookup_insert_eq.
      apply combine_key_ok in Hk. destruct Hk as (sl & Hall & ->). eauto.
    + intros Hout. rewrite IHout by (intros ?; apply Hout; by right).
      rewrite lookup_insert_ne; [done|]. intros ->. apply Hout. left.
Qed.

Section ChainFacts.

Context `{KeyOrder} (Hlaws : key_order_laws).

(** X22.  What [combine_chains] returns and raises.  It raises
    [IndexError] for an empty list, and [KeyError] when a chain lacks a
    key of the first chain.  Otherwise the combined chain has the keys of
    the first chain, and under each the series of all the chains, burnt
    and thinned one by one and put end to end in the order of the list;
    keys that only later chains have are dropped. *)
Theorem combine_chains_result (chain_list : list (gmap string (list Q)))
    (nburn thin : nat) :
  match combine_chains chain_list nburn thin with
  | inl e => e = IndexError /\ chain_list = []
  | inr (Raise e) =>
      exists chain_0 rest key chain_i,
        chain_list = chain_0 :: rest /\ is_Some (chain_0 !! key) /\
        chain_i ∈ chain_list /\ chain_i !! key = None /\ e = KeyError key
  | inr (Ok combined) =>
      exists chain_0 rest,
        chain_list = chain_0 :: rest /\
        forall key,
          match chain_0 !! key with
          | None => combined !! key = None
          | Some _ =>
              exists series_list,
                Forall2 (fun chain_i series => chain_i !! key = Some series)
                  chain_list series_list /\
                combined !! key
                = Some (concat (burn_and_thin nburn thin <$> series_list))
          end
  end.
Proof.
  unfold combine_chains. destruct chain_list as [|chain_0 rest]; [done|].
  destruct (Hlaws _ chain_0) as [_ Helem].
  destruct (for_each _ _ _) as [combined|e] eqn:Hrun.
  - exists chain_0, rest. split; [done|]. intros key.
    destruct (combine_loop_ok _ _ _ _ _ _ Hrun key) as [Hin Hout].
    destruct (chain_0 !! key) as [series|] eqn:Hkey.
    + apply Hin, Helem. eauto.
    + rewrite Hout; [done|]. intros Hk. apply Helem in Hk.
      destruct Hk. congruence.
  - apply for_each_raise_inv in Hrun.
    destruct Hrun as (pre & key & post & combined & Hkeys & _ & Hkey).
    destruct (combine_key (chain_0 :: rest) nburn thin key) as [pieces|e'] eqn:Hk;
      [discriminate|].
    simpl in Hkey. inversion Hkey; subst e'.
    apply combine_key_raise in Hk. destruct Hk as [-> (ci & Hin & Hnone)].
    exists chain_0, rest, key, ci. split; [done|]. split; [|done].
    apply Helem. rewrite Hkeys. apply elem_of_app. right. left.
Qed.

(** X23.  With the defaults [nburn=0] and [thin=1], combining a single
    chain gives the chain back. *)
Theorem combine_chains_single (chain : gmap string (list Q)) :
  combine_chains [chain] 0 1 = inr (Ok chain).
Proof.
  unfold combine_chains. destruct (Hlaws _ chain) as [_ Helem].
  destruct (for_each _ _ _) as [combined|e] eqn:Hrun.
  - do 2 f_equal. apply map_eq. intros key.
    destruct (combine_loop_ok _ _ _ _ _ _ Hrun key) as [Hin Hout].
    destruct (chain !! key) as [series|] eqn:Hkey.
    + destruct Hin as (sl & Hall & ->); [apply Helem; eauto|].
      inversion Hall as [|c s cl sl' Hc Hrest]; subst. inversion Hrest; subst.
      cbn. rewrite burn_and_thin_defaults, app_nil_r. congruence.
    + rewrite Hout; [done|]. intros Hk. apply Helem in Hk.
      destruct Hk. congruence.
  - exfalso. apply for_each_raise_inv in Hrun.
    destruct Hrun as (pre & key & post & combined & Hkeys & _ & Hkey).
    simpl in Hkey. destruct (chain !! key) as [series|] eqn:Hc;
      [discriminate|].
    assert (Hin : key ∈ dict_keys chain)
      by (rewrite Hkeys; apply elem_of_app; right; left).
    apply Helem in Hin. destruct Hin. congruence.
Qed.

End ChainFacts.

(** ** The decorator *)

Section DecoratorFacts.

Context {L R V D : Type}.

(** The loop of lines 110-111 pairs every argument with its default. *)
Lemma collect_defaults_lookup (args : list string) (defaults : list V) (n : nat) :
  NoDup args -> (n <= length args)%nat -> (n <= length defaults)%nat ->
  forall arg : string,
  (forall i, (i < n)%nat -> args !! i = Some arg ->
     collect_defaults V args defaults n !! arg = defaults !! i) /\
  ((forall i, (i < n)%nat -> args !! i <> Some arg) ->
   collect_defaults V args defaults n !! arg = None).
Proof.
  intros Hnd. unfold collect_defaults.
  induction n as [|n IH]; intros Hargs Hdefaults arg.
  - split; [intros i Hi; lia | by intros _].
  - rewrite seq_S, foldl_app. simpl.
    destruct (lookup_lt_is_Some_2 args n ltac:(lia)) as [a Ha].
    destruct (lookup_lt_is_Some_2 defaults n ltac:(lia)) as [x Hx].
    rewrite Ha, Hx.
    destruct (IH ltac:(lia) ltac:(lia) arg) as [IHin IHout]. split.
    + intros i Hi Harg. destruct (Nat.eq_dec i n) as [->|Hne].
      * assert (a = arg) as -> by congruence.
        by rewrite lookup_insert_eq, Hx.
      * rewrite lookup_insert_ne; [apply IHin; [lia | done]|].
        intros ->. apply Hne. by apply (NoDup_lookup args i n arg).
    + intros Hnone. rewrite lookup_insert_ne.
      * apply IHout. intros i Hi. apply Hnone. lia.
      * intros ->. by apply (Hnone n); [lia|].
Qed.

Lemma collect_defaults_dom (args : list string) (defaults : list V) (n : nat)
    (arg : string) :
  is_Some (collect_defaults V args defaults n !! arg) -> arg ∈ args.
Proof.
  unfold collect_defaults. induction n as [|n IH]; [by intros [x Hx]|].
  rewrite seq_S, foldl_app. simpl.
  destruct (args !! n) as [a|] eqn:Ha; [|done].
  destruct (defaults !! n) as [x|]; [|done].
  destruct (String.string_dec a arg) as [->|Hne].
  - intros _. by apply (list_elem_of_lookup_2 _ n).
  - by rewrite lookup_insert_ne.
Qed.

(** [nparents + value_included] is [len( args )]. *)
Lemma value_included_length (args : list string) :
  let value_included :=
    if bool_decide ("value" ∈ args) then 1%nat else 0%nat in
  (length args - value_included + value_included)%nat = length args.
Proof.
  cbv zeta. case_bool_decide as Hv; [|lia].
  apply list_elem_of_lookup in Hv. destruct Hv as [i Hi].
  apply lookup_lt_Some in Hi. lia.
Qed.

(** What lines 110-113 leave in [value] and [parents]. *)
Lemma value_and_parents (args : list string) (defaults : list V) :
  (length args <= length defaults)%nat ->
  let parents := collect_defaults V args defaults (length args) in
  delete "value" parents !! "value" = None /\
  (NoDup args ->
   forall i arg, args !! i = Some arg ->
     if bool_decide (arg = "value")
     then parents !! "value" = defaults !! i
     else delete "value" parents !! arg = defaults !! i) /\
  ("value" ∉ args -> parents !! "value" = None) /\
  (forall arg, is_Some (delete "value" parents !! arg) -> arg ∈ args).
Proof.
  intros Hlen parents. split; [apply lookup_delete_eq|]. split; [|split].
  - intros Hnd i arg Harg.
    destruct (collect_defaults_lookup args defaults (length args)
                Hnd ltac:(lia) Hlen arg) as [Hin _].
    specialize (Hin i ltac:(by eapply lookup_lt_Some) Harg).
    case_bool_decide as Hv; [by subst arg|]. by rewrite lookup_delete_ne.
  - intros Hv. destruct (parents !! "value") as [x|] eqn:Hx; [|done].
    exfalso. apply Hv. apply (collect_defaults_dom args defaults (length args)).
    fold parents. by rewrite Hx.
  - intros arg Hsome. apply (collect_defaults_dom args defaults (length args)).
    fold parents. destruct (String.string_dec "value" arg) as [<-|Hne].
    + rewrite lookup_delete_eq in Hsome. by destruct Hsome.
    + by rewrite lookup_delete_ne in Hsome.
Qed.

(** X24.  What [stochastic] does with a function.  It raises [TypeError]
    when an argument has no default (line 75 calls the function without
    arguments), and [ValueError] when the function defines no [logp], or
    defines [random] although [observed] is set; the [ValueError] of line
    108 is never raised.  Otherwise the [Stoch] has the name of the
    function and a [logp], no [random] if it is observed, the default of
    the argument [value] as its value, and every other argument with its
    default as its parents. *)
Theorem stochastic_result (observed : bool) (dtype : D) (func : pyfunc L R V) :
  match instantiate_stochastic observed dtype func with
  | inl e =>
      e = TypeError /\
      (length (func_defaults func) < length (func_args func))%nat
  | inr (Raise e) =>
      ((func_logp func = None /\
        e = ValueError ((newline +:+ "Stochastic ") +:+ func_name func
                          +:+ " logp not defined")) \/
       (is_Some (func_random func) /\ observed = true /\
        e = ValueError
              ((newline +:+ "Can't have random function defined for Stochastic ")
                 +:+ func_name func +:+ "because 'observed' is set to True"))) /\
      e <> ValueError ("Stochastic " +:+ func_name func
                         +:+ " value and/or parents not defined properly")
  | inr (Ok d) =>
      dictionary_name d = func_name func /\
      dictionary_observed d = observed /\
      is_Some (dictionary_logp d) /\
      (observed = true -> dictionary_random d = None) /\
      dictionary_parents d !! "value" = None /\
      (NoDup (func_args func) ->
       forall i arg, func_args func !! i = Some arg ->
         if bool_decide (arg = "value")
         then dictionary_value d = func_defaults func !! i
         else dictionary_parents d !! arg = func_defaults func !! i) /\
      ("value" ∉ func_args func -> dictionary_value d = None) /\
      (forall arg, is_Some (dictionary_parents d !! arg) ->
                   arg ∈ func_args func)
  end.
Proof.
  unfold instantiate_stochastic.
  destruct (Nat.ltb_spec (length (func_defaults func)) (length (func_args func)))
    as [Hlt|Hge]; [done|].
  destruct (func_logp func) as [logp|] eqn:Hlogp;
    [|split; [by left | intros Heq; inversion Heq]].
  rewrite value_included_length.
  destruct (Nat.ltb_spec (length (func_defaults func)) (length (func_args func)))
    as [Hlt|_]; [lia|].
  pose proof (value_and_parents (func_args func) (func_defaults func) Hge)
    as (Hvalue & Hargs & Hnone & Hdom).
  destruct (func_random func) as [random|] eqn:Hrandom; cbn [andb];
    [destruct observed eqn:Hobs;
       [split; [right; eauto | intros Heq; inversion Heq]|]|];
    cbn [dictionary_name dictionary_observed dictionary_logp
         dictionary_random dictionary_value dictionary_parents];
    (split; [done|]); (split; [done|]); (split; [eauto|]); done.
Qed.

End DecoratorFacts.

(** ** The further theorems at work on the small models *)

(** An acceptance fraction of 0.10 shrinks a step size of 1, one of 0.5
    stretches it. *)
Lemma adjust_step_size_direction_witness :
  adjust_step_size 0.10 1 < 1 /\ 1 < adjust_step_size 0.5 1.
Proof.
  destruct (adjust_step_size_direction 0.10 1 ltac:(reflexivity)) as (Hlow & _).
  destruct (adjust_step_size_direction 0.5 1 ltac:(reflexivity))
    as (_ & Hhigh & _).
  split; [apply Hlow | apply Hhigh]; reflexivity.
Defined.

Lemma rescale_table_direction_witness :
  rescale_table 0.10 1 = rescale_table 0.10 2 /\ rescale_table 0.10 1 < 1.
Proof.
  assert (Hout : ~ (0.2 <= 0.10 /\ 0.10 <= 0.35))
    by (intros [Hle _]; apply Hle; reflexivity).
  destruct (rescale_table_direction 0.10 1 2 Hout) as (Hsame & Hlow & _).
  split; [exact Hsame | apply Hlow; reflexivity].
Defined.

(** [pre_tune] converges on [Cases.tape_tuning] with a budget of 25
    turns. *)
Lemma pre_tune_x_converges :
  exists t,
    Demo.pre_tune_x 25 5 Demo.keys_x Demo.vals_x Demo.steps_x Cases.tape_tuning
    = Ok t.
Proof.
  eexists. vm_compute. reflexivity.
Qed.

Lemma pre_tune_needs_five_intervals_witness :
  exists t,
    Demo.pre_tune_x 25 5 Demo.keys_x Demo.vals_x Demo.steps_x Cases.tape_tuning
    = Ok t /\
    (0 < 5)%nat /\ (5 * 5 <= 25)%nat.
Proof.
  destruct pre_tune_x_converges as [t Hrun]. exists t. split; [exact Hrun|].
  exact (pre_tune_needs_five_intervals Demo.tape_normal Demo.tape_random
           Demo.exp_approx Demo.logp_x Demo.sqrt_poly 25 5 Demo.keys_x
           Demo.vals_x Demo.steps_x Cases.tape_tuning t Hrun).
Defined.

(** A negative budget: no turn is taken and line 294 finds no [accfrac]. *)
Lemma pre_tune_exceptions_witness :
  exists e,
    pre_tune_py (list Q) Demo.tape_normal Demo.tape_random Demo.exp_approx
      Demo.logp_x Demo.sqrt_poly (-1) (Some 5%Z) Demo.keys_x Demo.vals_x
      Demo.steps_x Demo.tape_25 = inl e /\
    ((e = UnboundLocalError "accfrac" /\ (-1 < 0)%Z /\
      forall n, Some 5%Z = Some n -> (0 <= n)%Z) \/
     (e = TypeError_NoneType "%" /\ (0 < -1)%Z /\ Some 5%Z = None)).
Proof.
  exists (UnboundLocalError "accfrac"). split; [reflexivity|].
  exact (pre_tune_exceptions Demo.tape_normal Demo.tape_random
           Demo.exp_approx Demo.logp_x Demo.sqrt_poly (-1) (Some 5%Z)
           Demo.keys_x Demo.vals_x Demo.steps_x Demo.tape_25).
Defined.

Lemma pre_tune_step_sizes_witness :
  exists t,
    Demo.pre_tune_x 25 5 Demo.keys_x Demo.vals_x Demo.steps_x Cases.tape_tuning
    = Ok t /\
    (is_Some (step_sizes t !! "x") <-> is_Some (Demo.steps_x !! "x")) /\
    step_sizes t !! "y" = Demo.steps_x !! "y" /\
    values t !! "y" = Demo.vals_x !! "y".
Proof.
  destruct pre_tune_x_converges as [t Hrun]. exists t. split; [exact Hrun|].
  destruct (pre_tune_step_sizes Demo.tape_normal Demo.tape_random
              Demo.exp_approx Demo.logp_x Demo.sqrt_poly 25 5 Demo.keys_x
              Demo.vals_x Demo.steps_x Cases.tape_tuning t Hrun)
    as (Hdom & Hout & _).
  split; [apply Hdom | apply Hout].
  intros Hin. apply list_elem_of_singleton in Hin. discriminate Hin.
Defined.

Lemma pre_tune_common_factor_witness :
  exists (t t1 : tuner (list Q)) (c : Q),
    Demo.pre_tune_x 25 5 Demo.keys_x Demo.vals_x Demo.steps_x Cases.tape_tuning
    = Ok t /\
    phaseA (list Q) Demo.tape_normal Demo.tape_random Demo.exp_approx
      Demo.logp_x 25 5 Demo.keys_x (assign_all Demo.keys_x Demo.vals_x ∅)
      (Tuner Demo.vals_x Demo.steps_x (assign_all Demo.keys_x Demo.vals_x ∅)
         Cases.tape_tuning) = Ok t1 /\
    forall key sz, key ∈ Demo.keys_x -> step_sizes t1 !! key = Some sz ->
      exists sz', step_sizes t !! key = Some sz' /\ sz' == sz * c.
Proof.
  destruct pre_tune_x_converges as [t Hrun].
  destruct (pre_tune_common_factor Demo.tape_normal Demo.tape_random
              Demo.exp_approx Demo.logp_x Demo.sqrt_poly 25 5 Demo.keys_x
              Demo.vals_x Demo.steps_x Cases.tape_tuning t
              (NoDup_singleton "x") Hrun) as (t1 & c & HA & Hc).
  exists t, t1, c. split; [exact Hrun|]. split; [exact HA | exact Hc].
Defined.

Lemma keys_x_step_sizes :
  forall key, key ∈ Demo.keys_x -> is_Some (Demo.steps_x !! key).
Proof.
  intros key Hkey. apply list_elem_of_singleton in Hkey. subst key.
  exists 1. reflexivity.
Qed.

Lemma keys_x_values :
  forall key, key ∈ Demo.keys_x -> is_Some (Demo.vals_x !! key).
Proof.
  intros key Hkey. apply list_elem_of_singleton in Hkey. subst key.
  exists 0. reflexivity.
Qed.


(** Three steps on [x], without tuning. *)
Lemma sample_x_three :
  exists chain t,
    Demo.sample_x (Some Demo.steps_x) Demo.keys_x Demo.vals_x Cases.tape_three
      3 None None = Ok (chain, t).
Proof.
  destruct (sample_untuned_ok Demo.tape_normal Demo.tape_random
              Demo.exp_approx Demo.logp_x Demo.sqrt_poly Demo.keys_x
              Demo.steps_x Demo.vals_x Cases.tape_three 3 None None
              keys_x_step_sizes ltac:(by left)) as (chain & t & Hrun & _).
  eauto.
Qed.


Lemma sample_logp_series_witness :
  exists chain t,
    Demo.sample_x (Some Demo.steps_x) Demo.keys_x Demo.vals_x Cases.tape_three
      3 None None = Ok (chain, t) /\
    exists vals_1 : gmap string Q,
      recorded chain "logp" 1 = Some (Demo.logp_x vals_1) /\
      recorded chain "x" 1 = vals_1 !! "x".
Proof.
  destruct sample_x_three as (chain & t & Hrun). exists chain, t.
  split; [exact Hrun|].
  destruct keys_x_reserved as [Hlogp Haccepted].
  destruct (sample_logp_series Demo.tape_normal Demo.tape_random
              Demo.exp_approx Demo.logp_x Demo.sqrt_poly Demo.keys_x
              Hlogp Haccepted (Some Demo.steps_x) Demo.vals_x Cases.tape_three
              3 None None chain t Hrun keys_x_values 1%nat ltac:(lia))
    as (vals_1 & H1 & H2 & _).
  exists vals_1. split; [exact H1|]. apply H2. left.
Defined.

Lemma sample_final_state_witness :
  exists chain t,
    Demo.sample_x (Some Demo.steps_x) Demo.keys_x Demo.vals_x Cases.tape_three
      3 None None = Ok (chain, t) /\
    recorded chain "x" 2 = Some (getitem (values t) "x") /\
    values t !! "y" = Demo.vals_x !! "y".
Proof.
  destruct sample_x_three as (chain & t & Hrun). exists chain, t.
  split; [exact Hrun|].
  destruct keys_x_reserved as [Hlogp Haccepted].
  destruct (sample_final_state Demo.tape_normal Demo.tape_random
              Demo.exp_approx Demo.logp_x Demo.sqrt_poly Demo.keys_x
              Hlogp Haccepted (Some Demo.steps_x) Demo.vals_x Cases.tape_three
              3 None None chain t Hrun keys_x_values)
    as (Hlast & Hout & _).
  split; [apply (Hlast ltac:(lia)); left | apply Hout].
  intros Hin. apply list_elem_of_singleton in Hin. discriminate Hin.
Defined.

(** Tuning with a negative budget: [sample] passes on the
    [UnboundLocalError] of [pre_tune]. *)
Lemma sample_exceptions_witness :
  exists e,
    sample_py (list Q) Demo.tape_normal Demo.tape_random Demo.exp_approx
      Demo.logp_x Demo.sqrt_poly (Some Demo.steps_x) Demo.keys_x Demo.vals_x
      Cases.tape_three 3 (Some (-1)%Z) (Some 5%Z) = inl e /\
    e = UnboundLocalError "accfrac" /\
    is_Some (Some Demo.steps_x) /\ (0 <= 3)%Z /\
    exists m n, Some (-1)%Z = Some m /\ Some 5%Z = Some n /\
                (m < 0)%Z /\ (0 <= n)%Z.
Proof.
  exists (UnboundLocalError "accfrac"). split; [reflexivity|].
  exact (sample_exceptions Demo.tape_normal Demo.tape_random
           Demo.exp_approx Demo.logp_x Demo.sqrt_poly (Some Demo.steps_x)
           Demo.keys_x Demo.vals_x Cases.tape_three 3 (Some (-1)%Z)
           (Some 5%Z)).
Defined.

(** The chain [A -> B -> C] of the specification. *)
Lemma trace_ABC :
  exists ancestries,
    trace_ancestries 4 Demo.free_ABC ∅ = Some (Ok ancestries) /\
    ancestries !! "C" = Some 3%nat.
Proof.
  eexists. split; vm_compute; reflexivity.
Qed.

Lemma trace_ancestries_depths_witness :
  exists ancestries,
    trace_ancestries 4 Demo.free_ABC ∅ = Some (Ok ancestries) /\
    exists stoch, ("C", stoch) ∈ Demo.free_ABC /\
                  (1 <= 3 <= generations stoch)%nat.
Proof.
  destruct trace_ABC as (ancestries & Hrun & HC). exists ancestries.
  split; [exact Hrun|].
  destruct (trace_ancestries_depths 4 Demo.free_ABC ancestries Hrun)
    as [_ Hdepth].
  exact (Hdepth "C" 3%nat HC).
Defined.

Lemma with_parents_A : with_parents (parents_of Demo.A).
Proof.
  constructor; [done|]. intros k name pps Hin.
  repeat (apply elem_of_cons in Hin; destruct Hin as [Heq|Hin];
          [discriminate Heq|]).
  by apply elem_of_nil in Hin.
Qed.

Lemma with_parents_B : with_parents (parents_of Demo.B).
Proof.
  constructor; [done|]. intros k name pps Hin.
  apply elem_of_cons in Hin. destruct Hin as [Heq|Hin].
  - inversion Heq; subst. apply with_parents_A.
  - apply elem_of_cons in Hin. destruct Hin as [Heq|Hin]; [discriminate Heq|].
    by apply elem_of_nil in Hin.
Qed.

Lemma with_parents_C : with_parents (parents_of Demo.C).
Proof.
  constructor; [done|]. intros k name pps Hin.
  apply elem_of_cons in Hin. destruct Hin as [Heq|Hin].
  - inversion Heq; subst. apply with_parents_B.
  - apply elem_of_cons in Hin. destruct Hin as [Heq|Hin]; [discriminate Heq|].
    by apply elem_of_nil in Hin.
Qed.

Lemma free_ABC_cases (P : string -> pyobj -> Prop) :
  P "A" Demo.A -> P "C" Demo.C -> P "B" Demo.B ->
  forall key stoch, (key, stoch) ∈ Demo.free_ABC -> P key stoch.
Proof.
  intros HA HC HB key stoch Hin.
  repeat (apply elem_of_cons in Hin; destruct Hin as [Heq|Hin];
          [by inversion Heq; subst|]).
  by apply elem_of_nil in Hin.
Qed.

Lemma trace_ancestries_with_parents_witness :
  exists ancestries,
    trace_ancestries 4 Demo.free_ABC ∅ = Some (Ok ancestries).
Proof.
  apply (trace_ancestries_with_parents 4 Demo.free_ABC).
  apply free_ABC_cases.
  - split; [apply with_parents_A | vm_compute; lia].
  - split; [apply with_parents_C | vm_compute; lia].
  - split; [apply with_parents_B | vm_compute; lia].
Defined.

Lemma single_lineage_A : single_lineage (parents_of Demo.A).
Proof.
  apply single_lineage_base; [done| |by repeat constructor].
  apply NoDup_cons. split; [|apply NoDup_singleton].
  intros Hin. apply list_elem_of_singleton in Hin. discriminate Hin.
Qed.

Lemma single_lineage_B : single_lineage (parents_of Demo.B).
Proof.
  apply (single_lineage_step [] "mu" "A" _ [("sigma", Other 1)]);
    [|constructor|by repeat constructor|apply single_lineage_A].
  apply NoDup_cons. split; [|apply NoDup_singleton].
  intros Hin. apply list_elem_of_singleton in Hin. discriminate Hin.
Qed.

Lemma single_lineage_C : single_lineage (parents_of Demo.C).
Proof.
  apply (single_lineage_step [] "mu" "B" _ [("sigma", Other 1)]);
    [|constructor|by repeat constructor|apply single_lineage_B].
  apply NoDup_cons. split; [|apply NoDup_singleton].
  intros Hin. apply list_elem_of_singleton in Hin. discriminate Hin.
Qed.

Lemma free_ABC_keys : NoDup Demo.free_ABC.*1.
Proof.
  repeat (apply NoDup_cons; split;
          [intros Hin;
           repeat (apply elem_of_cons in Hin; destruct Hin as [Heq|Hin];
                   [discriminate Heq|]);
           by apply elem_of_nil in Hin|]).
  apply NoDup_nil_2.
Qed.

Lemma trace_ancestries_single_lineage_witness :
  exists ancestries,
    trace_ancestries 4 Demo.free_ABC ∅ = Some (Ok ancestries) /\
    ancestries !! "C" = Some (generations Demo.C).
Proof.
  destruct (trace_ancestries_single_lineage 4 Demo.free_ABC free_ABC_keys)
    as (ancestries & Hrun & Hdepth).
  - apply free_ABC_cases.
    + split; [done|]. split; [apply single_lineage_A | vm_compute; lia].
    + split; [done|]. split; [apply single_lineage_C | vm_compute; lia].
    + split; [done|]. split; [apply single_lineage_B | vm_compute; lia].
  - exists ancestries. split; [exact Hrun|]. apply Hdepth.
    right. left.
Defined.

Lemma random_draw_after_trace_witness :
  exists ancestries vals' g',
    trace_ancestries 4 Demo.free_ABC ∅ = Some (Ok ancestries) /\
    random_draw_from_Model (list Q) Demo.prior_draw Demo.free_ABC.*1
      ancestries ∅ [1; 2; 3] = Ok (vals', g').
Proof.
  destruct trace_ABC as (ancestries & Hrun & _).
  destruct (random_draw_after_trace Demo.prior_draw 4 Demo.free_ABC
              ancestries ∅ [1; 2; 3] Hrun) as (vals' & g' & Hdraw).
  by exists ancestries, vals', g'.
Defined.

(** An attribute the object has is kept, one it lacks is added, one that
    [setattr] refuses is skipped. *)
Lemma update_attributes_union_witness :
  @update_attributes map_order Q (fun k _ => String.eqb k "c")
    {["a" := 1]} {["a" := 2; "b" := 3; "c" := 4]}
  = {["a" := 1]}
      ∪ filter (fun e => String.eqb e.1 "c" = false)
          ({["a" := 2; "b" := 3; "c" := 4]} : gmap string Q).
Proof.
  apply (@update_attributes_union map_order map_order_laws Q
           (fun k _ => String.eqb k "c")).
Defined.

Lemma stochastics_partition_witness :
  @observed_stochastics map_order Cases.objects
    ∪ @unobserved_stochastics map_order Cases.objects
  = @identify_stochastics map_order Cases.objects.
Proof.
  apply (@stochastics_partition map_order map_order_laws Cases.objects).
Defined.

(** Two variables of [Cases.objects] are called [x]. *)
Lemma check_names_unique_witness :
  @check_model_stochastics_names map_order
    (@identify_stochastics map_order Cases.objects)
  = Raise (ValueError "Model variables do not all have unique names").
Proof.
  destruct (@check_names_unique map_order map_order_laws
              (@identify_stochastics map_order Cases.objects))
    as [Hiff [Hok|Hraise]]; [|exact Hraise].
  exfalso.
  assert (Hxy : "x" = "y"); [|discriminate Hxy].
  apply (proj1 Hiff Hok "x" Cases.stoch_x "y" Cases.stoch_y);
    vm_compute; reflexivity.
Defined.

Lemma burn_and_thin_lookup_witness :
  burn_and_thin 1 2 [10; 11; 12; 13; 14] !! 1%nat = Some 13.
Proof.
  exact (burn_and_thin_lookup 1 2 [10; 11; 12; 13; 14] 1 ltac:(lia)).
Defined.

Lemma combine_chains_result_witness :
  exists combined,
    @combine_chains map_order [Cases.chain_a; Cases.chain_b] 1 2
    = inr (Ok combined) /\
    exists series_list,
      Forall2 (fun chain_i series => chain_i !! "x" = Some series)
        [Cases.chain_a; Cases.chain_b] series_list /\
      combined !! "x" = Some (concat (burn_and_thin 1 2 <$> series_list)).
Proof.
  assert (Hrun : exists combined,
    @combine_chains map_order [Cases.chain_a; Cases.chain_b] 1 2
    = inr (Ok combined)) by (eexists; vm_compute; reflexivity).
  destruct Hrun as [combined Hrun]. exists combined. split; [exact Hrun|].
  pose proof (@combine_chains_result map_order map_order_laws
                [Cases.chain_a; Cases.chain_b] 1 2) as Hresult.
  rewrite Hrun in Hresult.
  destruct Hresult as (chain_0 & rest & Hlist & Hkeys).
  inversion Hlist; subst chain_0 rest. exact (Hkeys "x").
Defined.

Lemma combine_chains_single_witness :
  @combine_chains map_order [Cases.chain_a] 0 1 = inr (Ok Cases.chain_a).
Proof.
  apply (@combine_chains_single map_order map_order_laws).
Defined.
